(** * Transcript segmentation and translation dispatch (server/main.py)

    A shallow embedding of the translation agent of
    [LiveKit-ai-translation/server/main.py]: the sentence extractor, the
    per-language [Translator], the translator registry handler, sentence
    dispatch and the transcript accumulation loop with its delayed
    translation task.

    Python [str] values are sequences of Unicode code points; they are
    modelled as lists of code points so that the Arabic punctuation of the
    sentence pattern and [str.strip]'s Unicode whitespace are single
    characters, as in the source. *)

From Stdlib Require Import Ascii String.
From Stdlib Require Import NArith Bool Arith Lia List.
Import ListNotations.
Open Scope list_scope.

Set Implicit Arguments.

(* ================================================================== *)
(** * Text: Python [str] *)
(* ================================================================== *)

(** A Unicode code point. *)
Definition char := N.

(** A Python string. *)
Definition text := list char.

(** A string literal of the source, character by character. *)
Definition str (s : string) : text :=
  List.map N_of_ascii (list_ascii_of_string s).

Definition text_eq_dec : forall a b : text, {a = b} + {a <> b} :=
  list_eq_dec N.eq_dec.

(** [a == b] on strings. *)
Definition text_eqb (a b : text) : bool :=
  if text_eq_dec a b then true else false.

(** Truthiness of a string or list: [if s:]. *)
Definition nonempty {A : Type} (s : list A) : bool :=
  match s with [] => false | _ :: _ => true end.

(** The characters CPython's [str.isspace] / [str.strip] treat as
    whitespace (Unicode White_Space with bidirectional type WS, B or S). *)
Definition is_whitespace (c : char) : bool :=
  ((9 <=? c) && (c <=? 13)          (* \t \n \v \f \r *)
   || (28 <=? c) && (c <=? 32)      (* FS GS RS US and space *)
   || (c =? 133) || (c =? 160)      (* NEL, no-break space *)
   || (c =? 5760)                   (* ogham space mark *)
   || (8192 <=? c) && (c <=? 8202)  (* en quad .. hair space *)
   || (c =? 8232) || (c =? 8233)    (* line and paragraph separators *)
   || (c =? 8239) || (c =? 8287)    (* narrow nbsp, medium math space *)
   || (c =? 12288))%N.              (* ideographic space *)

(** [s.isspace()]: at least one character and all of them whitespace. *)
Definition isspace (s : text) : bool :=
  nonempty s && forallb is_whitespace s.

(** [s.lstrip()]. *)
Fixpoint lstrip (s : text) : text :=
  match s with
  | [] => []
  | c :: s' => if is_whitespace c then lstrip s' else s
  end.

(** [s.rstrip()]. *)
Definition rstrip (s : text) : text := rev (lstrip (rev s)).

(** [s.strip()]. *)
Definition strip (s : text) : text := rstrip (lstrip s).

(** The single space of [accumulated_text.strip() + " " + final_text]. *)
Definition space : text := [32%N].

(* ================================================================== *)
(** * The sentence pattern [[.!?؟،]+] *)
(* ================================================================== *)

(** The character class of [sentence_pattern]: full stop, exclamation
    mark, question mark, Arabic question mark (U+061F) and Arabic comma
    (U+060C). *)
Definition is_terminal (c : char) : bool :=
  ((c =? 46) || (c =? 33) || (c =? 63) || (c =? 1567) || (c =? 1548))%N.

(** [re.split(r'([.!?؟،]+)', text)]: the text cut at every maximal run of
    terminal marks, the runs kept.  The result alternates content and
    runs, starts and ends with content (possibly empty), and is never
    empty: a text without marks gives [[text]]. *)
Fixpoint re_split (s : text) : list text :=
  match s with
  | [] => [[]]
  | c :: s' =>
      match re_split s' with
      | [] => [[c]]
      | c0 :: rest =>
          if is_terminal c then
            match c0, rest with
            | [], run :: rest' => [] :: (c :: run) :: rest'
            | _, _ => [] :: [c] :: c0 :: rest
            end
          else (c :: c0) :: rest
      end
  end.

(** [re.match(r'[.!?؟،]+', p)]: truthy when [p] starts with a terminal
    mark. *)
Definition re_match_terminal (p : text) : bool :=
  match p with
  | [] => false
  | c :: _ => is_terminal c
  end.

(** The [while i < len(parts)] loop of [_extract_complete_sentences],
    two parts per round. *)
Fixpoint extract_loop (parts : list text) : list text * text :=
  match parts with
  | [] => ([], [])
  | p :: q :: parts' =>
      if re_match_terminal q then
        let sentence := strip (p ++ q) in
        let '(complete_sentences, remaining_text) := extract_loop parts' in
        if nonempty sentence && negb (isspace sentence)
        then (sentence :: complete_sentences, remaining_text)
        else (complete_sentences, remaining_text)
      else ([], strip p)
  | p :: _ => ([], strip p)
  end.

(** [_extract_complete_sentences(text)]. *)
Definition _extract_complete_sentences (t : text) : list text * text :=
  if negb (nonempty (strip t)) then ([], [])
  else extract_loop (re_split t).

(* ================================================================== *)
(** * Python [dict]: insertion-ordered, unique keys *)
(* ================================================================== *)

Section Dict.
Variable V : Type.

Definition dict := list (text * V).

(** [d.get(k, None)]. *)
Fixpoint dict_get (k : text) (d : dict) : option V :=
  match d with
  | [] => None
  | (k', v) :: d' => if text_eqb k k' then Some v else dict_get k d'
  end.

(** [k in d]. *)
Definition dict_mem (k : text) (d : dict) : bool :=
  match dict_get k d with Some _ => true | None => false end.

(** [d[k] = v]: an existing key keeps its position, a new key goes
    last. *)
Fixpoint dict_set (k : text) (v : V) (d : dict) : dict :=
  match d with
  | [] => [(k, v)]
  | (k', v') :: d' =>
      if text_eqb k k' then (k', v) :: d' else (k', v') :: dict_set k v d'
  end.

(** [list(d.keys())]. *)
Definition dict_keys (d : dict) : list text := List.map fst d.

End Dict.

(* ================================================================== *)
(** * Languages *)
(* ================================================================== *)

Record Language := { code : text; name : text; flag : text }.

(** A flag emoji: the two regional-indicator symbols of a country code. *)
Definition flag_of (country : string) : text :=
  List.map (fun c => (c - 65 + 127462)%N) (str country).

Definition languages : dict Language :=
  [ (str "ar", {| code := str "ar"; name := str "Arabic";   flag := flag_of "SA" |});
    (str "en", {| code := str "en"; name := str "English";  flag := flag_of "US" |});
    (str "es", {| code := str "es"; name := str "Spanish";  flag := flag_of "ES" |});
    (str "fr", {| code := str "fr"; name := str "French";   flag := flag_of "FR" |});
    (str "de", {| code := str "de"; name := str "German";   flag := flag_of "DE" |});
    (str "ja", {| code := str "ja"; name := str "Japanese"; flag := flag_of "JP" |});
    (str "nl", {| code := str "nl"; name := str "Dutch";    flag := flag_of "NL" |}) ].

(** The [LanguageCode] enum: one member per entry of [languages], named
    by the language name, valued by the language code. *)
Inductive LanguageCode :=
  Arabic | English | Spanish | French | German | Japanese | Dutch.

(** [member.value]. *)
Definition value (l : LanguageCode) : text :=
  match l with
  | Arabic => str "ar" | English => str "en" | Spanish => str "es"
  | French => str "fr" | German => str "de" | Japanese => str "ja"
  | Dutch => str "nl"
  end.

Definition LanguageCode_members : list (text * LanguageCode) :=
  [ (str "Arabic", Arabic); (str "English", English);
    (str "Spanish", Spanish); (str "French", French);
    (str "German", German); (str "Japanese", Japanese);
    (str "Dutch", Dutch) ].

(** [getattr(LanguageCode, name)]; [None] stands for [AttributeError]. *)
Definition LanguageCode_getattr (nm : text) : option LanguageCode :=
  dict_get nm LanguageCode_members.

(** [source_language = "ar"]. *)
Definition source_language : text := str "ar".

(* ================================================================== *)
(** * Translator *)
(* ================================================================== *)

Inductive Role := system | user | assistant.

(** One message of an [llm.ChatContext]. *)
Record Message := { role : Role; content : text }.

Record Translator := {
  lang : LanguageCode;
  use_context : bool;
  context : list Message;
  message_count : nat;
  system_prompt : text
}.

(** The f-string of [Translator.__init__], [v] being [lang.value]. *)
Definition system_prompt_for (v : text) : text :=
  str "You are a simultaneous interpreter for a live islamic religious friday sermon. "
  ++ str "Translate only the **most recent user sentence** into " ++ v
  ++ str ". The last 9 translated sentances are shown as context so you know how to translate the most recent one"
  ++ str "Return **exactly that one sentence** in " ++ v ++ [8212%N]
  ++ str "no summaries, no commentary, be concise and to the point and use words that common in speech "
  ++ str "no repetition of earlier lines. make sure to translate in " ++ v
  ++ str " only. ".

(** The class attribute [Translator.use_context] as the source sets it:
    fresh-context mode. *)
Definition use_context_default : bool := false.

(** The object [Translator.__init__] builds, for a given setting of the
    [use_context] toggle. *)
Definition new_translator (toggle : bool) (l : LanguageCode) : Translator :=
  let prompt := system_prompt_for (value l) in
  {| lang := l;
     use_context := toggle;
     context := [ {| role := system; content := prompt |} ];
     message_count := 0;
     system_prompt := prompt |}.

(** [Translator(room, lang)]; [None] stands for an exception out of the
    constructor ([openai.LLM()] refuses to build a client when
    [openai_ok] is false). *)
Definition Translator_init (toggle : bool) (openai_ok : bool)
    (l : LanguageCode) : option Translator :=
  if openai_ok then Some (new_translator toggle l) else None.

(** One chunk of the LLM stream: [chunk.delta] may be [None], and so may
    [chunk.delta.content]. *)
Record ChoiceDelta := { delta_content : option text }.
Record ChatChunk := { delta : option ChoiceDelta }.

(** The asynchronous stream returned by [llm.chat]: finitely many chunks,
    then either the end of the stream or an exception. *)
Inductive Stream :=
| StreamEnd
| StreamRaise
| StreamChunk (chunk : ChatChunk) (rest : Stream).

Fixpoint stream_of_chunks (l : list ChatChunk) : Stream :=
  match l with
  | [] => StreamEnd
  | c :: l' => StreamChunk c (stream_of_chunks l')
  end.

(** The collaborators of a session.  The first argument of each is the
    sequence number of the [translate] call within the session, so that
    equal requests may be answered differently. *)
Record World := {
  llm_chat : nat -> LanguageCode -> list Message -> Stream;
  publish_transcription : nat -> text -> text -> bool
}.

(** The [async for chunk in stream] loop of [translate]; [None] when the
    stream raises. *)
Fixpoint collect_stream (translated_message : text) (stream : Stream)
  : option text :=
  match stream with
  | StreamEnd => Some translated_message
  | StreamRaise => None
  | StreamChunk chunk rest =>
      match delta chunk with
      | None => collect_stream translated_message rest          (* continue *)
      | Some d =>
          match delta_content d with
          | None => Some translated_message                      (* break *)
          | Some c => collect_stream (translated_message ++ c) rest
          end
      end
  end.

Inductive Outcome :=
| Published (translated_message : text)
| LLMRaised
| PublishRaised (translated_message : text).

(** What one call of [translate] did: the language, the message, the
    context handed to [llm.chat] and how the call ended. *)
Record Invocation := {
  inv_lang : text;
  inv_message : text;
  inv_request : list Message;
  inv_outcome : Outcome
}.

Definition raised (o : Outcome) : bool :=
  match o with Published _ => false | _ => true end.


(** [Translator.translate(message, track)]: the translator after the
    call and the record of the call. *)
Definition translate (w : World) (n : nat) (self : Translator)
    (message : text) : Translator * Invocation :=
  let '(self', chat_ctx) :=
    if use_context self then
      let ctx1 := context self ++ [ {| role := user; content := message |} ] in
      let count1 := message_count self + 1 in
      let self1 :=
        if 9 <? count1 then
          {| lang := lang self; use_context := use_context self;
             context := [ {| role := system; content := system_prompt self |} ];
             message_count := 0;
             system_prompt := system_prompt self |}
        else
          {| lang := lang self; use_context := use_context self;
             context := ctx1;
             message_count := count1;
             system_prompt := system_prompt self |} in
      (self1, context self1)
    else
      (self,
       [ {| role := system; content := system_prompt self |};
         {| role := user; content := message |} ]) in
  let outcome :=
    match collect_stream [] (llm_chat w n (lang self) chat_ctx) with
    | None => LLMRaised
    | Some translated_message =>
        if publish_transcription w n (value (lang self)) translated_message
        then Published translated_message
        else PublishRaised translated_message
    end in
  (self',
   {| inv_lang := value (lang self); inv_message := message;
      inv_request := chat_ctx; inv_outcome := outcome |}).

(* ================================================================== *)
(** * Sentence dispatch *)
(* ================================================================== *)

(** How an awaited call ends. *)
Inductive Completion := Returned | Raised.

(** [asyncio.gather] with [return_exceptions=flag], awaited, over calls
    that have all been started: with the flag the exceptions are results,
    without it the first one is raised to the caller. *)
Definition gather (return_exceptions : bool) (calls : list Invocation)
  : Completion :=
  if return_exceptions then Returned
  else if existsb (fun i => raised (inv_outcome i)) calls then Raised
  else Returned.

(** The [for lang, translator in translators.items()] loop for one
    sentence.  The calls run concurrently under [gather]; each one
    touches only its own translator and does so before its first
    suspension, so running them in dictionary order loses nothing. *)
Fixpoint translate_all (w : World) (n : nat) (items : dict Translator)
    (sentence : text) : dict Translator * list Invocation * nat :=
  match items with
  | [] => ([], [], n)
  | (l, translator) :: items' =>
      let '(translator', call) := translate w n translator sentence in
      let '(rest, calls, n') := translate_all w (S n) items' sentence in
      ((l, translator') :: rest, call :: calls, n')
  end.

Record Dispatch := {
  d_translators : dict Translator;
  d_calls : list Invocation;
  d_next : nat;
  d_completion : Completion
}.

(** The [for sentence in sentences] loop of [_translate_sentences]. *)
Fixpoint translate_loop (w : World) (n : nat) (translators : dict Translator)
    (sentences : list text) : Dispatch :=
  match sentences with
  | [] => {| d_translators := translators; d_calls := []; d_next := n;
             d_completion := Returned |}
  | sentence :: rest =>
      if nonempty (strip sentence) then
        let '(translators', translation_tasks, n') :=
          translate_all w n translators sentence in
        match (if nonempty translation_tasks
               then gather true translation_tasks else Returned) with
        | Raised =>
            {| d_translators := translators'; d_calls := translation_tasks;
               d_next := n'; d_completion := Raised |}
        | Returned =>
            let d := translate_loop w n' translators' rest in
            {| d_translators := d_translators d;
               d_calls := translation_tasks ++ d_calls d;
               d_next := d_next d;
               d_completion := d_completion d |}
        end
      else translate_loop w n translators rest
  end.

(** [_translate_sentences(sentences)]. *)
Definition _translate_sentences (w : World) (n : nat)
    (translators : dict Translator) (sentences : list text) : Dispatch :=
  if negb (nonempty sentences) || negb (nonempty translators) then
    {| d_translators := translators; d_calls := []; d_next := n;
       d_completion := Returned |}
  else translate_loop w n translators sentences.

(* ================================================================== *)
(** * The translator registry *)
(* ================================================================== *)

Inductive Level := DEBUG | INFO | WARNING | ERROR.

(** The lines logged while [on_attributes_changed] runs, by what they
    report; [TranslatorInitialized] is the line [Translator.__init__]
    logs last, with [lang.value] and the context mode. *)
Inductive LogMessage :=
| AttributesChanged (changed_attributes : dict text)
| RequestedSourceLanguage
| RequestedExistingLanguage (l : text)
| CurrentTranslators (keys : list text)
| TranslatorInitialized (lang_value : text) (rolling : bool)
| AddedTranslator (language_name : text)
| TotalTranslators (keys : list text)
| TranslatorsDictId   (* the line that prints [id(translators)] *)
| TranslatorVerified (l : text)
| TranslatorVerificationFailed (l : text)
| ErrorCreatingTranslator (l : text)
| UnsupportedLanguage (l : text)
| SupportedLanguages (keys : list text)
| NoCaptionLanguageChange.

Definition LogRecord := (Level * LogMessage)%type.

(** The session's initial registry: [translators["nl"] =
    Translator(job.room, LanguageCode.Dutch)]. *)
Definition initial_translators (toggle : bool) : dict Translator :=
  match Translator_init toggle true Dutch with
  | Some t => dict_set (str "nl") t []
  | None => []
  end.

(** [on_attributes_changed(changed_attributes, participant)]: the
    registry after the call and the lines it logged.  [openai_ok] tells
    whether a [Translator] can be constructed at that moment. *)
Definition on_attributes_changed (toggle openai_ok : bool)
    (translators : dict Translator) (changed_attributes : dict text)
  : dict Translator * list LogRecord :=
  let log0 := [(INFO, AttributesChanged changed_attributes)] in
  let no_change :=
    (translators, log0 ++ [(DEBUG, NoCaptionLanguageChange)]) in
  match dict_get (str "captions_language") changed_attributes with
  | None => no_change
  | Some l =>
      if negb (nonempty l) then no_change
      else if text_eqb l source_language then
        (translators, log0 ++ [(INFO, RequestedSourceLanguage)])
      else if dict_mem l translators then
        (translators,
         log0 ++ [(INFO, RequestedExistingLanguage l);
                  (INFO, CurrentTranslators (dict_keys translators))])
      else
        match dict_get l languages with
        | Some language_obj =>
            match LanguageCode_getattr (name language_obj) with
            | Some language_enum =>
                match Translator_init toggle openai_ok language_enum with
                | Some t =>
                    let translators' := dict_set l t translators in
                    (translators',
                     log0 ++
                     [(INFO, TranslatorInitialized (value language_enum)
                               (use_context t));
                      (INFO, AddedTranslator (name language_obj));
                      (INFO, TotalTranslators (dict_keys translators'));
                      (INFO, TranslatorsDictId);
                      (if dict_mem l translators'
                       then (INFO, TranslatorVerified l)
                       else (ERROR, TranslatorVerificationFailed l))])
                | None => (translators, log0 ++ [(ERROR, ErrorCreatingTranslator l)])
                end
            | None => (translators, log0 ++ [(ERROR, ErrorCreatingTranslator l)])
            end
        | None =>
            (translators,
             log0 ++ [(WARNING, UnsupportedLanguage l);
                      (INFO, SupportedLanguages (dict_keys languages))])
        end
  end.

(* ================================================================== *)
(** * The transcript accumulation loop and the delayed translation *)
(* ================================================================== *)

(** The life of one [_delayed_translation] task, as asyncio runs it.
    The coroutine suspends twice: in [await asyncio.sleep(delay)] and in
    [await _translate_sentences([text])]; between the two, and until the
    second await returns, [pending_translation_task] still names the
    task.  A task that is cancelled while it is suspended gets
    [CancelledError] at the [await], inside the [try]: the coroutine
    catches it and returns.  A task that is cancelled before its first
    run gets it before the [try]: the exception escapes and the task ends
    cancelled. *)
Inductive TaskState :=
| Scheduled         (* created, not run yet *)
| Sleeping          (* in [await asyncio.sleep(delay)] *)
| Dispatching (cancel_requested : bool)
                    (* in [await _translate_sentences([text])]; the flag
                       tells whether [cancel()] was called meanwhile *)
| CancelRequested (started : bool)
                    (* [cancel()] called before the delay was over,
                       [CancelledError] to be delivered *)
| Finished          (* the coroutine returned *)
| Cancelled.        (* the coroutine raised [CancelledError] *)

(** [task.cancelled()]. *)
Definition cancelled (st : TaskState) : bool :=
  match st with Cancelled => true | _ => false end.

(** Whether the task has still to run its body: its delay is not over. *)
Definition waiting (st : TaskState) : bool :=
  match st with Scheduled | Sleeping => true | _ => false end.

(** A delayed-translation task: the [text] argument it was created with
    and its state.  A task is named by its position in the session's
    list of tasks. *)
Record Task := { task_text : text; task_state : TaskState }.

Definition task_id := nat.

(** Who called [_translate_sentences]. *)
Inductive Caller :=
| ForwardTranscription
| DelayedTranslation (id : task_id).

(** What a session does.  [TranslateSentences] is a call of
    [_translate_sentences] with the [translate] calls it starts;
    [DispatchInterrupted id] is the cancellation of task [id] while it
    awaits its dispatch, which cancels those of its calls that have not
    ended. *)
Inductive Effect :=
| PublishInterim (interim_text : text)
| PublishFinal (final_text : text)
| TranslateSentences (by_whom : Caller) (sentences : list text)
    (calls : list Invocation)
| DispatchInterrupted (id : task_id)
| Log (r : LogRecord).

(** The variables of [entrypoint] shared by its closures, the tasks
    created so far, the number of [translate] calls made and what the
    session did, oldest first. *)
Record Session := {
  translators : dict Translator;
  accumulated_text : text;
  last_final_transcript : text;
  pending_translation_task : option task_id;
  tasks : list Task;
  llm_calls : nat;
  effects : list Effect
}.

Definition entrypoint (toggle : bool) : Session :=
  {| translators := initial_translators toggle;
     accumulated_text := [];
     last_final_transcript := [];
     pending_translation_task := None;
     tasks := [];
     llm_calls := 0;
     effects := [] |}.

(** Record updates. *)
Definition with_effect (e : Effect) (s : Session) : Session :=
  {| translators := translators s;
     accumulated_text := accumulated_text s;
     last_final_transcript := last_final_transcript s;
     pending_translation_task := pending_translation_task s;
     tasks := tasks s;
     llm_calls := llm_calls s;
     effects := effects s ++ [e] |}.

Definition with_accumulated_text (t : text) (s : Session) : Session :=
  {| translators := translators s;
     accumulated_text := t;
     last_final_transcript := last_final_transcript s;
     pending_translation_task := pending_translation_task s;
     tasks := tasks s;
     llm_calls := llm_calls s;
     effects := effects s |}.

Definition with_last_final_transcript (t : text) (s : Session) : Session :=
  {| translators := translators s;
     accumulated_text := accumulated_text s;
     last_final_transcript := t;
     pending_translation_task := pending_translation_task s;
     tasks := tasks s;
     llm_calls := llm_calls s;
     effects := effects s |}.

Definition with_pending (p : option task_id) (s : Session) : Session :=
  {| translators := translators s;
     accumulated_text := accumulated_text s;
     last_final_transcript := last_final_transcript s;
     pending_translation_task := p;
     tasks := tasks s;
     llm_calls := llm_calls s;
     effects := effects s |}.

Definition with_tasks (ts : list Task) (s : Session) : Session :=
  {| translators := translators s;
     accumulated_text := accumulated_text s;
     last_final_transcript := last_final_transcript s;
     pending_translation_task := pending_translation_task s;
     tasks := ts;
     llm_calls := llm_calls s;
     effects := effects s |}.

Definition with_translators (tr : dict Translator) (n : nat) (s : Session)
  : Session :=
  {| translators := tr;
     accumulated_text := accumulated_text s;
     last_final_transcript := last_final_transcript s;
     pending_translation_task := pending_translation_task s;
     tasks := tasks s;
     llm_calls := n;
     effects := effects s |}.

Fixpoint update_task (id : task_id) (f : TaskState -> TaskState)
    (ts : list Task) : list Task :=
  match ts, id with
  | [], _ => []
  | t :: ts', 0 =>
      {| task_text := task_text t; task_state := f (task_state t) |} :: ts'
  | t :: ts', S id' => t :: update_task id' f ts'
  end.

(** [task.cancel()]: a request, delivered as [CancelledError] when the
    task next runs; nothing happens to a task that is done. *)
Definition cancel (id : task_id) (ts : list Task) : list Task :=
  update_task id
    (fun st => match st with
               | Scheduled => CancelRequested false
               | Sleeping => CancelRequested true
               | Dispatching _ => Dispatching true
               | _ => st
               end) ts.

Definition set_state (id : task_id) (st : TaskState) (ts : list Task)
  : list Task :=
  update_task id (fun _ => st) ts.

Definition task_cancelled (ts : list Task) (id : task_id) : bool :=
  match nth_error ts id with
  | Some t => cancelled (task_state t)
  | None => false
  end.

(** [asyncio.create_task(_delayed_translation(text, translation_delay))]. *)
Definition create_task (snapshot : text) (ts : list Task)
  : list Task * task_id :=
  (ts ++ [ {| task_text := snapshot; task_state := Scheduled |} ], length ts).

(** A call of [_translate_sentences] from the session: the translators
    and the call counter move on, the call is recorded. *)
Definition call_translate_sentences (w : World) (by_whom : Caller)
    (sentences : list text) (s : Session) : Session * Completion :=
  let d := _translate_sentences w (llm_calls s) (translators s) sentences in
  (with_effect (TranslateSentences by_whom sentences (d_calls d))
     (with_translators (d_translators d) (d_next d) s),
   d_completion d).

(** [if pending_translation_task: pending_translation_task.cancel()]. *)
Definition cancel_pending (s : Session) : Session :=
  match pending_translation_task s with
  | Some p => with_tasks (cancel p (tasks s)) s
  | None => s
  end.

(** The body of the [async for ev in stt_stream] loop for an
    [INTERIM_TRANSCRIPT] event. *)
Definition forward_interim (ev_text : text) (s : Session) : Session :=
  let interim_text := strip ev_text in
  if nonempty interim_text then with_effect (PublishInterim interim_text) s
  else s.

(** [if pending_translation_task: pending_translation_task.cancel();
    pending_translation_task = None]. *)
Definition clear_pending (s : Session) : Session :=
  match pending_translation_task s with
  | Some _ => with_pending None (cancel_pending s)
  | None => s
  end.

(** "SIMPLE ACCUMULATION LOGIC": the final transcript goes after the
    accumulated text. *)
Definition accumulate (final_text : text) (s : Session) : Session :=
  if nonempty (accumulated_text s) then
    with_accumulated_text
      (strip (accumulated_text s) ++ space ++ final_text) s
  else with_accumulated_text final_text s.

(** The [if complete_sentences:] block: the pending task is cancelled,
    the sentences are translated, the remainder becomes the accumulated
    text.  An exception out of [_translate_sentences] would leave the
    block at the call. *)
Definition translate_complete (w : World) (complete_sentences : list text)
    (remaining_text : text) (s : Session) : Session * Completion :=
  if nonempty complete_sentences then
    let s := clear_pending s in
    let '(s, completion) :=
      call_translate_sentences w ForwardTranscription complete_sentences s in
    match completion with
    | Returned => (with_accumulated_text remaining_text s, Returned)
    | Raised => (s, Raised)
    end
  else (s, Returned).

(** "Handle remaining incomplete text": a new delayed translation
    replaces the pending one, or nothing stays pending. *)
Definition schedule_remaining (s : Session) : Session :=
  if nonempty (strip (accumulated_text s)) then
    let s := cancel_pending s in
    let '(ts, id) := create_task (accumulated_text s) (tasks s) in
    with_pending (Some id) (with_tasks ts s)
  else clear_pending s.

(** The body of the loop for a [FINAL_TRANSCRIPT] event. *)
Definition forward_final (w : World) (ev_text : text) (s : Session)
  : Session :=
  let final_text := strip ev_text in
  if nonempty final_text
     && negb (text_eqb final_text (last_final_transcript s)) then
    let s := with_last_final_transcript final_text s in
    let s := with_effect (PublishFinal final_text) s in
    if nonempty (translators s) then
      let s := accumulate final_text s in
      let '(complete_sentences, remaining_text) :=
        _extract_complete_sentences (accumulated_text s) in
      let '(s, completion) :=
        translate_complete w complete_sentences remaining_text s in
      match completion with
      | Returned => schedule_remaining s
      | Raised => s
      end
    else s
  else s.

(** [_delayed_translation(text, delay)] when the event loop runs task
    [id], up to the next point where the coroutine suspends or ends.

    - A new task runs up to the sleep.
    - A sleeping task whose delay is over makes the wake-up check.  If
      the check passes and [text] is not blank it calls
      [_translate_sentences([text])] and suspends in that await, with
      [pending_translation_task] unchanged; if [text] is blank it clears
      [pending_translation_task] and returns; if the check fails it
      returns.
    - A task suspended in the dispatch, when the dispatch has returned,
      clears [pending_translation_task] and returns.
    - A task that was asked to cancel gets [CancelledError]: before its
      first run the task ends cancelled; in the sleep or in the dispatch
      the [except] branch catches it and the task returns, leaving
      [pending_translation_task] as it is.  In the dispatch the
      [gather] and the [translate] calls that have not ended are
      cancelled with the task: [DispatchInterrupted].

    The [TranslateSentences] effect is recorded when the dispatch is
    called; its calls carry the outcome they have when they are left to
    run.  An exception out of [_translate_sentences] would end the task
    before it clears [pending_translation_task]. *)
Definition delayed_translation_resume (w : World) (id : task_id)
    (s : Session) : Session :=
  match nth_error (tasks s) id with
  | None => s
  | Some t =>
      match task_state t with
      | Scheduled => with_tasks (set_state id Sleeping (tasks s)) s
      | Sleeping =>
          if match pending_translation_task s with
             | Some p => negb (task_cancelled (tasks s) p)
             | None => false
             end
          then
            if nonempty (strip (task_text t)) then
              let '(s, completion) :=
                call_translate_sentences w (DelayedTranslation id)
                  [task_text t] s in
              match completion with
              | Returned =>
                  with_tasks (set_state id (Dispatching false) (tasks s)) s
              | Raised => with_tasks (set_state id Finished (tasks s)) s
              end
            else
              with_tasks (set_state id Finished (tasks s))
                (with_pending None s)
          else with_tasks (set_state id Finished (tasks s)) s
      | Dispatching false =>
          with_tasks (set_state id Finished (tasks s)) (with_pending None s)
      | Dispatching true =>
          with_tasks (set_state id Finished (tasks s))
            (with_effect (DispatchInterrupted id) s)
      | CancelRequested true =>
          with_tasks (set_state id Finished (tasks s)) s
      | CancelRequested false =>
          with_tasks (set_state id Cancelled (tasks s)) s
      | Finished | Cancelled => s
      end
  end.

(** What can happen to a session. *)
Inductive Event :=
| InterimTranscript (ev_text : text)
| FinalTranscript (ev_text : text)
| AttributesChangedEvent (changed_attributes : dict text) (openai_ok : bool)
| TaskResumes (id : task_id).

(** One event.  A [TaskResumes] runs a delayed translation from one
    suspension point to the next, so that transcripts and language
    requests are handled while it sleeps and while it awaits its
    dispatch.  The transcript handler of the one transcript stream is
    run to its end in one step.  It suspends in [publish_transcription],
    where it has only written [last_final_transcript], which no other
    code reads, and in [_translate_sentences], which it calls after it
    has cancelled and cleared the pending task: a delayed translation
    that runs during one of these awaits does what it does when it runs
    before the transcript, or after it.  A language request is handled
    without suspension, before or after a transcript. *)
Definition step (toggle : bool) (w : World) (s : Session) (ev : Event)
  : Session :=
  match ev with
  | InterimTranscript t => forward_interim t s
  | FinalTranscript t => forward_final w t s
  | AttributesChangedEvent changed_attributes openai_ok =>
      let '(tr, logs) :=
        on_attributes_changed toggle openai_ok (translators s)
          changed_attributes in
      fold_left (fun s r => with_effect (Log r) s) logs
        (with_translators tr (llm_calls s) s)
  | TaskResumes id => delayed_translation_resume w id s
  end.

Definition run (toggle : bool) (w : World) (s : Session)
    (evs : list Event) : Session :=
  fold_left (step toggle w) evs s.

(* ================================================================== *)
(** * Vocabulary of the properties *)
(* ================================================================== *)

Definition starts_with (P : char -> bool) (s : text) : bool :=
  match s with [] => false | c :: _ => P c end.

Definition ends_with (P : char -> bool) (s : text) : bool :=
  starts_with P (rev s).

(** A text with its whitespace removed: two texts are equal up to
    whitespace when their squeezed forms are equal. *)
Definition squeeze (s : text) : text :=
  filter (fun c => negb (is_whitespace c)) s.

(** Incremental extraction: extract from [a ++ b], carry the remainder,
    extract from the remainder followed by [c]. *)
Definition extract_incrementally (a b c : text) : list text * text :=
  let '(sentences1, remainder1) := _extract_complete_sentences (a ++ b) in
  let '(sentences2, remainder2) :=
    _extract_complete_sentences (remainder1 ++ c) in
  (sentences1 ++ sentences2, remainder2).

(** The parts [re.split] produces: content without terminal marks,
    alternating with runs that start with one. *)
Inductive alternating : list text -> Prop :=
| alt_last : forall c : text,
    existsb is_terminal c = false ->
    alternating [c]
| alt_pair : forall (c run : text) (parts : list text),
    existsb is_terminal c = false ->
    re_match_terminal run = true ->
    alternating parts ->
    alternating (c :: run :: parts).

(** [glue l1 l2]: the two lists of parts with the last part of [l1] and
    the first part of [l2] joined. *)
Fixpoint glue (l1 l2 : list text) : list text :=
  match l1 with
  | [] => l2
  | x :: l1' =>
      match l1' with
      | [] => match l2 with [] => [x] | y :: l2' => (x ++ y) :: l2' end
      | _ :: _ => x :: glue l1' l2
      end
  end.

Definition system_message (self : Translator) : Message :=
  {| role := system; content := system_prompt self |}.

Definition user_message (message : text) : Message :=
  {| role := user; content := message |}.

(** [translate] called on one translator for each message in turn, the
    calls numbered from [n]. *)
Fixpoint translate_each (w : World) (n : nat) (self : Translator)
    (messages : list text) : Translator * list Invocation :=
  match messages with
  | [] => (self, [])
  | message :: messages' =>
      let '(self1, call) := translate w n self message in
      let '(self2, calls) := translate_each w (S n) self1 messages' in
      (self2, call :: calls)
  end.

(** The chunk on which the loop of [translate] stops reading: a delta
    without content. *)
Definition completion_signal (chunk : ChatChunk) : bool :=
  match delta chunk with
  | Some d => match delta_content d with None => true | Some _ => false end
  | None => false
  end.

Fixpoint until_completion (chunks : list ChatChunk) : list ChatChunk :=
  match chunks with
  | [] => []
  | chunk :: chunks' =>
      if completion_signal chunk then [] else chunk :: until_completion chunks'
  end.

(** The content tokens a list of chunks carries. *)
Definition content_tokens (chunks : list ChatChunk) : list text :=
  flat_map (fun chunk =>
              match delta chunk with
              | Some d => match delta_content d with
                          | Some c => [c]
                          | None => []
                          end
              | None => []
              end) chunks.

(** A language-request signal: the changed attributes and whether a
    translator can be constructed when it arrives. *)
Definition Signal := (dict text * bool)%type.

(** The registry after the session has handled some signals. *)
Definition registry_after (toggle : bool) (signals : list Signal)
  : dict Translator :=
  fold_left
    (fun reg (sg : Signal) =>
       fst (on_attributes_changed toggle (snd sg) reg (fst sg)))
    signals (initial_translators toggle).

(** The calls of a dispatch, by language and message. *)
Definition call_targets (calls : list Invocation) : list (text * text) :=
  List.map (fun call => (inv_lang call, inv_message call)) calls.

(** The languages a registry translates into, in dictionary order. *)
Definition registry_langs (translators : dict Translator)
  : list (text * LanguageCode) :=
  List.map (fun kt => (fst kt, lang (snd kt))) translators.

(** The calls one sentence is owed: one per translator. *)
Definition targets_of (translators : dict Translator) (sentence : text)
  : list (text * text) :=
  List.map (fun kt => (value (snd kt), sentence)) (registry_langs translators).

(** Whether [sentence] was handed to the translator of language [l]
    among [calls]. *)
Definition translated_into (l : text) (calls : list Invocation)
    (sentence : text) : Prop :=
  Exists (fun call => inv_lang call = l /\ inv_message call = sentence) calls.

(** Whether task [id] called [_translate_sentences] in a list of
    effects. *)
Definition dispatched_by (id : task_id) (e : Effect) : bool :=
  match e with
  | TranslateSentences (DelayedTranslation id') _ _ => Nat.eqb id id'
  | _ => false
  end.

(** Every key of the registry is a supported language. *)
Definition supported_keys (translators : dict Translator) : Prop :=
  forall k, dict_mem k translators = true -> dict_mem k languages = true.

(** The state of task [id], if there is such a task. *)
Definition state_at (ts : list Task) (id : task_id) : option TaskState :=
  option_map task_state (nth_error ts id).

(** Whether task [id] exists and has still to run its body. *)
Definition waiting_at (ts : list Task) (id : task_id) : bool :=
  match state_at ts id with
  | Some st => waiting st
  | None => false
  end.

(** A task that exists and will not call [_translate_sentences] any
    more: it has called it, it was asked to cancel, or it is done. *)
Definition settled (ts : list Task) (id : task_id) : Prop :=
  state_at ts id <> None /\ waiting_at ts id = false.

(** Whether the task is on its way to clear [pending_translation_task]:
    it waits for its delay or for its dispatch, and nobody asked it to
    cancel. *)
Definition live (st : TaskState) : bool :=
  match st with
  | Scheduled | Sleeping | Dispatching false => true
  | _ => false
  end.

Definition live_at (ts : list Task) (id : task_id) : bool :=
  match state_at ts id with
  | Some st => live st
  | None => false
  end.

(** The one task that is on its way is the pending one. *)
Definition tasks_consistent (s : Session) : Prop :=
  forall id,
    live_at (tasks s) id = true <->
    pending_translation_task s = Some id.

(** A task that has called [_translate_sentences] does not wait for its
    delay any more. *)
Definition dispatchers_done (s : Session) : Prop :=
  forall id,
    existsb (dispatched_by id) (effects s) = true -> settled (tasks s) id.

(** How the session's tasks and effects may move in one block of a
    handler that does not run a delayed translation. *)
Definition evolves (s s' : Session) : Prop :=
  (forall id, existsb (dispatched_by id) (effects s') =
              existsb (dispatched_by id) (effects s)) /\
  (tasks_consistent s -> tasks_consistent s') /\
  (forall id, settled (tasks s) id -> settled (tasks s') id) /\
  (forall id, state_at (tasks s) id <> None ->
              state_at (tasks s') id <> None).

(** Whether a final transcript may be accepted after [x] without [x]
    ceasing to be the last accepted one. *)
Definition not_accepted_after (x : text) (ev : Event) : Prop :=
  match ev with
  | FinalTranscript y => strip y = [] \/ strip y = strip x
  | _ => True
  end.

(** The registry holds the Dutch translator under ["nl"]. *)
Definition dutch_registered (translators : dict Translator) : Prop :=
  In (str "nl", Dutch) (registry_langs translators).

(** A dispatch handed each of its sentences to the Dutch translator. *)
Definition into_dutch (e : Effect) : Prop :=
  match e with
  | TranslateSentences _ sentences calls =>
      Forall (translated_into (str "nl") calls) sentences
  | _ => True
  end.

(** The Dutch translator is registered and every dispatch so far went
    through it. *)
Definition dutch_invariant (s : Session) : Prop :=
  dutch_registered (translators s) /\ Forall into_dutch (effects s).

(** ** Sample inputs *)

(** A stream with an empty delta, two content tokens, the completion
    signal and a token after it. *)
Definition sample_chunks : list ChatChunk :=
  [ {| delta := None |};
    {| delta := Some {| delta_content := Some (str "Hal") |} |};
    {| delta := Some {| delta_content := Some (str "lo") |} |};
    {| delta := Some {| delta_content := None |} |};
    {| delta := Some {| delta_content := Some (str "!") |} |} ].

(** A world whose LLM always answers with [sample_chunks] and whose room
    accepts every transcription. *)
Definition sample_world : World :=
  {| llm_chat := fun _ _ _ => stream_of_chunks sample_chunks;
     publish_transcription := fun _ _ _ => true |}.

(** A world whose LLM stream raises at once. *)
Definition failing_world : World :=
  {| llm_chat := fun _ _ _ => StreamRaise;
     publish_transcription := fun _ _ _ => true |}.

(* ================================================================== *)
(** * Vocabulary of further properties *)
(* ================================================================== *)

(** The parts [re.split] produces, in full: content without terminal
    marks, alternating with non-empty runs made of terminal marks only. *)
Inductive split_parts : list text -> Prop :=
| parts_last : forall c : text,
    existsb is_terminal c = false ->
    split_parts [c]
| parts_pair : forall (c run : text) (parts : list text),
    existsb is_terminal c = false ->
    run <> [] ->
    forallb is_terminal run = true ->
    split_parts parts ->
    split_parts (c :: run :: parts).

(** What a complete sentence looks like: some content without terminal
    marks, then a run of terminal marks, and no whitespace at either
    end. *)
Definition sentence_shape (sentence : text) : Prop :=
  exists content run : text,
    sentence = content ++ run /\
    existsb is_terminal content = false /\
    run <> [] /\
    forallb is_terminal run = true /\
    strip sentence = sentence.

(** The rolling window of a translator: its context is the system prompt
    followed by the user messages [us], as many as its counter says and
    never more than nine. *)
Definition rolling_window (self : Translator) (us : list text) : Prop :=
  context self = system_message self :: List.map user_message us /\
  message_count self = length us /\
  length us <= 9.

(** A request of a rolling translator: the system prompt, then at most
    nine user messages, the last of them the message of the call — or the
    system prompt alone. *)
Definition rolling_request (prompt : Message) (call : Invocation) : Prop :=
  exists us : list text,
    inv_request call = prompt :: List.map user_message us /\
    length us <= 9 /\
    (us = [] \/ exists us', us = us' ++ [inv_message call]).

(** The messages handed to the translator of language [l], in the order
    of the calls. *)
Definition messages_for (l : text) (calls : list Invocation) : list text :=
  List.map inv_message
    (filter (fun call => text_eqb (inv_lang call) l) calls).

(** The language codes a registry translates into, in dictionary
    order. *)
Definition registry_values (translators : dict Translator) : list text :=
  List.map (fun kt => value (snd kt)) (registry_langs translators).

(** A registry entry is sound when its key is the code of its
    translator's language, is a supported language and is not the source
    language. *)
Definition entry_ok (ke : text * LanguageCode) : Prop :=
  value (snd ke) = fst ke /\
  fst ke <> source_language /\
  dict_mem (fst ke) languages = true.

(** A registry is sound when its keys are distinct and its entries
    sound. *)
Definition registry_ok (translators : dict Translator) : Prop :=
  NoDup (dict_keys translators) /\
  Forall entry_ok (registry_langs translators).

(** A registry with a Dutch and a French translator in fresh-context
    mode. *)
Definition sample_registry : dict Translator :=
  [(str "nl", new_translator false Dutch);
   (str "fr", new_translator false French)].


(** The text an accepted final transcript [x] turns the buffer into
    before extraction: the stripped buffer, a space and the stripped
    transcript, or the stripped transcript alone on an empty buffer. *)
Definition joined_text (x : text) (s : Session) : text :=
  if nonempty (accumulated_text s)
  then strip (accumulated_text s) ++ space ++ strip x
  else strip x.

(** Whether a final transcript is accepted: not empty once stripped, and
    not the last accepted one. *)
Definition accepted (x : text) (s : Session) : bool :=
  nonempty (strip x) && negb (text_eqb (strip x) (last_final_transcript s)).

(** The number of times task [id] called [_translate_sentences]. *)
Definition dispatch_count (id : task_id) (s : Session) : nat :=
  length (filter (dispatched_by id) (effects s)).

(** The pending delayed translation, if there is one, was created with
    the text the buffer holds now, and that text is not blank. *)
Definition pending_snapshot (s : Session) : Prop :=
  forall id,
    pending_translation_task s = Some id ->
    exists t,
      nth_error (tasks s) id = Some t /\
      task_text t = accumulated_text s /\
      nonempty (strip (accumulated_text s)) = true.

(** A stream that yields [chunks] and then goes on as [tail]. *)
Fixpoint stream_append (chunks : list ChatChunk) (tail : Stream) : Stream :=
  match chunks with
  | [] => tail
  | chunk :: chunks' => StreamChunk chunk (stream_append chunks' tail)
  end.

(* ================================================================== *)
(** * Vocabulary of isolation and of reconstruction *)
(* ================================================================== *)

(** What call number [m] comes to when it is left to run with [request]
    for language [e]: the answer of the LLM to this call, read to its
    completion, and what the room does when this call publishes it.  No
    other call has a part in it. *)
Definition outcome_of (w : World) (m : nat) (e : LanguageCode)
    (request : list Message) : Outcome :=
  match collect_stream [] (llm_chat w m e request) with
  | None => LLMRaised
  | Some translated_message =>
      if publish_transcription w m (value e) translated_message
      then Published translated_message
      else PublishRaised translated_message
  end.

(** The record of call number [m] ends the way that call alone ends. *)
Definition own_answer (w : World) (m : nat) (call : Invocation) : Prop :=
  exists e,
    value e = inv_lang call /\
    inv_outcome call = outcome_of w m e (inv_request call).

(** A list with the numbers of its elements, counted from [n]. *)
Fixpoint numbered {A : Type} (n : nat) (l : list A) : list (nat * A) :=
  match l with
  | [] => []
  | a :: l' => (n, a) :: numbered (S n) l'
  end.

(** A world whose LLM raises for call number [k] and answers every other
    call with [sample_chunks]. *)
Definition world_failing_at (k : nat) : World :=
  {| llm_chat := fun n _ _ =>
       if Nat.eqb n k then StreamRaise else stream_of_chunks sample_chunks;
     publish_transcription := fun _ _ _ => true |}.

(** A text of whitespace only. *)
Definition blank (g : text) : bool := forallb is_whitespace g.

(** The sentences put back one after the other, each after its gap, and
    then the tail. *)
Fixpoint rejoin (gaps sentences : list text) (tail : text) : text :=
  match gaps, sentences with
  | g :: gaps', sentence :: sentences' =>
      g ++ sentence ++ rejoin gaps' sentences' tail
  | _, _ => tail
  end.

(* ================================================================== *)
(** * Whitespace and stripping *)
(* ================================================================== *)

Unset Implicit Arguments.

(** Splits a goal [evolves s s'] into its four parts. *)
Ltac split_evolves := unfold evolves; split; [|split; [|split]].

Lemma terminal_not_whitespace (c : char) :
  is_terminal c = true -> is_whitespace c = false.
Proof.
  unfold is_terminal, is_whitespace. intros H.
  repeat (apply orb_true_iff in H; destruct H as [H | H]);
    apply N.eqb_eq in H; subst c; reflexivity.
Qed.

Lemma squeeze_app (a b : text) : squeeze (a ++ b) = squeeze a ++ squeeze b.
Proof. apply filter_app. Qed.

Lemma squeeze_rev (s : text) : squeeze (rev s) = rev (squeeze s).
Proof.
  induction s as [|c s IH]; simpl; [reflexivity|].
  rewrite squeeze_app, IH. simpl.
  destruct (is_whitespace c); simpl; [apply app_nil_r | reflexivity].
Qed.

Lemma squeeze_lstrip (s : text) : squeeze (lstrip s) = squeeze s.
Proof.
  induction s as [|c s IH]; simpl; [reflexivity|].
  destruct (is_whitespace c) eqn:E; simpl; [exact IH | now rewrite E].
Qed.

Lemma squeeze_rstrip (s : text) : squeeze (rstrip s) = squeeze s.
Proof.
  unfold rstrip.
  now rewrite squeeze_rev, squeeze_lstrip, squeeze_rev, rev_involutive.
Qed.

Lemma squeeze_strip (s : text) : squeeze (strip s) = squeeze s.
Proof. unfold strip. now rewrite squeeze_rstrip, squeeze_lstrip. Qed.

Lemma squeeze_nil_strip (s : text) : strip s = [] -> squeeze s = [].
Proof. intros H. rewrite <- squeeze_strip, H. reflexivity. Qed.

(** [lstrip] leaves nothing, or a text that starts with a character that
    is not whitespace. *)
Lemma lstrip_head (s : text) : starts_with is_whitespace (lstrip s) = false.
Proof.
  induction s as [|c s IH]; simpl; [reflexivity|].
  destruct (is_whitespace c) eqn:E; [exact IH | simpl; exact E].
Qed.

Lemma lstrip_fixed (s : text) :
  starts_with is_whitespace s = false -> lstrip s = s.
Proof. destruct s as [|c s]; simpl; [reflexivity | now intros ->]. Qed.

Lemma lstrip_idempotent (s : text) : lstrip (lstrip s) = lstrip s.
Proof. apply lstrip_fixed, lstrip_head. Qed.

Lemma rstrip_fixed (s : text) :
  ends_with is_whitespace s = false -> rstrip s = s.
Proof.
  unfold ends_with, rstrip. intros H.
  rewrite (lstrip_fixed _ H). apply rev_involutive.
Qed.

Lemma rstrip_tail (s : text) : ends_with is_whitespace (rstrip s) = false.
Proof.
  unfold ends_with, rstrip. rewrite rev_involutive. apply lstrip_head.
Qed.

Lemma lstrip_app_lstrip (a z : text) :
  lstrip (lstrip a ++ z) = lstrip (a ++ z).
Proof.
  induction a as [|c a IH]; simpl; [reflexivity|].
  destruct (is_whitespace c) eqn:E; [exact IH | simpl; now rewrite E].
Qed.

Lemma strip_app_lstrip (a z : text) :
  strip (lstrip a ++ z) = strip (a ++ z).
Proof. unfold strip. now rewrite lstrip_app_lstrip. Qed.

Lemma lstrip_nil_of_strip_nil (s : text) : strip s = [] -> lstrip s = [].
Proof.
  unfold strip. intros H.
  assert (Hs : squeeze (lstrip s) = []).
  { rewrite <- squeeze_rstrip, H. reflexivity. }
  pose proof (lstrip_head s) as Hh.
  destruct (lstrip s) as [|c r]; [reflexivity|].
  simpl in Hh, Hs. rewrite Hh in Hs. discriminate.
Qed.

Lemma ends_with_lstrip (s : text) :
  ends_with is_whitespace s = false ->
  ends_with is_whitespace (lstrip s) = false.
Proof.
  induction s as [|c s IH]; simpl; [auto|].
  destruct (is_whitespace c) eqn:E; [|auto].
  intros H. apply IH. unfold ends_with in *. simpl in H.
  destruct (rev s) as [|d r]; [reflexivity | exact H].
Qed.

Lemma ends_with_app (P : char -> bool) (a b : text) :
  b <> [] -> ends_with P (a ++ b) = ends_with P b.
Proof.
  unfold ends_with. intros Hb. rewrite rev_app_distr.
  destruct (rev b) as [|d r] eqn:E; [|reflexivity].
  apply (f_equal (@rev char)) in E. rewrite rev_involutive in E.
  contradiction.
Qed.

Lemma ends_with_cons (P : char -> bool) (c : char) (s : text) :
  ends_with P (c :: s) = match s with [] => P c | _ => ends_with P s end.
Proof.
  destruct s as [|d s]; [reflexivity|].
  apply (ends_with_app P [c]). discriminate.
Qed.

(** Stripping a text that neither starts nor ends with whitespace. *)
Lemma strip_idempotent (s : text) : strip (strip s) = strip s.
Proof.
  unfold strip at 1.
  assert (H : lstrip (strip s) = strip s).
  { apply lstrip_fixed. unfold strip, rstrip.
    pose proof (lstrip_head s) as Hh.
    remember (lstrip s) as u eqn:Eu. clear Eu s.
    induction u as [|c u IH]; [reflexivity|].
    simpl in Hh. simpl rev.
    destruct (lstrip (rev u ++ [c])) as [|d r] eqn:E.
    - reflexivity.
    - assert (Hin : exists r', rev (d :: r) = c :: r').
      { rewrite <- E. clear E IH.
        induction (rev u) as [|e v IHv]; simpl.
        - rewrite Hh. simpl. eauto.
        - destruct (is_whitespace e); [exact IHv|].
          simpl. rewrite rev_app_distr. simpl. eauto. }
      destruct Hin as [r' Hr']. rewrite Hr'. simpl. exact Hh. }
  rewrite H. apply rstrip_fixed. unfold strip. apply rstrip_tail.
Qed.

(* ================================================================== *)
(** * The sentence extractor *)
(* ================================================================== *)

Lemma re_split_nonempty (s : text) : re_split s <> [].
Proof.
  destruct s as [|c s]; simpl; [discriminate|].
  destruct (re_split s) as [|c0 rest]; [discriminate|].
  destruct (is_terminal c); [|discriminate].
  destruct c0; [destruct rest|]; discriminate.
Qed.

Lemma re_split_alternating (s : text) : alternating (re_split s).
Proof.
  induction s as [|c s IH]; simpl.
  - now constructor.
  - destruct (re_split s) as [|c0 rest]; [inversion IH|].
    destruct (is_terminal c) eqn:E.
    + destruct c0 as [|d c0].
      * destruct rest as [|run rest'].
        -- apply alt_pair; [reflexivity | simpl; exact E | exact IH].
        -- inversion IH; subst.
           apply alt_pair; [reflexivity | simpl; exact E | assumption].
      * apply alt_pair; [reflexivity | simpl; exact E | exact IH].
    + inversion IH; subst.
      * apply alt_last. simpl. now rewrite E.
      * apply alt_pair; [simpl; now rewrite E | assumption | assumption].
Qed.

Lemma re_split_concat (s : text) : concat (re_split s) = s.
Proof.
  induction s as [|c s IH]; simpl; [reflexivity|].
  pose proof (re_split_nonempty s) as Hne.
  destruct (re_split s) as [|c0 rest]; [now elim Hne|].
  destruct (is_terminal c).
  - destruct c0 as [|d c0]; [destruct rest as [|run rest']|];
      simpl in *; now rewrite IH.
  - simpl in *. now rewrite IH.
Qed.

Lemma re_split_plain (s : text) :
  existsb is_terminal s = false -> re_split s = [s].
Proof.
  induction s as [|c s IH]; simpl; [reflexivity|].
  intros H. apply orb_false_iff in H. destruct H as [Hc Hs].
  now rewrite (IH Hs), Hc.
Qed.

Lemma whitespace_plain (s : text) :
  forallb is_whitespace s = true -> existsb is_terminal s = false.
Proof.
  induction s as [|c s IH]; simpl; [reflexivity|].
  intros H. apply andb_true_iff in H. destruct H as [Hc Hs].
  rewrite (IH Hs), orb_false_r.
  destruct (is_terminal c) eqn:E; [|reflexivity].
  apply terminal_not_whitespace in E. congruence.
Qed.

Lemma lstrip_nil_whitespace (s : text) :
  lstrip s = [] -> forallb is_whitespace s = true.
Proof.
  induction s as [|c s IH]; simpl; [reflexivity|].
  destruct (is_whitespace c); [exact IH | discriminate].
Qed.

(** The early return of [_extract_complete_sentences] is what the loop
    gives on a blank text. *)
Lemma extract_is_loop (t : text) :
  _extract_complete_sentences t = extract_loop (re_split t).
Proof.
  unfold _extract_complete_sentences.
  destruct (strip t) as [|c r] eqn:E; simpl; [|reflexivity].
  pose proof (lstrip_nil_of_strip_nil _ E) as Hl.
  rewrite (re_split_plain _ (whitespace_plain _ (lstrip_nil_whitespace _ Hl))).
  simpl. now rewrite E.
Qed.

(** A sentence the loop builds contains its terminal marks, so the test
    [sentence and not sentence.isspace()] always passes. *)
Lemma squeeze_nonempty_run (p q : text) :
  re_match_terminal q = true -> squeeze (p ++ q) <> [].
Proof.
  destruct q as [|c q]; simpl; [discriminate|]. intros H.
  rewrite squeeze_app. simpl.
  rewrite (terminal_not_whitespace _ H). simpl.
  destruct (squeeze p); discriminate.
Qed.

Lemma isspace_squeeze (s : text) : isspace s = true -> squeeze s = [].
Proof.
  unfold isspace. intros H. apply andb_true_iff in H. destruct H as [_ H].
  induction s as [|c s IH]; simpl in *; [reflexivity|].
  apply andb_true_iff in H. destruct H as [Hc Hs].
  rewrite Hc. simpl. auto.
Qed.

Lemma sentence_kept (p q : text) :
  re_match_terminal q = true ->
  nonempty (strip (p ++ q)) && negb (isspace (strip (p ++ q))) = true.
Proof.
  intros H. pose proof (squeeze_nonempty_run p q H) as Hne.
  rewrite <- squeeze_strip in Hne.
  destruct (strip (p ++ q)) as [|c r] eqn:E; [now elim Hne|].
  simpl. destruct (isspace (c :: r)) eqn:Es; [|reflexivity].
  apply isspace_squeeze in Es. contradiction.
Qed.

Lemma extract_loop_pair (p q : text) (parts : list text) :
  re_match_terminal q = true ->
  extract_loop (p :: q :: parts) =
  (strip (p ++ q) :: fst (extract_loop parts), snd (extract_loop parts)).
Proof.
  intros H. simpl. rewrite H.
  destruct (extract_loop parts) as [ss r].
  now rewrite (sentence_kept p q H).
Qed.

Lemma extract_loop_squeeze (l : list text) :
  alternating l ->
  squeeze (concat (fst (extract_loop l)) ++ snd (extract_loop l)) =
  squeeze (concat l).
Proof.
  induction 1 as [c Hc | c run parts Hc Hrun Halt IH].
  - simpl. now rewrite app_nil_r, squeeze_strip.
  - rewrite (extract_loop_pair c run parts Hrun).
    cbn [fst snd concat]. rewrite <- app_assoc, squeeze_app, IH.
    rewrite squeeze_strip, (app_assoc c run), (squeeze_app (c ++ run)).
    reflexivity.
Qed.

(** The sentences followed by the remainder have the characters of the
    input that are not whitespace, in the same order. *)
Lemma extract_squeeze (t : text) :
  squeeze (concat (fst (_extract_complete_sentences t))
           ++ snd (_extract_complete_sentences t)) = squeeze t.
Proof.
  rewrite extract_is_loop.
  rewrite (extract_loop_squeeze _ (re_split_alternating t)).
  now rewrite re_split_concat.
Qed.

(** The scenarios of the extractor: a sentence and an unfinished tail,
    and a split on the Arabic question mark. *)
Example extract_hello_world :
  _extract_complete_sentences (str "Hello world. How are") =
  ([str "Hello world."], str "How are").
Proof. reflexivity. Qed.

Example extract_arabic_question_mark :
  _extract_complete_sentences
    ([1605; 1585; 1581; 1576; 1575; 1567] ++ str " abc")%N =
  ([[1605; 1585; 1581; 1576; 1575; 1567]%N], str "abc").
Proof. reflexivity. Qed.

(** ** C3 *)

Lemma re_split_head_plain (c : text) (l2 : list text) :
  starts_with is_terminal c = false -> re_split c = [] :: l2 -> l2 = [].
Proof.
  destruct c as [|a c]; simpl.
  - intros _ E. now injection E as <-.
  - intros Ha. rewrite Ha.
    destruct (re_split c) as [|c0 rest]; discriminate.
Qed.

Lemma alternating_nonempty (l : list text) : alternating l -> l <> [].
Proof. destruct 1; discriminate. Qed.

(** Splitting a concatenation, when the cut does not fall inside a run
    of terminal marks. *)
Lemma re_split_app (T c : text) :
  ends_with is_terminal T && starts_with is_terminal c = false ->
  re_split (T ++ c) = glue (re_split T) (re_split c).
Proof.
  induction T as [|a T IH]; intros H.
  - simpl. destruct (re_split c) as [|y l2] eqn:E; [|reflexivity].
    now elim (re_split_nonempty c).
  - assert (HT : ends_with is_terminal T && starts_with is_terminal c = false).
    { rewrite ends_with_cons in H. destruct T; [reflexivity | exact H]. }
    specialize (IH HT). simpl. rewrite IH.
    pose proof (re_split_alternating T) as HA.
    destruct (re_split T) as [|c0 rest] eqn:ET; [inversion HA|].
    destruct (re_split c) as [|y l2] eqn:Ec; [now elim (re_split_nonempty c)|].
    inversion HA as [c0' Hc0 | c0' run parts Hc0 Hrun Hparts]; subst.
    + destruct (is_terminal a) eqn:Ea; [|reflexivity].
      destruct c0 as [|d c0]; [|reflexivity].
      pose proof (re_split_concat T) as HC. rewrite ET in HC.
      simpl in HC. subst T.
      rewrite ends_with_cons, Ea in H. simpl in H.
      destruct y as [|e y]; [|reflexivity].
      rewrite (re_split_head_plain c l2 H Ec). reflexivity.
    + pose proof (alternating_nonempty _ Hparts) as Hne.
      destruct parts as [|p parts']; [now elim Hne|].
      destruct (is_terminal a); [destruct c0|]; reflexivity.
Qed.

Lemma extract_loop_remainder (l : list text) :
  alternating l -> snd (extract_loop l) = strip (last l []).
Proof.
  induction 1 as [c Hc | c run parts Hc Hrun Halt IH]; [reflexivity|].
  rewrite (extract_loop_pair c run parts Hrun). cbn [snd]. rewrite IH.
  pose proof (alternating_nonempty _ Halt) as Hne.
  destruct parts; [now elim Hne | reflexivity].
Qed.

Lemma extract_loop_glue (l1 l2 : list text) :
  alternating l1 ->
  extract_loop (glue l1 l2) =
  (fst (extract_loop l1) ++ fst (extract_loop (glue [last l1 []] l2)),
   snd (extract_loop (glue [last l1 []] l2))).
Proof.
  induction 1 as [c Hc | c run parts Hc Hrun Halt IH].
  - cbn [last extract_loop fst app].
    now destruct (extract_loop (glue [c] l2)).
  - pose proof (alternating_nonempty _ Halt) as Hne.
    destruct parts as [|p parts']; [now elim Hne|].
    change (glue (c :: run :: p :: parts') l2)
      with (c :: run :: glue (p :: parts') l2).
    rewrite !(extract_loop_pair c run _ Hrun), IH. reflexivity.
Qed.

Lemma alternating_last_plain (l : list text) :
  alternating l -> existsb is_terminal (last l []) = false.
Proof.
  induction 1 as [c Hc | c run parts Hc Hrun Halt IH]; [exact Hc|].
  pose proof (alternating_nonempty _ Halt) as Hne.
  destruct parts; [now elim Hne | exact IH].
Qed.

Lemma existsb_lstrip (P : char -> bool) (s : text) :
  existsb P s = false -> existsb P (lstrip s) = false.
Proof.
  induction s as [|c s IH]; simpl; [auto|].
  intros H. apply orb_false_iff in H. destruct H as [Hc Hs].
  destruct (is_whitespace c); [auto | simpl; now rewrite Hc, Hs].
Qed.

Lemma existsb_rev_false (P : char -> bool) (s : text) :
  existsb P s = false -> existsb P (rev s) = false.
Proof.
  induction s as [|c s IH]; simpl; [auto|].
  intros H. apply orb_false_iff in H. destruct H as [Hc Hs].
  rewrite existsb_app, (IH Hs). simpl. now rewrite Hc.
Qed.

Lemma existsb_strip (P : char -> bool) (s : text) :
  existsb P s = false -> existsb P (strip s) = false.
Proof.
  intros H. unfold strip, rstrip.
  now apply existsb_rev_false, existsb_lstrip, existsb_rev_false,
    existsb_lstrip.
Qed.

Lemma ends_with_plain (P : char -> bool) (s : text) :
  existsb P s = false -> ends_with P s = false.
Proof.
  intros H. apply existsb_rev_false in H. unfold ends_with.
  destruct (rev s) as [|c r]; [reflexivity|].
  simpl in *. now apply orb_false_iff in H.
Qed.

(** The remainder is the unfinished tail without its leading whitespace
    exactly when stripping took nothing off its end. *)
Lemma remainder_keeps_end (T : text) :
  ends_with is_whitespace T = false \/
  snd (_extract_complete_sentences T) = [] ->
  strip (last (re_split T) []) = lstrip (last (re_split T) []).
Proof.
  rewrite extract_is_loop,
    (extract_loop_remainder _ (re_split_alternating T)).
  intros [H | H].
  - pose proof (re_split_concat T) as HC.
    rewrite (@app_removelast_last text _ [] (re_split_nonempty T)) in HC.
    rewrite concat_app in HC. cbn [concat] in HC. rewrite app_nil_r in HC.
    destruct (last (re_split T) []) as [|d cn] eqn:E; [reflexivity|].
    rewrite <- HC, ends_with_app in H by discriminate.
    unfold strip. apply rstrip_fixed, ends_with_lstrip, H.
  - now rewrite H, (lstrip_nil_of_strip_nil _ H).
Qed.

Lemma extract_loop_head_strip (cn : text) (l2 : list text) :
  strip cn = lstrip cn ->
  extract_loop (glue [strip cn] l2) = extract_loop (glue [cn] l2).
Proof.
  intros ->. destruct l2 as [|y l2]; simpl.
  - pose proof (strip_app_lstrip cn []) as E.
    rewrite !app_nil_r in E. now rewrite E.
  - destruct l2 as [|q l2].
    + now rewrite strip_app_lstrip.
    + now rewrite <- !app_assoc, !strip_app_lstrip.
Qed.

(** C3 fails as stated.  Whitespace at the end of [a ++ b] is stripped
    from the remainder, so the words on both sides of the cut run
    together; and a cut inside a run of terminal marks makes two sentences
    of one. *)
Lemma restart_counterexample :
  (extract_incrementally (str "Hello") (str " ") (str "world.") =
     ([str "Helloworld."], []) /\
   _extract_complete_sentences (str "Hello" ++ str " " ++ str "world.") =
     ([str "Hello world."], []) /\
   extract_incrementally (str "Hello") (str " ") (str "world.") <>
   _extract_complete_sentences (str "Hello" ++ str " " ++ str "world.")) /\
  (extract_incrementally (str "Hi") (str ".") (str ".") =
     ([str "Hi."; str "."], []) /\
   _extract_complete_sentences (str "Hi" ++ str "." ++ str ".") =
     ([str "Hi.."], []) /\
   extract_incrementally (str "Hi") (str ".") (str ".") <>
   _extract_complete_sentences (str "Hi" ++ str "." ++ str ".")).
Proof.
  split; (split; [reflexivity | split; [reflexivity | discriminate]]).
Qed.

(** C3 (restartable extraction), amended.  For every text cut into
    [a ++ b] and [c], extracting from [a ++ b] and then from the carried
    remainder followed by [c] gives the sentences and the remainder of one
    extraction from the whole text, provided that stripping took no
    whitespace off the end of the remainder ([a ++ b] does not end in
    whitespace, or its remainder is empty) and that the cut is not inside a
    run of terminal marks. *)
Theorem extract_restartable (a b c : text) :
  ends_with is_whitespace (a ++ b) = false \/
  snd (_extract_complete_sentences (a ++ b)) = [] ->
  ends_with is_terminal (a ++ b) = false \/
  starts_with is_terminal c = false ->
  extract_incrementally a b c = _extract_complete_sentences (a ++ b ++ c).
Proof.
  intros Hws Hcut. rewrite app_assoc. unfold extract_incrementally.
  pose proof (remainder_keeps_end _ Hws) as Hend.
  remember (a ++ b) as T eqn:ET. clear ET a b Hws.
  pose proof (re_split_alternating T) as HA.
  rewrite !extract_is_loop.
  assert (Hcut' : ends_with is_terminal T && starts_with is_terminal c = false).
  { destruct Hcut as [-> | ->]; [reflexivity | apply andb_false_r]. }
  rewrite (re_split_app T c Hcut'), (extract_loop_glue _ (re_split c) HA).
  destruct (extract_loop (re_split T)) as [sentences1 remainder1] eqn:E1.
  assert (Hr : remainder1 = strip (last (re_split T) [])).
  { rewrite <- (extract_loop_remainder _ HA), E1. reflexivity. }
  subst remainder1.
  pose proof (existsb_strip _ _ (alternating_last_plain _ HA)) as Hplain.
  rewrite extract_is_loop, re_split_app, (re_split_plain _ Hplain),
    (extract_loop_head_strip _ _ Hend)
    by (rewrite (ends_with_plain _ _ Hplain); reflexivity).
  cbn [fst].
  now destruct (extract_loop (glue [last (re_split T) []] (re_split c))).
Qed.

Lemma extract_restartable_witness :
  extract_incrementally (str "One. Two") (str " and") (str " three. Four") =
  _extract_complete_sentences
    (str "One. Two" ++ str " and" ++ str " three. Four").
Proof.
  apply (extract_restartable (str "One. Two") (str " and")
           (str " three. Four")).
  - left. reflexivity.
  - left. reflexivity.
Defined.

(* ================================================================== *)
(** * The translator *)
(* ================================================================== *)





(** ** C2 *)

(** C2 (rolling-context reset).  In rolling-context mode, for any eleven
    messages sent one after the other to a new translator, the tenth call
    asks the LLM with a context that holds the system prompt alone, and
    the eleventh with the system prompt followed by the eleventh message
    (two entries). *)
Theorem rolling_context_reset (w : World) (n : nat) (l : LanguageCode)
    (first_nine : list text) (tenth eleventh : text) :
  length first_nine = 9 ->
  let self := new_translator true l in
  let calls :=
    snd (translate_each w n self (first_nine ++ [tenth; eleventh])) in
  option_map inv_request (nth_error calls 9) = Some [system_message self] /\
  option_map inv_request (nth_error calls 10) =
    Some [system_message self; user_message eleventh].
Proof.
  intros Hlen.
  do 9 (destruct first_nine as [|? first_nine]; [discriminate Hlen|]).
  destruct first_nine; [|discriminate Hlen].
  split; reflexivity.
Qed.

Lemma rolling_context_reset_witness :
  let self := new_translator true Dutch in
  let calls :=
    snd (translate_each sample_world 0 self
           (repeat (str "a") 9 ++ [str "b"; str "c"])) in
  option_map inv_request (nth_error calls 9) = Some [system_message self] /\
  option_map inv_request (nth_error calls 10) =
    Some [system_message self; user_message (str "c")].
Proof.
  apply (rolling_context_reset sample_world 0 Dutch (repeat (str "a") 9)
           (str "b") (str "c")).
  reflexivity.
Defined.

(** ** C10 *)

Lemma translate_fresh_keeps_self (w : World) (n : nat) (self : Translator)
    (message : text) :
  use_context self = false -> fst (translate w n self message) = self.
Proof. unfold translate. now intros ->. Qed.

(** C10 (fresh-context mode leaves the translator alone).  With the
    [use_context] toggle as the source sets it, after any number of
    [translate] calls a translator is the object its constructor built:
    its context holds the system prompt alone and its message count is
    0. *)
Theorem fresh_context_keeps_state (w : World) (n : nat) (l : LanguageCode)
    (messages : list text) :
  let self := new_translator use_context_default l in
  let self' := fst (translate_each w n self messages) in
  self' = self /\
  context self' = [system_message self] /\
  message_count self' = 0.
Proof.
  cbv zeta.
  assert (H : fst (translate_each w n (new_translator use_context_default l)
                     messages) = new_translator use_context_default l).
  { generalize (new_translator use_context_default l)
      (eq_refl : use_context (new_translator use_context_default l) = false).
    intros self Hself. revert n.
    induction messages as [|m ms IH]; intros n; simpl; [reflexivity|].
    pose proof (translate_fresh_keeps_self w n self m Hself) as E.
    destruct (translate w n self m) as [self1 call]. simpl in E. subst self1.
    specialize (IH (S n)).
    destruct (translate_each w (S n) self ms) as [self2 calls].
    exact IH. }
  rewrite H. repeat split.
Qed.

(* ================================================================== *)
(** * Sentence dispatch *)
(* ================================================================== *)

Lemma translate_lang (w : World) (n : nat) (self : Translator)
    (message : text) :
  lang (fst (translate w n self message)) = lang self.
Proof.
  unfold translate. destruct (use_context self); [|reflexivity].
  destruct (9 <? message_count self + 1); reflexivity.
Qed.

Lemma translate_target (w : World) (n : nat) (self : Translator)
    (message : text) :
  inv_lang (snd (translate w n self message)) = value (lang self) /\
  inv_message (snd (translate w n self message)) = message.
Proof. unfold translate. destruct (use_context self); split; reflexivity. Qed.

Lemma translate_all_calls (w : World) (sentence : text)
    (items : dict Translator) (n : nat) :
  call_targets (snd (fst (translate_all w n items sentence))) =
    targets_of items sentence /\
  registry_langs (fst (fst (translate_all w n items sentence))) =
    registry_langs items.
Proof.
  revert n. induction items as [|[l t] items IH]; intros n; simpl.
  - split; reflexivity.
  - pose proof (translate_lang w n t sentence) as Hl.
    pose proof (translate_target w n t sentence) as [Ht Hm].
    destruct (translate w n t sentence) as [t' call].
    specialize (IH (S n)).
    destruct (translate_all w (S n) items sentence) as [[rest calls] n'].
    simpl in *. destruct IH as [IH1 IH2].
    unfold targets_of in *. simpl.
    split; congruence.
Qed.

Lemma translate_loop_calls (w : World) (sentences : list text)
    (translators : dict Translator) (n : nat) :
  let d := translate_loop w n translators sentences in
  d_completion d = Returned /\
  call_targets (d_calls d) =
    flat_map (targets_of translators)
      (filter (fun sentence => nonempty (strip sentence)) sentences) /\
  registry_langs (d_translators d) = registry_langs translators.
Proof.
  revert translators n.
  induction sentences as [|sentence rest IH]; intros translators n; simpl.
  - repeat split.
  - destruct (nonempty (strip sentence)) eqn:E; [|apply IH].
    pose proof (translate_all_calls w sentence translators n) as [Hc Hr].
    destruct (translate_all w n translators sentence)
      as [[translators' tasks'] n'].
    simpl in Hc, Hr.
    assert (G : (if nonempty tasks' then gather true tasks' else Returned)
                = Returned) by (destruct (nonempty tasks'); reflexivity).
    cbv beta iota delta [gather] in G |- *.
    rewrite G. cbn [d_completion d_calls d_translators].
    destruct (IH translators' n') as [H1 [H2 H3]].
    split; [exact H1|]. split.
    + unfold call_targets in *. rewrite map_app, H2, Hc. simpl.
      f_equal. unfold targets_of. now rewrite Hr.
    + congruence.
Qed.

(** ** C5 *)

(** A call ends the way its own LLM stream and its own publication
    end. *)
Lemma translate_own (w : World) (n : nat) (self : Translator)
    (message : text) :
  own_answer w n (snd (translate w n self message)).
Proof.
  exists (lang self). unfold translate, outcome_of.
  destruct (use_context self); split; reflexivity.
Qed.

Lemma numbered_app {A : Type} (n : nat) (l1 l2 : list A) :
  numbered n (l1 ++ l2) = numbered n l1 ++ numbered (n + length l1) l2.
Proof.
  revert n. induction l1 as [|a l1 IH]; intros n; simpl.
  - now rewrite Nat.add_0_r.
  - rewrite IH. do 3 f_equal. lia.
Qed.

Lemma translate_all_own (w : World) (sentence : text)
    (items : dict Translator) (n : nat) :
  Forall (fun nc => own_answer w (fst nc) (snd nc))
    (numbered n (snd (fst (translate_all w n items sentence)))) /\
  snd (translate_all w n items sentence) =
  n + length (snd (fst (translate_all w n items sentence))).
Proof.
  revert n. induction items as [|[l t] items IH]; intros n; simpl.
  - split; [constructor | lia].
  - pose proof (translate_own w n t sentence) as Ho.
    destruct (translate w n t sentence) as [t' call].
    specialize (IH (S n)).
    destruct (translate_all w (S n) items sentence) as [[rest calls] n'].
    simpl in *. destruct IH as [IH1 IH2].
    split; [now constructor | lia].
Qed.

Lemma translate_loop_own (w : World) (sentences : list text)
    (translators : dict Translator) (n : nat) :
  Forall (fun nc => own_answer w (fst nc) (snd nc))
    (numbered n (d_calls (translate_loop w n translators sentences))).
Proof.
  revert translators n.
  induction sentences as [|sentence rest IH]; intros translators n; simpl.
  - constructor.
  - destruct (nonempty (strip sentence)) eqn:E; [|apply IH].
    pose proof (translate_all_own w sentence translators n) as [Ho Hn].
    destruct (translate_all w n translators sentence)
      as [[translators' tasks'] n'].
    simpl in Ho, Hn.
    assert (G : (if nonempty tasks' then gather true tasks' else Returned)
                = Returned) by (destruct (nonempty tasks'); reflexivity).
    cbv beta iota delta [gather] in G |- *.
    rewrite G. cbn [d_calls].
    rewrite numbered_app. apply Forall_app. split; [exact Ho|].
    rewrite <- Hn. apply IH.
Qed.

(** C5 (failure isolation in sentence dispatch).  For every batch of
    sentences, every registry and every behaviour of the LLM and of the
    room:
    - [_translate_sentences] returns normally;
    - the [translate] calls it makes are one per translator for each
      sentence that is not blank, whichever of them raise;
    - every one of these calls runs to its own end: its outcome is what
      its own LLM stream and its own publication come to (the translation
      published, or the exception of this very call), whatever the other
      calls of the batch did.  A failure of one call changes the outcome
      of no other. *)
Theorem dispatch_isolates_failures (w : World) (n : nat)
    (translators : dict Translator) (sentences : list text) :
  let d := _translate_sentences w n translators sentences in
  d_completion d = Returned /\
  call_targets (d_calls d) =
    flat_map (targets_of translators)
      (filter (fun sentence => nonempty (strip sentence)) sentences) /\
  Forall (fun nc => own_answer w (fst nc) (snd nc)) (numbered n (d_calls d)).
Proof.
  unfold _translate_sentences.
  destruct sentences as [|sentence rest];
    [split; [|split]; try reflexivity; constructor|].
  destruct translators as [|kt translators].
  - cbn [nonempty negb orb d_completion d_calls].
    split; [reflexivity|]. split; [|constructor].
    induction (filter (fun s => nonempty (strip s)) (sentence :: rest));
      [reflexivity | assumption].
  - cbn [nonempty negb orb].
    destruct (translate_loop_calls w (sentence :: rest) (kt :: translators) n)
      as [H1 [H2 _]].
    split; [exact H1|]. split; [exact H2|].
    apply translate_loop_own.
Qed.

(** With a failing LLM every call raises, and the dispatch still makes
    all of them and returns. *)
Example dispatch_with_failing_llm :
  let d := _translate_sentences failing_world 0
             [(str "nl", new_translator false Dutch);
              (str "fr", new_translator false French)]
             [str "A."; str "B."] in
  d_completion d = Returned /\
  List.map (fun call => (inv_lang call, inv_message call, inv_outcome call))
    (d_calls d) =
  [ (str "nl", str "A.", LLMRaised); (str "fr", str "A.", LLMRaised);
    (str "nl", str "B.", LLMRaised); (str "fr", str "B.", LLMRaised) ].
Proof. split; reflexivity. Qed.

(** When the first call alone fails, the three others publish their
    translation. *)
Example dispatch_with_one_failing_call :
  let d := _translate_sentences (world_failing_at 0) 0
             [(str "nl", new_translator false Dutch);
              (str "fr", new_translator false French)]
             [str "A."; str "B."] in
  d_completion d = Returned /\
  List.map (fun call => (inv_lang call, inv_message call, inv_outcome call))
    (d_calls d) =
  [ (str "nl", str "A.", LLMRaised);
    (str "fr", str "A.", Published (str "Hallo"));
    (str "nl", str "B.", Published (str "Hallo"));
    (str "fr", str "B.", Published (str "Hallo")) ].
Proof. split; reflexivity. Qed.

(* ================================================================== *)
(** * The translator registry *)
(* ================================================================== *)

Lemma text_eqb_eq (a b : text) : text_eqb a b = true <-> a = b.
Proof.
  unfold text_eqb. destruct (text_eq_dec a b); split; congruence.
Qed.

Lemma text_eqb_refl (a : text) : text_eqb a a = true.
Proof. now apply text_eqb_eq. Qed.

Lemma dict_get_set {V : Type} (k l : text) (v : V) (d : dict V) :
  dict_get k (dict_set l v d) =
  if text_eqb k l then Some v else dict_get k d.
Proof.
  induction d as [|[k' v'] d IH]; simpl.
  - reflexivity.
  - destruct (text_eqb l k') eqn:E; simpl.
    + apply text_eqb_eq in E. subst k'.
      destruct (text_eqb k l); reflexivity.
    + rewrite IH. destruct (text_eqb k k') eqn:E'; [|reflexivity].
      apply text_eqb_eq in E'. subst k'.
      destruct (text_eqb k l) eqn:E''; [|reflexivity].
      apply text_eqb_eq in E''. subst l. rewrite text_eqb_refl in E.
      discriminate.
Qed.

Lemma on_attributes_changed_supported (toggle openai_ok : bool)
    (translators : dict Translator) (changed_attributes : dict text) :
  supported_keys translators ->
  supported_keys
    (fst (on_attributes_changed toggle openai_ok translators
            changed_attributes)).
Proof.
  intros Hinv. unfold on_attributes_changed.
  destruct (dict_get (str "captions_language") changed_attributes)
    as [l|]; [|exact Hinv].
  destruct (negb (nonempty l)); [exact Hinv|].
  destruct (text_eqb l source_language); [exact Hinv|].
  destruct (dict_mem l translators); [exact Hinv|].
  destruct (dict_get l languages) as [language_obj|] eqn:El;
    [|exact Hinv].
  destruct (LanguageCode_getattr (name language_obj)) as [language_enum|];
    [|exact Hinv].
  destruct (Translator_init toggle openai_ok language_enum); [|exact Hinv].
  cbn [fst]. intros k. unfold dict_mem. rewrite dict_get_set.
  destruct (text_eqb k l) eqn:E.
  - apply text_eqb_eq in E. subst k. now rewrite El.
  - apply Hinv.
Qed.

Lemma registry_after_supported (toggle : bool) (signals : list Signal) :
  supported_keys (registry_after toggle signals).
Proof.
  unfold registry_after.
  assert (H0 : supported_keys (initial_translators toggle)).
  { intros k. unfold dict_mem at 1.
    unfold initial_translators, Translator_init. cbn [dict_set dict_get].
    destruct (text_eqb k (str "nl")) eqn:E; [|discriminate].
    intros _. apply text_eqb_eq in E. now subst k. }
  revert H0. generalize (initial_translators toggle).
  induction signals as [|sg signals IH]; intros reg H; simpl; [exact H|].
  apply IH, on_attributes_changed_supported, H.
Qed.

(** ** C8 *)

(** C8 fails as stated for the empty code: an empty [captions_language]
    is not in the table of languages, and the handler takes it for "no
    change" and logs that at debug level, not the unsupported
    language. *)
Lemma unsupported_counterexample :
  let changed := [(str "captions_language", [])] in
  let reg := registry_after false [] in
  dict_mem [] languages = false /\
  on_attributes_changed false true reg changed =
    (reg, [(INFO, AttributesChanged changed);
           (DEBUG, NoCaptionLanguageChange)]) /\
  ~ In (WARNING, UnsupportedLanguage [])
       (snd (on_attributes_changed false true reg changed)).
Proof.
  cbv zeta. split; [reflexivity|]. split; [reflexivity|].
  cbn. intros [H | [H | []]]; discriminate H.
Qed.

(* ================================================================== *)
(** * The session: tasks *)
(* ================================================================== *)

Lemma state_at_update (id : task_id) (f : TaskState -> TaskState)
    (ts : list Task) (id' : task_id) :
  state_at (update_task id f ts) id' =
  if Nat.eqb id id' then option_map f (state_at ts id') else state_at ts id'.
Proof.
  unfold state_at. revert id id'.
  induction ts as [|t ts IH]; intros [|id] [|id']; simpl; try reflexivity.
  - now destruct (Nat.eqb id id').
  - apply IH.
Qed.

Lemma state_at_app (ts : list Task) (t : Task) (id : task_id) :
  state_at (ts ++ [t]) id =
  if Nat.eqb id (length ts) then Some (task_state t) else state_at ts id.
Proof.
  unfold state_at. revert id.
  induction ts as [|t0 ts IH]; intros [|id]; simpl; try reflexivity.
  - now destruct id.
  - apply IH.
Qed.

Lemma state_at_length (ts : list Task) (id : task_id) :
  state_at ts id <> None <-> id < length ts.
Proof.
  unfold state_at. rewrite <- nth_error_Some.
  destruct (nth_error ts id); simpl; split; congruence.
Qed.

Lemma state_at_nth (ts : list Task) (id : task_id) (t : Task) :
  nth_error ts id = Some t -> state_at ts id = Some (task_state t).
Proof. unfold state_at. now intros ->. Qed.

Lemma waiting_at_update (id : task_id) (f : TaskState -> TaskState)
    (ts : list Task) (id' : task_id) :
  waiting_at (update_task id f ts) id' =
  if Nat.eqb id id'
  then match state_at ts id' with
       | Some st => waiting (f st)
       | None => false
       end
  else waiting_at ts id'.
Proof.
  unfold waiting_at. rewrite state_at_update.
  destruct (Nat.eqb id id'); [|reflexivity].
  now destruct (state_at ts id').
Qed.

Lemma waiting_at_app (ts : list Task) (t : Task) (id : task_id) :
  waiting_at (ts ++ [t]) id =
  if Nat.eqb id (length ts) then waiting (task_state t) else waiting_at ts id.
Proof.
  unfold waiting_at. rewrite state_at_app.
  now destruct (Nat.eqb id (length ts)).
Qed.

(** After [cancel] the task has no body left to run. *)
Lemma waiting_at_cancel (p : task_id) (ts : list Task) (id : task_id) :
  waiting_at (cancel p ts) id =
  if Nat.eqb p id then false else waiting_at ts id.
Proof.
  unfold cancel. rewrite waiting_at_update.
  destruct (Nat.eqb p id); [|reflexivity].
  destruct (state_at ts id) as [[| |c|b| |]|]; reflexivity.
Qed.

Lemma waiting_live (st : TaskState) : waiting st = true -> live st = true.
Proof. now destruct st. Qed.

Lemma waiting_live_at (ts : list Task) (id : task_id) :
  waiting_at ts id = true -> live_at ts id = true.
Proof.
  unfold waiting_at, live_at.
  destruct (state_at ts id); [apply waiting_live | discriminate].
Qed.

Lemma live_at_nth (ts : list Task) (id : task_id) (t : Task) :
  nth_error ts id = Some t -> live_at ts id = live (task_state t).
Proof. unfold live_at. intros H. now rewrite (state_at_nth _ _ _ H). Qed.

Lemma live_at_update (id : task_id) (f : TaskState -> TaskState)
    (ts : list Task) (id' : task_id) :
  live_at (update_task id f ts) id' =
  if Nat.eqb id id'
  then match state_at ts id' with
       | Some st => live (f st)
       | None => false
       end
  else live_at ts id'.
Proof.
  unfold live_at. rewrite state_at_update.
  destruct (Nat.eqb id id'); [|reflexivity].
  now destruct (state_at ts id').
Qed.

Lemma live_at_app (ts : list Task) (t : Task) (id : task_id) :
  live_at (ts ++ [t]) id =
  if Nat.eqb id (length ts) then live (task_state t) else live_at ts id.
Proof.
  unfold live_at. rewrite state_at_app.
  now destruct (Nat.eqb id (length ts)).
Qed.

(** After [cancel] the task is not on its way any more. *)
Lemma live_at_cancel (p : task_id) (ts : list Task) (id : task_id) :
  live_at (cancel p ts) id =
  if Nat.eqb p id then false else live_at ts id.
Proof.
  unfold cancel. rewrite live_at_update.
  destruct (Nat.eqb p id); [|reflexivity].
  destruct (state_at ts id) as [[| |c|b| |]|]; reflexivity.
Qed.

Lemma live_at_set_other (id : task_id) (st : TaskState) (ts : list Task)
    (id' : task_id) :
  id <> id' -> live_at (set_state id st ts) id' = live_at ts id'.
Proof.
  intros H. unfold set_state. rewrite live_at_update.
  apply Nat.eqb_neq in H. now rewrite H.
Qed.

(** Setting the state of a task changes nobody's being on its way when
    the task's own stays. *)
Lemma live_at_set_same (id : task_id) (st : TaskState) (ts : list Task)
    (t : Task) (id' : task_id) :
  nth_error ts id = Some t -> live st = live (task_state t) ->
  live_at (set_state id st ts) id' = live_at ts id'.
Proof.
  intros En Hst. unfold set_state. rewrite live_at_update.
  destruct (Nat.eqb id id') eqn:E; [|reflexivity].
  apply Nat.eqb_eq in E. subst id'.
  unfold live_at. rewrite (state_at_nth _ _ _ En). exact Hst.
Qed.

(** Setting the state of a task that is not waiting to a state that is
    not waiting changes nobody's waiting. *)
Lemma waiting_at_set_done (id : task_id) (st : TaskState) (ts : list Task)
    (id' : task_id) :
  waiting_at ts id = false -> waiting st = false ->
  waiting_at (set_state id st ts) id' = waiting_at ts id'.
Proof.
  intros Hw Hst. unfold set_state. rewrite waiting_at_update.
  destruct (Nat.eqb id id') eqn:E; [|reflexivity].
  apply Nat.eqb_eq in E. subst id'. rewrite Hw.
  destruct (state_at ts id); [exact Hst | reflexivity].
Qed.

Lemma waiting_at_set_other (id : task_id) (st : TaskState) (ts : list Task)
    (id' : task_id) :
  id <> id' -> waiting_at (set_state id st ts) id' = waiting_at ts id'.
Proof.
  intros H. unfold set_state. rewrite waiting_at_update.
  apply Nat.eqb_neq in H. now rewrite H.
Qed.

Lemma exists_update (id : task_id) (f : TaskState -> TaskState)
    (ts : list Task) (id' : task_id) :
  state_at ts id' <> None -> state_at (update_task id f ts) id' <> None.
Proof.
  rewrite state_at_update.
  destruct (Nat.eqb id id'), (state_at ts id'); simpl; congruence.
Qed.

Lemma exists_app (ts : list Task) (t : Task) (id : task_id) :
  state_at ts id <> None -> state_at (ts ++ [t]) id <> None.
Proof.
  rewrite state_at_app. destruct (Nat.eqb id (length ts)); congruence.
Qed.

Lemma settled_update (id : task_id) (f : TaskState -> TaskState)
    (ts : list Task) (id' : task_id) :
  (forall st, waiting st = false -> waiting (f st) = false) ->
  settled ts id' -> settled (update_task id f ts) id'.
Proof.
  intros Hf [Hex Hw]. split; [now apply exists_update|].
  rewrite waiting_at_update. destruct (Nat.eqb id id'); [|exact Hw].
  unfold waiting_at in Hw.
  destruct (state_at ts id'); [now apply Hf | reflexivity].
Qed.

Lemma settled_cancel (p : task_id) (ts : list Task) (id : task_id) :
  settled ts id -> settled (cancel p ts) id.
Proof. apply settled_update. intros []; simpl; congruence. Qed.

Lemma settled_set_done (p : task_id) (st : TaskState) (ts : list Task)
    (id : task_id) :
  waiting st = false -> settled ts id -> settled (set_state p st ts) id.
Proof. intros H. apply settled_update. auto. Qed.

Lemma settled_set_other (p : task_id) (st : TaskState) (ts : list Task)
    (id : task_id) :
  p <> id -> settled ts id -> settled (set_state p st ts) id.
Proof.
  intros Hne [Hex Hw]. split; [now apply exists_update|].
  now rewrite waiting_at_set_other.
Qed.

Lemma settled_set_self (id : task_id) (st : TaskState) (ts : list Task) :
  waiting st = false -> state_at ts id <> None ->
  settled (set_state id st ts) id.
Proof.
  intros Hst Hex. split; [now apply exists_update|].
  unfold set_state. rewrite waiting_at_update, Nat.eqb_refl.
  destruct (state_at ts id); [exact Hst | reflexivity].
Qed.

Lemma settled_app (ts : list Task) (t : Task) (id : task_id) :
  settled ts id -> settled (ts ++ [t]) id.
Proof.
  intros [Hex Hw]. split; [now apply exists_app|].
  rewrite waiting_at_app.
  apply state_at_length in Hex.
  destruct (Nat.eqb id (length ts)) eqn:E; [|exact Hw].
  apply Nat.eqb_eq in E. lia.
Qed.

Lemma evolves_refl (s : Session) : evolves s s.
Proof. split_evolves; auto. Qed.

Lemma evolves_trans (s1 s2 s3 : Session) :
  evolves s1 s2 -> evolves s2 s3 -> evolves s1 s3.
Proof.
  intros [A1 [B1 [C1 D1]]] [A2 [B2 [C2 D2]]].
  split_evolves; intros; auto.
  now rewrite A2, A1.
Qed.

(** A block that leaves the tasks and the pending task alone and adds no
    dispatch by a delayed translation. *)
Lemma evolves_frame (s s' : Session) :
  tasks s' = tasks s ->
  pending_translation_task s' = pending_translation_task s ->
  (forall id, existsb (dispatched_by id) (effects s') =
              existsb (dispatched_by id) (effects s)) ->
  evolves s s'.
Proof.
  intros Ht Hp He. unfold evolves, tasks_consistent.
  rewrite Ht, Hp. auto.
Qed.

Lemma evolves_cancel_pending (s : Session) :
  (tasks_consistent s ->
   forall id, live_at (tasks (cancel_pending s)) id = false) /\
  (forall id, settled (tasks s) id -> settled (tasks (cancel_pending s)) id) /\
  (forall id, state_at (tasks s) id <> None ->
              state_at (tasks (cancel_pending s)) id <> None) /\
  length (tasks (cancel_pending s)) = length (tasks s).
Proof.
  unfold cancel_pending.
  destruct (pending_translation_task s) as [p|] eqn:Ep; cbn [tasks with_tasks].
  - split; [|split; [|split]].
    + intros Hc id. rewrite live_at_cancel.
      destruct (Nat.eqb p id) eqn:E; [reflexivity|].
      apply Nat.eqb_neq in E.
      destruct (live_at (tasks s) id) eqn:Ew; [|reflexivity].
      apply Hc in Ew. congruence.
    + intros id. apply settled_cancel.
    + intros id. apply exists_update.
    + unfold cancel. generalize (tasks s) p.
      induction l as [|t ts IH]; intros [|q]; simpl; auto.
  - split; [|split; [|split]]; auto.
    intros Hc id.
    destruct (live_at (tasks s) id) eqn:Ew; [|reflexivity].
    apply Hc in Ew. congruence.
Qed.

Lemma evolves_clear_pending (s : Session) : evolves s (clear_pending s).
Proof.
  destruct (evolves_cancel_pending s) as [A [B [C _]]].
  unfold clear_pending.
  destruct (pending_translation_task s) as [p|] eqn:Ep;
    [|apply evolves_refl].
  assert (E : effects (cancel_pending s) = effects s)
    by (unfold cancel_pending; now rewrite Ep).
  split_evolves; cbn; auto.
  - intros id. now rewrite E.
  - intros Hc id. rewrite (A Hc). split; discriminate.
Qed.

Lemma evolves_schedule_remaining (s : Session) :
  evolves s (schedule_remaining s).
Proof.
  unfold schedule_remaining.
  destruct (nonempty (strip (accumulated_text s)));
    [|apply evolves_clear_pending].
  destruct (evolves_cancel_pending s) as [A [B [C L]]].
  unfold create_task.
  assert (E : effects (cancel_pending s) = effects s)
    by (unfold cancel_pending; now destruct (pending_translation_task s)).
  split_evolves; [intros id | intros Hc id | intros id Hs | intros id Hs];
    cbn [with_pending with_tasks tasks effects pending_translation_task].
  - now rewrite E.
  - rewrite live_at_app, (A Hc). cbn [task_state live].
    destruct (Nat.eqb id (length (tasks (cancel_pending s)))) eqn:En.
    + apply Nat.eqb_eq in En. subst id. split; reflexivity.
    + apply Nat.eqb_neq in En. split; [discriminate|].
      intros Hp. injection Hp as Hp. congruence.
  - now apply settled_app, B.
  - now apply exists_app, C.
Qed.

Lemma translate_sentences_returns (w : World) (n : nat)
    (translators : dict Translator) (sentences : list text) :
  d_completion (_translate_sentences w n translators sentences) = Returned.
Proof.
  unfold _translate_sentences.
  destruct (negb (nonempty sentences) || negb (nonempty translators));
    [reflexivity|].
  apply (translate_loop_calls w sentences translators n).
Qed.

Lemma existsb_snoc {A : Type} (f : A -> bool) (l : list A) (a : A) :
  existsb f (l ++ [a]) = existsb f l || f a.
Proof. rewrite existsb_app. simpl. now rewrite orb_false_r. Qed.

Lemma evolves_with_effect (e : Effect) (s : Session) :
  (forall id, dispatched_by id e = false) -> evolves s (with_effect e s).
Proof.
  intros He. apply evolves_frame; try reflexivity.
  intros id. cbn [effects with_effect].
  now rewrite existsb_snoc, He, orb_false_r.
Qed.

Lemma evolves_call_forward (w : World) (sentences : list text)
    (s : Session) :
  evolves s
    (fst (call_translate_sentences w ForwardTranscription sentences s)).
Proof.
  unfold call_translate_sentences. cbn [fst].
  apply evolves_frame; try reflexivity.
  intros id. cbn [effects with_effect with_translators].
  now rewrite existsb_snoc, orb_false_r.
Qed.

Lemma evolves_translate_complete (w : World) (complete : list text)
    (remaining : text) (s : Session) :
  evolves s (fst (translate_complete w complete remaining s)).
Proof.
  unfold translate_complete.
  destruct (nonempty complete); [|apply evolves_refl].
  pose proof (evolves_call_forward w complete (clear_pending s)) as H.
  destruct (call_translate_sentences w ForwardTranscription complete
              (clear_pending s)) as [s1 completion].
  cbn [fst] in H.
  apply (evolves_trans _ _ _ (evolves_clear_pending s)).
  apply (evolves_trans _ _ _ H).
  destruct completion; cbn [fst]; [|apply evolves_refl].
  now apply evolves_frame.
Qed.

Lemma evolves_forward_final (w : World) (ev_text : text) (s : Session) :
  evolves s (forward_final w ev_text s).
Proof.
  unfold forward_final.
  destruct (nonempty (strip ev_text)
            && negb (text_eqb (strip ev_text) (last_final_transcript s)));
    [|apply evolves_refl].
  set (s1 := with_effect (PublishFinal (strip ev_text))
               (with_last_final_transcript (strip ev_text) s)).
  assert (H1 : evolves s s1).
  { apply (evolves_trans _ (with_last_final_transcript (strip ev_text) s)).
    - now apply evolves_frame.
    - now apply evolves_with_effect. }
  destruct (nonempty (translators s1)); [|exact H1].
  set (s2 := accumulate (strip ev_text) s1).
  assert (H2 : evolves s1 s2).
  { unfold s2, accumulate.
    destruct (nonempty (accumulated_text s1)); now apply evolves_frame. }
  destruct (_extract_complete_sentences (accumulated_text s2))
    as [complete remaining].
  pose proof (evolves_translate_complete w complete remaining s2) as H3.
  destruct (translate_complete w complete remaining s2) as [s3 completion].
  cbn [fst] in H3.
  apply (evolves_trans _ _ _ H1), (evolves_trans _ _ _ H2).
  destruct completion; [|exact H3].
  apply (evolves_trans _ _ _ H3), evolves_schedule_remaining.
Qed.

(** The handlers that log: every field but [effects] stays. *)
Lemma fold_log_effects (logs : list LogRecord) (s : Session) :
  let s' := fold_left (fun s r => with_effect (Log r) s) logs s in
  translators s' = translators s /\
  accumulated_text s' = accumulated_text s /\
  last_final_transcript s' = last_final_transcript s /\
  pending_translation_task s' = pending_translation_task s /\
  tasks s' = tasks s /\
  llm_calls s' = llm_calls s /\
  effects s' = effects s ++ List.map Log logs.
Proof.
  revert s. induction logs as [|r logs IH]; intros s; simpl.
  - rewrite app_nil_r. repeat split.
  - destruct (IH (with_effect (Log r) s)) as [A [B [C [D [E [F G]]]]]].
    rewrite A, B, C, D, E, F, G. cbn. rewrite <- app_assoc.
    repeat split.
Qed.

Lemma evolves_attributes (toggle : bool) (w : World) (s : Session)
    (changed : dict text) (openai_ok : bool) :
  evolves s (step toggle w s (AttributesChangedEvent changed openai_ok)).
Proof.
  cbn [step].
  destruct (on_attributes_changed toggle openai_ok (translators s) changed)
    as [tr logs].
  destruct (fold_log_effects logs (with_translators tr (llm_calls s) s))
    as [_ [_ [_ [D [E [_ G]]]]]].
  apply evolves_frame; [exact E | exact D |].
  intros id. rewrite G. cbn [effects with_translators].
  rewrite existsb_app.
  assert (H : existsb (dispatched_by id) (List.map Log logs) = false)
    by (clear; induction logs; simpl; auto).
  now rewrite H, orb_false_r.
Qed.

Lemma evolves_forward_interim (ev_text : text) (s : Session) :
  evolves s (forward_interim ev_text s).
Proof.
  unfold forward_interim.
  destruct (nonempty (strip ev_text)); [|apply evolves_refl].
  now apply evolves_with_effect.
Qed.

(* ================================================================== *)
(** * The session: the delayed translation *)
(* ================================================================== *)

Lemma waiting_at_nth (ts : list Task) (id : task_id) (t : Task) :
  nth_error ts id = Some t -> waiting_at ts id = waiting (task_state t).
Proof. unfold waiting_at. intros H. now rewrite (state_at_nth _ _ _ H). Qed.

(** Once a task is settled, no run of a task makes it call
    [_translate_sentences]: its own run finds it cancelled or done, and
    another task's dispatch is not its own. *)
Lemma resume_settled (w : World) (id : task_id) (s : Session)
    (id' : task_id) :
  settled (tasks s) id' ->
  settled (tasks (delayed_translation_resume w id s)) id' /\
  existsb (dispatched_by id') (effects (delayed_translation_resume w id s)) =
  existsb (dispatched_by id') (effects s).
Proof.
  intros Hs. unfold delayed_translation_resume.
  destruct (nth_error (tasks s) id) as [t|] eqn:En; [|auto].
  pose proof (waiting_at_nth _ _ _ En) as Hw.
  assert (Hne : waiting (task_state t) = true -> id <> id').
  { intros H ->. destruct Hs as [_ Hs]. congruence. }
  destruct (task_state t) as [| |[|]|[|]| |] eqn:Est; auto;
    cbn [tasks effects with_tasks]; try (split; [|reflexivity]).
  - apply settled_set_other; auto.
  - destruct (match pending_translation_task s with
              | Some p => negb (task_cancelled (tasks s) p)
              | None => false
              end).
    + destruct (nonempty (strip (task_text t))).
      * unfold call_translate_sentences.
        rewrite translate_sentences_returns.
        cbn [tasks effects with_tasks with_pending with_effect
               with_translators].
        split; [now apply settled_set_done|].
        rewrite existsb_snoc. cbn [dispatched_by].
        assert (E : Nat.eqb id' id = false)
          by (apply Nat.eqb_neq; intros ->; now apply Hne).
        now rewrite E, orb_false_r.
      * cbn [tasks effects with_tasks with_pending].
        split; [now apply settled_set_done | reflexivity].
    + cbn [tasks effects with_tasks].
      split; [now apply settled_set_done | reflexivity].
  - cbn [tasks effects with_tasks with_effect].
    split; [now apply settled_set_done|].
    rewrite existsb_snoc. cbn [dispatched_by]. apply orb_false_r.
  - now apply settled_set_done.
  - now apply settled_set_done.
  - now apply settled_set_done.
Qed.

(** Taking a task that is on its way off, together with the pending
    task. *)
Lemma consistent_finish (id : task_id) (s s1 : Session) :
  tasks_consistent s ->
  tasks s1 = tasks s ->
  pending_translation_task s1 = None ->
  live_at (tasks s) id = true ->
  tasks_consistent (with_tasks (set_state id Finished (tasks s1)) s1).
Proof.
  intros Hc E Ep Hl id'. cbn [tasks with_tasks pending_translation_task].
  rewrite E, Ep.
  split; [|discriminate]. intros H.
  destruct (Nat.eq_dec id id') as [<- | Hne].
  - unfold set_state in H.
    rewrite live_at_update, Nat.eqb_refl in H.
    destruct (state_at (tasks s) id); discriminate.
  - rewrite (live_at_set_other _ _ _ _ Hne) in H.
    apply Hc in H. apply Hc in Hl. congruence.
Qed.

Lemma resume_invariant (w : World) (id : task_id) (s : Session) :
  tasks_consistent s -> dispatchers_done s ->
  tasks_consistent (delayed_translation_resume w id s) /\
  dispatchers_done (delayed_translation_resume w id s).
Proof.
  intros Hc Hd. unfold delayed_translation_resume.
  destruct (nth_error (tasks s) id) as [t|] eqn:En; [|auto].
  pose proof (waiting_at_nth _ _ _ En) as Hw.
  pose proof (live_at_nth _ _ _ En) as Hl.
  assert (Hex : state_at (tasks s) id <> None)
    by (rewrite (state_at_nth _ _ _ En); discriminate).
  assert (Hdd : forall st (s1 : Session),
             tasks s1 = tasks s -> effects s1 = effects s ->
             waiting st = false \/ waiting (task_state t) = true ->
             dispatchers_done (with_tasks (set_state id st (tasks s1)) s1)).
  { intros st s1 E1 E2 Hst id' H. cbn [tasks effects with_tasks] in *.
    rewrite E2 in H. rewrite E1. apply Hd in H.
    destruct Hst as [Hst | Hst]; [now apply settled_set_done|].
    apply settled_set_other; [|exact H].
    intros ->. destruct H as [_ H]. congruence. }
  assert (Hsame : forall st,
             live st = live (task_state t) ->
             tasks_consistent (with_tasks (set_state id st (tasks s)) s)).
  { intros st H id'. cbn [tasks with_tasks pending_translation_task].
    rewrite (live_at_set_same _ _ _ _ id' En H). apply Hc. }
  destruct (task_state t) as [| |[|]|[|]| |] eqn:Est;
    cbn [waiting] in Hw; cbn [live] in Hl; [| | | | | |auto|auto].
  - (* a new task reaches its sleep *)
    split; [now apply Hsame | apply Hdd; auto].
  - (* the delay is over *)
    pose proof (proj1 (Hc id) Hl) as Hp. rewrite Hp.
    unfold task_cancelled. rewrite En, Est. cbn [cancelled negb].
    destruct (nonempty (strip (task_text t))).
    + unfold call_translate_sentences.
      rewrite translate_sentences_returns.
      cbn [tasks with_tasks with_effect with_translators].
      split.
      * intros id'. cbn [tasks with_tasks pending_translation_task
                           with_effect with_translators].
        rewrite (live_at_set_same _ (Dispatching false) _ _ id' En);
          [apply Hc | now rewrite Est].
      * intros id'.
        cbn [tasks effects with_tasks with_effect with_translators].
        rewrite existsb_snoc. cbn [dispatched_by]. intros H.
        apply orb_true_iff in H. destruct H as [H | H].
        -- now apply settled_set_done, Hd.
        -- apply Nat.eqb_eq in H. subst id'. now apply settled_set_self.
    + split; [now apply (consistent_finish id s (with_pending None s))
          | apply (Hdd Finished (with_pending None s)); auto].
  - (* cancelled in its dispatch *)
    split.
    + intros id'. cbn [tasks with_tasks pending_translation_task
                         with_effect].
      rewrite (live_at_set_same _ Finished _ _ id' En);
        [apply Hc | now rewrite Est].
    + intros id'. cbn [tasks effects with_tasks with_effect].
      rewrite existsb_snoc. cbn [dispatched_by]. rewrite orb_false_r.
      intros H. now apply settled_set_done, Hd.
  - (* the dispatch has returned *)
    split; [now apply (consistent_finish id s (with_pending None s))
          | apply (Hdd Finished (with_pending None s)); auto].
  - split; [now apply Hsame | apply Hdd; auto].
  - split; [now apply Hsame | apply Hdd; auto].
Qed.

(** ** The session invariant *)

Lemma evolves_dispatchers_done (s s' : Session) :
  evolves s s' -> dispatchers_done s -> dispatchers_done s'.
Proof.
  intros [A [_ [C _]]] Hd id H. rewrite A in H. auto.
Qed.

Lemma step_evolves (toggle : bool) (w : World) (s : Session) (ev : Event) :
  (forall id, ev <> TaskResumes id) -> evolves s (step toggle w s ev).
Proof.
  destruct ev as [t | t | changed ok | id]; intros H.
  - apply evolves_forward_interim.
  - apply evolves_forward_final.
  - apply evolves_attributes.
  - now elim (H id).
Qed.

Lemma step_invariant (toggle : bool) (w : World) (s : Session) (ev : Event) :
  tasks_consistent s /\ dispatchers_done s ->
  tasks_consistent (step toggle w s ev) /\
  dispatchers_done (step toggle w s ev).
Proof.
  intros [Hc Hd].
  destruct ev as [t | t | changed ok | id];
    try (match goal with
         | |- context [step _ _ _ ?ev] =>
             assert (He : evolves s (step toggle w s ev))
               by (apply step_evolves; discriminate)
         end;
         split; [now apply He | now apply (evolves_dispatchers_done s)]).
  now apply resume_invariant.
Qed.

Lemma run_invariant (toggle : bool) (w : World) (evs : list Event)
    (s : Session) :
  tasks_consistent s /\ dispatchers_done s ->
  tasks_consistent (run toggle w s evs) /\
  dispatchers_done (run toggle w s evs).
Proof.
  revert s. induction evs as [|ev evs IH]; intros s H; [exact H|].
  apply IH, step_invariant, H.
Qed.

Lemma entrypoint_invariant (toggle : bool) :
  tasks_consistent (entrypoint toggle) /\
  dispatchers_done (entrypoint toggle).
Proof.
  split.
  - intros id. cbn. unfold live_at, state_at.
    destruct id; cbn; split; discriminate.
  - intros id. cbn. discriminate.
Qed.

Lemma step_settled (toggle : bool) (w : World) (s : Session) (ev : Event)
    (id : task_id) :
  settled (tasks s) id ->
  settled (tasks (step toggle w s ev)) id /\
  existsb (dispatched_by id) (effects (step toggle w s ev)) =
  existsb (dispatched_by id) (effects s).
Proof.
  intros Hs.
  destruct ev as [t | t | changed ok | id'];
    try (match goal with
         | |- context [step _ _ _ ?ev] =>
             assert (He : evolves s (step toggle w s ev))
               by (apply step_evolves; discriminate)
         end;
         destruct He as [A [_ [C _]]]; split; [now apply C | apply A]).
  now apply resume_settled.
Qed.

Lemma run_settled (toggle : bool) (w : World) (evs : list Event)
    (s : Session) (id : task_id) :
  settled (tasks s) id ->
  existsb (dispatched_by id) (effects (run toggle w s evs)) =
  existsb (dispatched_by id) (effects s).
Proof.
  revert s. induction evs as [|ev evs IH]; intros s Hs; [reflexivity|].
  destruct (step_settled toggle w s ev id Hs) as [H1 H2].
  rewrite <- H2. exact (IH _ H1).
Qed.

(** ** C1 *)

(** C1 (a superseded delayed translation never dispatches).  In every
    run of the session, take a delayed translation that is pending and
    whose delay has not elapsed when a final transcript is handled: the
    task has not reached its wake-up check.  When that transcript takes
    it out of [pending_translation_task] (complete sentences were
    extracted, or a newer delayed translation was created), the task
    never calls [_translate_sentences], whatever happens afterwards and
    however often the event loop runs it: it had not called it before, it
    has been cancelled, and when it runs again the cancellation is raised
    instead of its body.  The hypothesis on the delay is needed: a task
    that has passed its check and awaits its dispatch is still the
    pending one, and has dispatched. *)
Theorem superseded_flush_never_dispatches (toggle : bool) (w : World)
    (before : list Event) (ev_text : text) (after : list Event)
    (id : task_id) :
  let s1 := run toggle w (entrypoint toggle) before in
  let s2 := step toggle w s1 (FinalTranscript ev_text) in
  pending_translation_task s1 = Some id ->
  waiting_at (tasks s1) id = true ->
  pending_translation_task s2 <> Some id ->
  existsb (dispatched_by id) (effects (run toggle w s2 after)) = false.
Proof.
  intros s1 s2 Hp1 Hwait Hp2.
  destruct (run_invariant toggle w before _ (entrypoint_invariant toggle))
    as [Hc1 Hd1]. fold s1 in Hc1, Hd1.
  assert (He : evolves s1 s2) by (apply step_evolves; discriminate).
  destruct He as [A [B [_ D]]].
  assert (Hs2 : settled (tasks s2) id).
  { split.
    - apply D. unfold waiting_at in Hwait.
      destruct (state_at (tasks s1) id); [discriminate | discriminate Hwait].
    - destruct (waiting_at (tasks s2) id) eqn:E; [|reflexivity].
      apply waiting_live_at, (B Hc1) in E. contradiction. }
  rewrite (run_settled toggle w after s2 id Hs2), A.
  destruct (existsb (dispatched_by id) (effects s1)) eqn:E; [|reflexivity].
  apply Hd1 in E. destruct E as [_ E]. congruence.
Qed.

Lemma superseded_flush_never_dispatches_witness :
  existsb (dispatched_by 0)
    (effects
       (run false sample_world
          (step false sample_world
             (run false sample_world (entrypoint false)
                [FinalTranscript (str "Hello"); TaskResumes 0])
             (FinalTranscript (str "world.")))
          [TaskResumes 0; TaskResumes 0])) = false.
Proof.
  apply (superseded_flush_never_dispatches false sample_world
           [FinalTranscript (str "Hello"); TaskResumes 0] (str "world.")
           [TaskResumes 0; TaskResumes 0] 0).
  - reflexivity.
  - reflexivity.
  - discriminate.
Defined.

(** Without the hypothesis on the delay the conclusion fails: a delayed
    translation that has passed its wake-up check and awaits its dispatch
    is still the pending one when the next final transcript supersedes
    it, and it has dispatched. *)
Example superseded_in_dispatch_has_dispatched :
  let s1 := run false sample_world (entrypoint false)
              [FinalTranscript (str "Hello"); TaskResumes 0; TaskResumes 0] in
  let s2 := step false sample_world s1 (FinalTranscript (str "world.")) in
  pending_translation_task s1 = Some 0 /\
  state_at (tasks s1) 0 = Some (Dispatching false) /\
  pending_translation_task s2 = None /\
  state_at (tasks s2) 0 = Some (Dispatching true) /\
  existsb (dispatched_by 0) (effects s2) = true /\
  List.map
    (fun e => match e with
              | TranslateSentences by_whom sentences _ =>
                  Some (inl (by_whom, sentences))
              | DispatchInterrupted id => Some (inr id)
              | _ => None
              end)
    (effects (step false sample_world s2 (TaskResumes 0))) =
  [None; Some (inl (DelayedTranslation 0, [str "Hello"])); None;
   Some (inl (ForwardTranscription, [str "Hello world."]));
   Some (inr 0)].
Proof. repeat split. Qed.

(** A delayed translation that nothing supersedes does dispatch its
    snapshot. *)
Example flush_fires_when_left_alone :
  List.map
    (fun e => match e with
              | TranslateSentences by_whom sentences _ =>
                  Some (by_whom, sentences)
              | _ => None
              end)
    (effects (run false sample_world (entrypoint false)
                [FinalTranscript (str "Hello"); TaskResumes 0;
                 TaskResumes 0])) =
  [None; Some (DelayedTranslation 0, [str "Hello"])].
Proof. reflexivity. Qed.

(** A newer delayed translation replaces the older one: only the newer
    one dispatches. *)
Example newer_flush_replaces_older :
  List.map
    (fun e => match e with
              | TranslateSentences by_whom sentences _ =>
                  Some (by_whom, sentences)
              | _ => None
              end)
    (effects (run false sample_world (entrypoint false)
                [FinalTranscript (str "Hello"); TaskResumes 0;
                 FinalTranscript (str "there"); TaskResumes 1;
                 TaskResumes 0; TaskResumes 1])) =
  [None; None; Some (DelayedTranslation 1, [str "Hello there"])].
Proof. reflexivity. Qed.

(* ================================================================== *)
(** * The session: duplicates *)
(* ================================================================== *)

Lemma forward_final_skip (w : World) (x : text) (s : Session) :
  strip x = [] \/ strip x = last_final_transcript s ->
  forward_final w x s = s.
Proof.
  unfold forward_final. intros [-> | ->]; [reflexivity|].
  now rewrite text_eqb_refl, andb_false_r.
Qed.

Lemma last_final_cancel_pending (s : Session) :
  last_final_transcript (cancel_pending s) = last_final_transcript s.
Proof. unfold cancel_pending. now destruct (pending_translation_task s). Qed.

Lemma last_final_clear_pending (s : Session) :
  last_final_transcript (clear_pending s) = last_final_transcript s.
Proof.
  unfold clear_pending.
  destruct (pending_translation_task s); [|reflexivity].
  apply last_final_cancel_pending.
Qed.

Lemma last_final_translate_complete (w : World) (complete : list text)
    (remaining : text) (s : Session) :
  last_final_transcript (fst (translate_complete w complete remaining s)) =
  last_final_transcript s.
Proof.
  unfold translate_complete, call_translate_sentences.
  destruct (nonempty complete); [|reflexivity].
  rewrite translate_sentences_returns. apply last_final_clear_pending.
Qed.

Lemma last_final_schedule_remaining (s : Session) :
  last_final_transcript (schedule_remaining s) = last_final_transcript s.
Proof.
  unfold schedule_remaining.
  destruct (nonempty (strip (accumulated_text s)));
    [apply last_final_cancel_pending | apply last_final_clear_pending].
Qed.

Lemma forward_final_last (w : World) (x : text) (s : Session) :
  strip x = [] \/ last_final_transcript (forward_final w x s) = strip x.
Proof.
  unfold forward_final.
  destruct (strip x) as [|c r] eqn:Ex; [now left | right].
  cbn [nonempty andb].
  destruct (text_eqb (c :: r) (last_final_transcript s)) eqn:E.
  - cbn [negb]. apply text_eqb_eq in E. now rewrite <- E.
  - cbn [negb].
    set (s1 := with_effect (PublishFinal (c :: r))
                 (with_last_final_transcript (c :: r) s)).
    destruct (nonempty (translators s1)); [|reflexivity].
    set (s2 := accumulate (c :: r) s1).
    assert (H2 : last_final_transcript s2 = c :: r).
    { unfold s2, accumulate.
      now destruct (nonempty (accumulated_text s1)). }
    destruct (_extract_complete_sentences (accumulated_text s2))
      as [complete remaining].
    pose proof (last_final_translate_complete w complete remaining s2) as H3.
    destruct (translate_complete w complete remaining s2) as [s3 completion].
    cbn [fst] in H3.
    destruct completion; [|congruence].
    rewrite last_final_schedule_remaining. congruence.
Qed.

Lemma last_final_resume (w : World) (id : task_id) (s : Session) :
  last_final_transcript (delayed_translation_resume w id s) =
  last_final_transcript s.
Proof.
  unfold delayed_translation_resume, call_translate_sentences.
  destruct (nth_error (tasks s) id) as [t|]; [|reflexivity].
  destruct (task_state t) as [| |[|]|[|]| |]; try reflexivity.
  destruct (match pending_translation_task s with
            | Some p => negb (task_cancelled (tasks s) p)
            | None => false
            end); [|reflexivity].
  destruct (nonempty (strip (task_text t))); [|reflexivity].
  now rewrite translate_sentences_returns.
Qed.

Lemma last_final_step (toggle : bool) (w : World) (s : Session)
    (ev : Event) (x : text) :
  not_accepted_after x ev ->
  strip x = [] \/ last_final_transcript s = strip x ->
  strip x = [] \/ last_final_transcript (step toggle w s ev) = strip x.
Proof.
  intros Hev [H | H]; [now left | right].
  destruct ev as [t | y | changed ok | id]; cbn [step].
  - unfold forward_interim. now destruct (nonempty (strip t)).
  - rewrite forward_final_skip; [exact H|].
    destruct Hev as [Hy | Hy]; [now left | right; congruence].
  - destruct (on_attributes_changed toggle ok (translators s) changed)
      as [tr logs].
    destruct (fold_log_effects logs (with_translators tr (llm_calls s) s))
      as [_ [_ [C _]]].
    now rewrite C.
  - now rewrite last_final_resume.
Qed.

(** ** C4 *)

(** C4 (consecutive duplicates are discarded).  After a final transcript
    [x] has been submitted, and for as long as no other final transcript
    is accepted (interim transcripts, language requests, task wake-ups and
    rejected finals may come in between), submitting [x] again leaves the
    session exactly as it was: nothing is appended to the accumulated
    text, nothing is extracted, published or dispatched, no task is
    created or cancelled. *)
Theorem duplicate_final_discarded (toggle : bool) (w : World) (s : Session)
    (x : text) (between : list Event) :
  Forall (not_accepted_after x) between ->
  let s1 := run toggle w (step toggle w s (FinalTranscript x)) between in
  step toggle w s1 (FinalTranscript x) = s1.
Proof.
  intros Hb s1. cbn [step]. apply forward_final_skip.
  assert (H : strip x = [] \/ last_final_transcript s1 = strip x).
  { subst s1. pose proof (forward_final_last w x s) as H0.
    change (forward_final w x s)
      with (step toggle w s (FinalTranscript x)) in H0.
    revert H0. generalize (step toggle w s (FinalTranscript x)).
    induction Hb as [|ev evs Hev Hevs IH]; intros s0 H0; [exact H0|].
    apply IH, last_final_step; assumption. }
  destruct H as [H | H]; [now left | right; congruence].
Qed.

Lemma duplicate_final_discarded_witness :
  let s1 :=
    run false sample_world
      (step false sample_world (entrypoint false)
         (FinalTranscript (str "Hello world. And")))
      [InterimTranscript (str "then"); FinalTranscript (str " ");
       TaskResumes 0] in
  step false sample_world s1 (FinalTranscript (str "Hello world. And")) = s1.
Proof.
  apply (duplicate_final_discarded false sample_world (entrypoint false)
           (str "Hello world. And")
           [InterimTranscript (str "then"); FinalTranscript (str " ");
            TaskResumes 0]).
  repeat constructor.
Defined.

(* ================================================================== *)
(** * The session: the Dutch translator *)
(* ================================================================== *)

Lemma extract_loop_nonblank (parts : list text) :
  Forall (fun sentence => nonempty (strip sentence) = true)
    (fst (extract_loop parts)) /\
  forall p,
    Forall (fun sentence => nonempty (strip sentence) = true)
      (fst (extract_loop (p :: parts))).
Proof.
  induction parts as [|q parts [IH1 IH2]].
  - split; [constructor | intros p; constructor].
  - split; [apply IH2|].
    intros p. cbn [extract_loop].
    destruct (re_match_terminal q); [|constructor].
    destruct (extract_loop parts) as [sentences remaining].
    destruct (nonempty (strip (p ++ q)) && negb (isspace (strip (p ++ q))))
      eqn:E; [|exact IH1].
    constructor; [|exact IH1].
    rewrite strip_idempotent. now apply andb_true_iff in E.
Qed.

Lemma extract_nonblank (t : text) :
  Forall (fun sentence => nonempty (strip sentence) = true)
    (fst (_extract_complete_sentences t)).
Proof.
  unfold _extract_complete_sentences.
  destruct (negb (nonempty (strip t))); [constructor|].
  apply extract_loop_nonblank.
Qed.

Lemma translate_sentences_registry (w : World) (n : nat)
    (translators : dict Translator) (sentences : list text) :
  let d := _translate_sentences w n translators sentences in
  registry_langs (d_translators d) = registry_langs translators /\
  (nonempty translators = true ->
   call_targets (d_calls d) =
   flat_map (targets_of translators)
     (filter (fun sentence => nonempty (strip sentence)) sentences)).
Proof.
  unfold _translate_sentences.
  destruct sentences as [|sentence rest]; [split; reflexivity|].
  destruct translators as [|kt translators];
    [split; [reflexivity | discriminate]|].
  cbn [nonempty negb orb].
  destruct (translate_loop_calls w (sentence :: rest) (kt :: translators) n)
    as [_ [H2 H3]].
  split; auto.
Qed.

Lemma dispatch_into_dutch (w : World) (n : nat)
    (translators : dict Translator) (sentences : list text) :
  dutch_registered translators ->
  Forall (fun sentence => nonempty (strip sentence) = true) sentences ->
  let d := _translate_sentences w n translators sentences in
  dutch_registered (d_translators d) /\
  Forall (translated_into (str "nl") (d_calls d)) sentences.
Proof.
  intros Hd Hs.
  destruct (translate_sentences_registry w n translators sentences)
    as [Hr Hc].
  split; [unfold dutch_registered; now rewrite Hr|].
  assert (Hne : nonempty translators = true).
  { destruct translators; [destruct Hd | reflexivity]. }
  specialize (Hc Hne).
  apply Forall_forall. intros sentence Hin.
  assert (Ht : In (str "nl", sentence)
                 (call_targets
                    (d_calls (_translate_sentences w n translators sentences)))).
  { rewrite Hc. apply in_flat_map. exists sentence. split.
    - apply filter_In. split; [exact Hin|].
      exact (proj1 (Forall_forall _ _) Hs sentence Hin).
    - unfold targets_of.
      exact (in_map (fun kt => (value (snd kt), sentence)) _ _ Hd). }
  unfold call_targets in Ht. apply in_map_iff in Ht.
  destruct Ht as [call [E Hcall]]. injection E as E1 E2.
  apply Exists_exists. exists call. auto.
Qed.

Lemma dutch_call (w : World) (by_whom : Caller) (sentences : list text)
    (s : Session) :
  Forall (fun sentence => nonempty (strip sentence) = true) sentences ->
  dutch_invariant s ->
  dutch_invariant (fst (call_translate_sentences w by_whom sentences s)).
Proof.
  intros Hs [Hd He]. unfold call_translate_sentences, dutch_invariant.
  cbn [fst translators effects with_effect with_translators].
  destruct (dispatch_into_dutch w (llm_calls s) (translators s) sentences
              Hd Hs) as [H1 H2].
  split; [exact H1|].
  apply Forall_app. split; [exact He | now constructor].
Qed.

(** A block that keeps the registry and adds no dispatch. *)
Lemma dutch_frame (s s' : Session) :
  translators s' = translators s ->
  (effects s' = effects s \/
   exists e, effects s' = effects s ++ [e] /\ into_dutch e) ->
  dutch_invariant s -> dutch_invariant s'.
Proof.
  unfold dutch_invariant. intros -> He [Hd Hf]. split; [exact Hd|].
  destruct He as [-> | [e [-> Hi]]]; [exact Hf|].
  apply Forall_app. split; [exact Hf | now constructor].
Qed.

Lemma dutch_cancel_pending (s : Session) :
  dutch_invariant s -> dutch_invariant (cancel_pending s).
Proof.
  unfold cancel_pending. destruct (pending_translation_task s); [|auto].
  apply dutch_frame; [reflexivity | now left].
Qed.

Lemma dutch_clear_pending (s : Session) :
  dutch_invariant s -> dutch_invariant (clear_pending s).
Proof.
  unfold clear_pending. destruct (pending_translation_task s); [|auto].
  intros H. apply dutch_cancel_pending in H. revert H.
  apply dutch_frame; [reflexivity | now left].
Qed.

Lemma dutch_forward_final (w : World) (x : text) (s : Session) :
  dutch_invariant s -> dutch_invariant (forward_final w x s).
Proof.
  intros H. unfold forward_final.
  destruct (nonempty (strip x)
            && negb (text_eqb (strip x) (last_final_transcript s)));
    [|exact H].
  set (s1 := with_effect (PublishFinal (strip x))
               (with_last_final_transcript (strip x) s)).
  assert (H1 : dutch_invariant s1).
  { revert H. apply dutch_frame; [reflexivity|].
    right. exists (PublishFinal (strip x)). now split. }
  destruct (nonempty (translators s1)); [|exact H1].
  set (s2 := accumulate (strip x) s1).
  assert (H2 : dutch_invariant s2).
  { revert H1. unfold s2, accumulate.
    destruct (nonempty (accumulated_text s1));
      (apply dutch_frame; [reflexivity | now left]). }
  pose proof (extract_nonblank (accumulated_text s2)) as Hnb.
  destruct (_extract_complete_sentences (accumulated_text s2))
    as [complete remaining].
  cbn [fst] in Hnb.
  assert (H3 : dutch_invariant
                 (fst (translate_complete w complete remaining s2))).
  { unfold translate_complete.
    destruct (nonempty complete); [|exact H2].
    pose proof (dutch_call w ForwardTranscription complete
                  (clear_pending s2) Hnb (dutch_clear_pending s2 H2)) as H3.
    destruct (call_translate_sentences w ForwardTranscription complete
                (clear_pending s2)) as [s3 completion].
    cbn [fst] in H3.
    destruct completion; cbn [fst]; [|exact H3].
    revert H3. apply dutch_frame; [reflexivity | now left]. }
  destruct (translate_complete w complete remaining s2) as [s3 completion].
  cbn [fst] in H3.
  destruct completion; [|exact H3].
  unfold schedule_remaining.
  destruct (nonempty (strip (accumulated_text s3)));
    [|now apply dutch_clear_pending].
  unfold create_task.
  apply dutch_cancel_pending in H3. revert H3.
  apply dutch_frame; [reflexivity | now left].
Qed.

Lemma dutch_resume (w : World) (id : task_id) (s : Session) :
  dutch_invariant s -> dutch_invariant (delayed_translation_resume w id s).
Proof.
  intros H. unfold delayed_translation_resume.
  destruct (nth_error (tasks s) id) as [t|]; [|exact H].
  assert (Hfin : forall st s1,
             dutch_invariant s1 ->
             dutch_invariant (with_tasks (set_state id st (tasks s1)) s1)).
  { intros st s1. apply dutch_frame; [reflexivity | now left]. }
  destruct (task_state t) as [| |[|]|[|]| |];
    [now apply Hfin| | | |now apply Hfin|now apply Hfin|exact H|exact H].
  - destruct (match pending_translation_task s with
              | Some p => negb (task_cancelled (tasks s) p)
              | None => false
              end); [|now apply Hfin].
    destruct (nonempty (strip (task_text t))) eqn:E.
    + assert (Hs : Forall (fun sentence => nonempty (strip sentence) = true)
                     [task_text t]) by now constructor.
      pose proof (dutch_call w (DelayedTranslation id) [task_text t] s Hs H)
        as H1.
      destruct (call_translate_sentences w (DelayedTranslation id)
                  [task_text t] s) as [s1 completion].
      cbn [fst] in H1.
      destruct completion; now apply Hfin.
    + apply (Hfin Finished (with_pending None s)).
      revert H. apply dutch_frame; [reflexivity | now left].
  - apply (Hfin Finished (with_effect (DispatchInterrupted id) s)).
    revert H. apply dutch_frame; [reflexivity|].
    right. exists (DispatchInterrupted id). now split.
  - apply (Hfin Finished (with_pending None s)).
    revert H. apply dutch_frame; [reflexivity | now left].
Qed.

Lemma dict_set_new {V : Type} (k : text) (v : V) (d : dict V) :
  dict_mem k d = false -> dict_set k v d = d ++ [(k, v)].
Proof.
  unfold dict_mem. induction d as [|[k' v'] d IH]; simpl; [reflexivity|].
  destruct (text_eqb k k'); [discriminate|].
  intros H. now rewrite (IH H).
Qed.

Lemma dutch_attributes (toggle openai_ok : bool)
    (translators : dict Translator) (changed : dict text) :
  dutch_registered translators ->
  dutch_registered
    (fst (on_attributes_changed toggle openai_ok translators changed)).
Proof.
  intros H. unfold on_attributes_changed.
  destruct (dict_get (str "captions_language") changed) as [l|]; [|exact H].
  destruct (negb (nonempty l)); [exact H|].
  destruct (text_eqb l source_language); [exact H|].
  destruct (dict_mem l translators) eqn:Em; [exact H|].
  destruct (dict_get l languages) as [language_obj|]; [|exact H].
  destruct (LanguageCode_getattr (name language_obj)) as [language_enum|];
    [|exact H].
  destruct (Translator_init toggle openai_ok language_enum); [|exact H].
  cbn [fst]. rewrite (dict_set_new _ _ _ Em).
  unfold dutch_registered, registry_langs. rewrite map_app.
  apply in_or_app. now left.
Qed.

Lemma dutch_step (toggle : bool) (w : World) (s : Session) (ev : Event) :
  dutch_invariant s -> dutch_invariant (step toggle w s ev).
Proof.
  intros H. destruct ev as [t | t | changed ok | id]; cbn [step].
  - unfold forward_interim. destruct (nonempty (strip t)); [|exact H].
    revert H. apply dutch_frame; [reflexivity|].
    right. exists (PublishInterim (strip t)). now split.
  - now apply dutch_forward_final.
  - pose proof (dutch_attributes toggle ok (translators s) changed (proj1 H))
      as Hd.
    destruct (on_attributes_changed toggle ok (translators s) changed)
      as [tr logs].
    cbn [fst] in Hd.
    destruct (fold_log_effects logs (with_translators tr (llm_calls s) s))
      as [A [_ [_ [_ [_ [_ G]]]]]].
    split; [now rewrite A|].
    rewrite G. apply Forall_app. split; [exact (proj2 H)|].
    clear. induction logs; constructor; [exact I | assumption].
  - now apply dutch_resume.
Qed.

(** ** C9 *)


(** Two finals and no language request: the sentence goes to Dutch. *)
Example dutch_without_requests :
  List.map
    (fun e => match e with
              | TranslateSentences _ sentences calls =>
                  (sentences, call_targets calls)
              | _ => ([], [])
              end)
    (effects (run false sample_world (entrypoint false)
                [FinalTranscript (str "Hello"); FinalTranscript (str "world.")]))
  = [([], []); ([], []);
     ([str "Hello world."], [(str "nl", str "Hello world.")])].
Proof. reflexivity. Qed.

(* ================================================================== *)
(** * More on the sentence extractor *)
(* ================================================================== *)

Lemma re_split_parts (s : text) : split_parts (re_split s).
Proof.
  induction s as [|c s IH]; simpl.
  - now constructor.
  - destruct (re_split s) as [|c0 rest]; [inversion IH|].
    destruct (is_terminal c) eqn:E.
    + destruct c0 as [|d c0].
      * destruct rest as [|run rest'].
        -- apply parts_pair; [reflexivity | discriminate | | exact IH].
           simpl. now rewrite E.
        -- inversion IH; subst.
           apply parts_pair; [reflexivity | discriminate | | assumption].
           simpl. rewrite E. assumption.
      * apply parts_pair; [reflexivity | discriminate | | exact IH].
        simpl. now rewrite E.
    + inversion IH; subst.
      * apply parts_last. simpl. now rewrite E.
      * apply parts_pair; try assumption. simpl. now rewrite E.
Qed.

Lemma run_matches (run : text) :
  run <> [] -> forallb is_terminal run = true ->
  re_match_terminal run = true.
Proof.
  destruct run as [|c run]; [now intros H; elim H|].
  simpl. intros _ H. now apply andb_true_iff in H.
Qed.

Lemma split_parts_alternating (l : list text) :
  split_parts l -> alternating l.
Proof.
  induction 1 as [c Hc | c run parts Hc Hne Hrun Hparts IH].
  - now constructor.
  - constructor; auto using run_matches.
Qed.

Lemma lstrip_app_keep (a z : text) :
  starts_with is_whitespace z = false -> lstrip (a ++ z) = lstrip a ++ z.
Proof.
  intros Hz. induction a as [|c a IH]; simpl.
  - now apply lstrip_fixed.
  - destruct (is_whitespace c); [exact IH | reflexivity].
Qed.

Lemma run_ends_plain (run : text) :
  forallb is_terminal run = true -> ends_with is_whitespace run = false.
Proof.
  induction run as [|c run IH]; [reflexivity|].
  simpl. intros H. apply andb_true_iff in H. destruct H as [Hc Hr].
  rewrite ends_with_cons. destruct run as [|d run].
  - now apply terminal_not_whitespace.
  - now apply IH.
Qed.

(** A sentence is its content without the leading whitespace, followed
    by its run of terminal marks. *)
Lemma strip_content_run (c run : text) :
  run <> [] -> forallb is_terminal run = true ->
  strip (c ++ run) = lstrip c ++ run.
Proof.
  intros Hne Hrun. unfold strip.
  assert (Hs : starts_with is_whitespace run = false).
  { destruct run as [|d run]; [now elim Hne|].
    simpl in *. apply andb_true_iff in Hrun.
    now apply terminal_not_whitespace. }
  rewrite (lstrip_app_keep c run Hs).
  apply rstrip_fixed. rewrite ends_with_app by exact Hne.
  now apply run_ends_plain.
Qed.

Lemma extract_loop_shapes (parts : list text) :
  split_parts parts -> Forall sentence_shape (fst (extract_loop parts)).
Proof.
  induction 1 as [c Hc | c run parts Hc Hne Hrun Hparts IH].
  - constructor.
  - rewrite (extract_loop_pair c run parts (run_matches run Hne Hrun)).
    cbn [fst]. constructor; [|exact IH].
    exists (lstrip c), run.
    rewrite strip_idempotent.
    repeat split; auto using strip_content_run, existsb_lstrip.
Qed.

Lemma extract_without_marks (t : text) :
  existsb is_terminal t = false ->
  _extract_complete_sentences t = ([], strip t).
Proof.
  intros H. rewrite extract_is_loop, (re_split_plain t H). reflexivity.
Qed.

Lemma extract_nonempty_iff_mark (t : text) :
  nonempty (fst (_extract_complete_sentences t)) = existsb is_terminal t.
Proof.
  destruct (existsb is_terminal t) eqn:E.
  - rewrite extract_is_loop.
    pose proof (re_split_alternating t) as HA.
    pose proof (re_split_concat t) as HC.
    destruct HA as [c Hc | c run parts Hc Hrun Hparts].
    + simpl in HC. rewrite app_nil_r in HC. congruence.
    + now rewrite (extract_loop_pair c run parts Hrun).
  - now rewrite (extract_without_marks t E).
Qed.

Lemma extract_remainder_ok (t : text) :
  existsb is_terminal (snd (_extract_complete_sentences t)) = false /\
  strip (snd (_extract_complete_sentences t)) =
  snd (_extract_complete_sentences t).
Proof.
  rewrite extract_is_loop,
    (extract_loop_remainder _ (re_split_alternating t)).
  split.
  - apply existsb_strip, alternating_last_plain, re_split_alternating.
  - apply strip_idempotent.
Qed.

(** X1 (text without terminal marks).  A text that holds none of the
    marks [. ! ? ؟ ،] yields no sentence, and the whole text, stripped, is
    the remainder; in particular an empty or blank text gives no sentence
    and the empty remainder. *)
Theorem extract_plain_text (t : text) :
  existsb is_terminal t = false ->
  _extract_complete_sentences t = ([], strip t).
Proof. exact (extract_without_marks t). Qed.

Lemma extract_plain_text_witness :
  _extract_complete_sentences (str "  no end yet ") = ([], str "no end yet").
Proof.
  apply (extract_plain_text (str "  no end yet ")). reflexivity.
Defined.

(** X2 (a sentence is found exactly when a terminal mark occurs).  The
    extractor returns at least one sentence if and only if the text holds
    a terminal mark, wherever the mark stands. *)
Theorem extract_finds_sentence_iff_mark (t : text) :
  nonempty (fst (_extract_complete_sentences t)) = existsb is_terminal t.
Proof. exact (extract_nonempty_iff_mark t). Qed.

(** X3 (shape of the sentences).  Every sentence the extractor returns
    is some content without terminal marks followed by one non-empty run
    of terminal marks, and has no whitespace at its ends: it is never
    empty, never blank, and never holds two sentences. *)
Theorem extract_sentences_shape (t : text) :
  Forall sentence_shape (fst (_extract_complete_sentences t)).
Proof.
  rewrite extract_is_loop. apply extract_loop_shapes, re_split_parts.
Qed.

(** X4 (shape of the remainder).  The remainder holds no terminal mark
    and has no whitespace at its ends. *)
Theorem extract_remainder_plain (t : text) :
  existsb is_terminal (snd (_extract_complete_sentences t)) = false /\
  strip (snd (_extract_complete_sentences t)) =
  snd (_extract_complete_sentences t).
Proof. exact (extract_remainder_ok t). Qed.

(** X5 (the remainder is exhausted).  Extracting again from the
    remainder finds no sentence and returns the remainder as it is. *)
Theorem extract_remainder_fixed (t : text) :
  _extract_complete_sentences (snd (_extract_complete_sentences t)) =
  ([], snd (_extract_complete_sentences t)).
Proof.
  destruct (extract_remainder_ok t) as [H1 H2].
  now rewrite (extract_without_marks _ H1), H2.
Qed.

(* ================================================================== *)
(** * More on the translator *)
(* ================================================================== *)

Lemma translate_rolling_step (w : World) (n : nat) (self : Translator)
    (us : list text) (message : text) :
  use_context self = true ->
  rolling_window self us ->
  let self' := fst (translate w n self message) in
  let us' := if 9 <? length us + 1 then [] else us ++ [message] in
  use_context self' = true /\
  system_prompt self' = system_prompt self /\
  rolling_window self' us' /\
  inv_request (snd (translate w n self message)) =
    system_message self :: List.map user_message us' /\
  inv_message (snd (translate w n self message)) = message.
Proof.
  intros Huse [Hctx [Hcount Hlen]]. unfold translate. rewrite Huse, Hcount.
  destruct (9 <? length us + 1) eqn:E; cbn.
  - repeat split; auto. cbn. lia.
  - apply Nat.ltb_ge in E. unfold rolling_window. cbn.
    rewrite Hctx, map_app, length_app. cbn.
    repeat split; auto; lia.
Qed.

Lemma translate_each_rolling (w : World) (messages : list text) :
  forall (n : nat) (self : Translator) (history us : list text),
    use_context self = true ->
    rolling_window self us ->
    (exists pre, history = pre ++ us) ->
    let self' := fst (translate_each w n self messages) in
    (exists us' pre',
        history ++ messages = pre' ++ us' /\
        length us' = (length us + length messages) mod 10 /\
        rolling_window self' us') /\
    system_prompt self' = system_prompt self /\
    Forall (rolling_request (system_message self))
      (snd (translate_each w n self messages)).
Proof.
  induction messages as [|m ms IH]; intros n self history us Huse Hwin Hsuf.
  - cbn [translate_each fst snd length].
    destruct Hsuf as [pre Hpre]. split; [|split; auto].
    exists us, pre. rewrite app_nil_r, Nat.add_0_r.
    pose proof (proj2 (proj2 Hwin)) as Hlen.
    rewrite Nat.mod_small by lia. auto.
  - pose proof (translate_rolling_step w n self us m Huse Hwin)
      as [Huse1 [Hprompt1 [Hwin1 [Hreq Hmsg]]]].
    cbn [translate_each].
    destruct (translate w n self m) as [self1 call]. cbn [fst snd] in *.
    set (us1 := if 9 <? length us + 1 then [] else us ++ [m]) in *.
    assert (Hsuf1 : exists pre, history ++ [m] = pre ++ us1).
    { unfold us1. destruct (9 <? length us + 1).
      - exists (history ++ [m]). now rewrite app_nil_r.
      - destruct Hsuf as [pre ->]. exists pre. now rewrite app_assoc. }
    specialize (IH (S n) self1 (history ++ [m]) us1 Huse1 Hwin1 Hsuf1).
    destruct (translate_each w (S n) self1 ms) as [self2 calls].
    cbn [fst snd] in *.
    destruct IH as [[us2 [pre2 [Hh [Hl Hw2]]]] [Hp2 Hreqs]].
    split; [|split].
    + exists us2, pre2. rewrite <- app_assoc in Hh. split; [exact Hh|].
      split; [|exact Hw2]. rewrite Hl. cbn [length].
      unfold us1. destruct (9 <? length us + 1) eqn:E.
      * apply Nat.ltb_lt in E. destruct Hwin as [_ [_ Hlen]].
        assert (H9 : length us = 9) by (unfold text in *; lia).
        rewrite H9.
        change (length (@nil text) + length ms) with (length ms).
        replace (9 + S (length ms)) with (length ms + 1 * 10) by lia.
        now rewrite Nat.Div0.mod_add.
      * rewrite length_app. cbn [length]. f_equal. lia.
    + congruence.
    + constructor.
      * exists us1. rewrite Hreq, Hmsg. split; [reflexivity|].
        destruct Hwin1 as [_ [_ Hlen1]]. split; [exact Hlen1|].
        unfold us1. destruct (9 <? length us + 1); [now left | right; eauto].
      * assert (Hsm : system_message self1 = system_message self)
          by (unfold system_message; now rewrite Hprompt1).
        now rewrite <- Hsm.
Qed.

(** X6 (the rolling window).  In rolling-context mode, after any number
    of calls on a new translator the counter is the number of calls
    modulo 10, and the context is the system prompt followed by exactly
    that many user messages, the most recent ones in order: the window
    grows to nine messages and is emptied by every tenth call. *)
Theorem rolling_window_after_calls (w : World) (n : nat) (l : LanguageCode)
    (messages : list text) :
  let self := new_translator true l in
  let self' := fst (translate_each w n self messages) in
  exists us pre : list text,
    messages = pre ++ us /\
    length us = length messages mod 10 /\
    message_count self' = length us /\
    context self' = system_message self :: List.map user_message us.
Proof.
  cbv zeta.
  assert (Hwin : rolling_window (new_translator true l) []).
  { repeat split; cbn; lia. }
  destruct (translate_each_rolling w messages n (new_translator true l)
              [] [] eq_refl Hwin (ex_intro _ [] eq_refl))
    as [[us [pre [Hh [Hl [Hctx [Hcount _]]]]]] [Hp _]].
  exists us, pre. cbn in Hh, Hl. repeat split; auto.
  unfold system_message in *. now rewrite <- Hp.
Qed.

(** X7 (what a rolling translator sends).  In rolling-context mode every
    request a new translator sends to the LLM is its system prompt
    followed by at most nine user messages ending with the message being
    translated, or the system prompt alone: no request holds more than
    ten entries, and no translation is ever fed back into the context. *)
Theorem rolling_requests_bounded (w : World) (n : nat) (l : LanguageCode)
    (messages : list text) :
  let self := new_translator true l in
  Forall (rolling_request (system_message self))
    (snd (translate_each w n self messages)).
Proof.
  cbv zeta.
  assert (Hwin : rolling_window (new_translator true l) []).
  { repeat split; cbn; lia. }
  apply (translate_each_rolling w messages n (new_translator true l)
           [] [] eq_refl Hwin (ex_intro _ [] eq_refl)).
Qed.

Lemma translate_world_free (w w' : World) (n n' : nat) (self : Translator)
    (message : text) :
  fst (translate w n self message) = fst (translate w' n' self message) /\
  inv_request (snd (translate w n self message)) =
  inv_request (snd (translate w' n' self message)).
Proof.
  unfold translate. destruct (use_context self); [|split; reflexivity].
  destruct (9 <? message_count self + 1); split; reflexivity.
Qed.

(** X8 (failures do not roll back history).  The state a translator is
    left in and the contexts it sends depend on the messages alone, not
    on what the LLM answers or on whether the LLM or the room raise: a
    failed call has consumed its place in the window like any other. *)
Theorem translator_state_ignores_answers (w w' : World) (n n' : nat)
    (self : Translator) (messages : list text) :
  fst (translate_each w n self messages) =
    fst (translate_each w' n' self messages) /\
  List.map inv_request (snd (translate_each w n self messages)) =
    List.map inv_request (snd (translate_each w' n' self messages)).
Proof.
  revert n n' self.
  induction messages as [|m ms IH]; intros n n' self; [split; reflexivity|].
  cbn [translate_each].
  destruct (translate_world_free w w' n n' self m) as [H1 H2].
  destruct (translate w n self m) as [self1 call].
  destruct (translate w' n' self m) as [self1' call'].
  cbn [fst snd] in H1, H2. subst self1'.
  specialize (IH (S n) (S n') self1).
  destruct (translate_each w (S n) self1 ms) as [self2 calls].
  destruct (translate_each w' (S n') self1 ms) as [self2' calls'].
  cbn [fst snd map] in *. destruct IH as [IH1 IH2].
  split; congruence.
Qed.

(** X9 (fresh mode has no memory).  With the [use_context] toggle as the
    source sets it, every request is the system prompt followed by the one
    message being translated, whatever was translated before. *)
Theorem fresh_requests_have_no_memory (w : World) (n : nat)
    (l : LanguageCode) (messages : list text) :
  let self := new_translator use_context_default l in
  List.map inv_request (snd (translate_each w n self messages)) =
  List.map (fun message => [system_message self; user_message message])
    messages.
Proof.
  cbv zeta. generalize (new_translator use_context_default l)
    (eq_refl : use_context (new_translator use_context_default l) = false).
  intros self Hself. revert n.
  induction messages as [|m ms IH]; intros n; [reflexivity|].
  cbn [translate_each].
  pose proof (translate_fresh_keeps_self w n self m Hself) as E.
  assert (Hreq : inv_request (snd (translate w n self m)) =
                 [system_message self; user_message m])
    by (unfold translate; now rewrite Hself).
  destruct (translate w n self m) as [self1 call].
  cbn [fst snd] in E, Hreq. subst self1.
  specialize (IH (S n)).
  destruct (translate_each w (S n) self ms) as [self2 calls].
  cbn [snd map] in *. now rewrite Hreq, IH.
Qed.

(* ================================================================== *)
(** * More on sentence dispatch *)
(* ================================================================== *)

Lemma messages_for_targets (l : text) (calls : list Invocation) :
  messages_for l calls =
  List.map snd (filter (fun p => text_eqb (fst p) l) (call_targets calls)).
Proof.
  unfold messages_for, call_targets.
  induction calls as [|call calls IH]; [reflexivity|].
  cbn [map filter fst]. destruct (text_eqb (inv_lang call) l); cbn [map snd].
  - now rewrite IH.
  - exact IH.
Qed.

Lemma filter_absent (l s : text) (vs : list text) :
  ~ In l vs ->
  filter (fun p : text * text => text_eqb (fst p) l)
    (List.map (fun v => (v, s)) vs) = [].
Proof.
  induction vs as [|v vs IH]; [reflexivity|].
  intros H. cbn [map filter fst].
  destruct (text_eqb v l) eqn:E.
  - apply text_eqb_eq in E. subst v. elim H. now left.
  - apply IH. intros Hin. apply H. now right.
Qed.

Lemma filter_unique (l s : text) (vs : list text) :
  NoDup vs -> In l vs ->
  filter (fun p : text * text => text_eqb (fst p) l)
    (List.map (fun v => (v, s)) vs) = [(l, s)].
Proof.
  induction 1 as [|v vs Hnotin Hnd IH]; [intros []|].
  intros Hin. cbn [map filter fst].
  destruct (text_eqb v l) eqn:E.
  - apply text_eqb_eq in E. subst v. now rewrite filter_absent.
  - apply IH. destruct Hin as [-> | Hin]; [|exact Hin].
    rewrite text_eqb_refl in E. discriminate.
Qed.

Lemma targets_of_values (translators : dict Translator) (s : text) :
  targets_of translators s =
  List.map (fun v => (v, s)) (registry_values translators).
Proof. unfold targets_of, registry_values. now rewrite map_map. Qed.

(** X10 (order kept for each language).  When the translators of a
    registry translate into distinct languages, the translator of each
    language is handed the sentences of a batch that are not blank, every
    one of them once and in the order of the batch, whatever the
    translators of the other languages do. *)
Theorem dispatch_keeps_order_per_language (w : World) (n : nat)
    (translators : dict Translator) (sentences : list text) (l : text) :
  NoDup (registry_values translators) ->
  In l (registry_values translators) ->
  messages_for l
    (d_calls (_translate_sentences w n translators sentences)) =
  filter (fun sentence => nonempty (strip sentence)) sentences.
Proof.
  intros Hnd Hin.
  assert (Hne : nonempty translators = true)
    by (destruct translators; [destruct Hin | reflexivity]).
  destruct (translate_sentences_registry w n translators sentences)
    as [_ Hc].
  rewrite messages_for_targets, (Hc Hne). clear Hc.
  induction (filter (fun sentence => nonempty (strip sentence)) sentences)
    as [|s ss IH]; [reflexivity|].
  cbn [flat_map]. rewrite filter_app, map_app, IH, targets_of_values.
  now rewrite (filter_unique l s _ Hnd Hin).
Qed.

Lemma dispatch_keeps_order_per_language_witness :
  messages_for (str "fr")
    (d_calls (_translate_sentences failing_world 0 sample_registry
                [str "A."; str "  "; str "B."])) =
  [str "A."; str "B."].
Proof.
  apply (dispatch_keeps_order_per_language failing_world 0 sample_registry
           [str "A."; str "  "; str "B."] (str "fr")).
  - repeat constructor; cbn; intuition discriminate.
  - right. left. reflexivity.
Defined.

(** X11 (dispatch keeps the registry).  A dispatch never adds, removes,
    reorders or retargets a translator: the registry has the same keys
    with the same languages afterwards. *)
Theorem dispatch_keeps_registry_keys (w : World) (n : nat)
    (translators : dict Translator) (sentences : list text) :
  registry_langs
    (d_translators (_translate_sentences w n translators sentences)) =
  registry_langs translators.
Proof. apply translate_sentences_registry. Qed.

Lemma translate_all_fresh (w : World) (sentence : text)
    (items : dict Translator) (n : nat) :
  Forall (fun kt => use_context (snd kt) = false) items ->
  fst (fst (translate_all w n items sentence)) = items.
Proof.
  intros H. revert n.
  induction H as [|[l t] items Ht Hitems IH]; intros n; [reflexivity|].
  cbn [translate_all]. cbn [snd] in Ht.
  pose proof (translate_fresh_keeps_self w n t sentence Ht) as E.
  destruct (translate w n t sentence) as [t' call]. cbn [fst] in E.
  specialize (IH (S n)).
  destruct (translate_all w (S n) items sentence) as [[rest calls] n'].
  cbn [fst] in *. now subst.
Qed.

(** X12 (fresh mode: dispatch leaves the translators alone).  When
    every translator of the registry is in fresh-context mode, a dispatch
    returns the registry exactly as it was: no translator keeps anything
    of the batch. *)
Theorem dispatch_fresh_keeps_translators (w : World) (n : nat)
    (translators : dict Translator) (sentences : list text) :
  Forall (fun kt => use_context (snd kt) = false) translators ->
  d_translators (_translate_sentences w n translators sentences) =
  translators.
Proof.
  intros H. unfold _translate_sentences.
  destruct (negb (nonempty sentences) || negb (nonempty translators));
    [reflexivity|].
  revert n. induction sentences as [|s ss IH]; intros n; [reflexivity|].
  cbn [translate_loop].
  destruct (nonempty (strip s)); [|apply IH].
  pose proof (translate_all_fresh w s translators n H) as E.
  destruct (translate_all w n translators s) as [[translators' tasks'] n'].
  cbn [fst] in E. subst translators'.
  destruct (nonempty tasks'); cbn [gather d_translators]; apply IH.
Qed.

Lemma dispatch_fresh_keeps_translators_witness :
  d_translators
    (_translate_sentences sample_world 0 sample_registry
       [str "A."; str "B."]) = sample_registry.
Proof.
  apply (dispatch_fresh_keeps_translators sample_world 0 sample_registry
           [str "A."; str "B."]).
  repeat constructor.
Defined.

(* ================================================================== *)
(** * More on the translator registry *)
(* ================================================================== *)

(** Every language of the table has its member in [LanguageCode], and
    the member's value is the language's code. *)
Lemma languages_enum (l : text) (language_obj : Language) :
  dict_get l languages = Some language_obj ->
  exists e, LanguageCode_getattr (name language_obj) = Some e /\ value e = l.
Proof.
  unfold languages. cbn [dict_get].
  repeat match goal with
         | |- context [text_eqb l ?k] =>
             let E := fresh "E" in
             destruct (text_eqb l k) eqn:E;
             [apply text_eqb_eq in E; subst l; intros H;
              injection H as <-; eexists; split; reflexivity|]
         end.
  discriminate.
Qed.

Lemma dict_mem_keys {V : Type} (k : text) (d : dict V) :
  dict_mem k d = true <-> In k (dict_keys d).
Proof.
  unfold dict_mem, dict_keys. induction d as [|[k' v] d IH]; cbn.
  - split; [discriminate | intros []].
  - destruct (text_eqb k k') eqn:E.
    + apply text_eqb_eq in E. subst k'. split; auto.
    + rewrite IH. split; [now right|].
      intros [-> | H]; [|exact H].
      rewrite text_eqb_refl in E. discriminate.
Qed.

Lemma supported_is_named (l : text) :
  dict_mem l languages = true -> negb (nonempty l) = false.
Proof. destruct l; [discriminate | reflexivity]. Qed.

Lemma register_new_language (toggle : bool)
    (translators : dict Translator) (changed_attributes : dict text)
    (l : text) :
  dict_get (str "captions_language") changed_attributes = Some l ->
  dict_mem l languages = true ->
  l <> source_language ->
  dict_mem l translators = false ->
  exists e : LanguageCode,
    value e = l /\
    fst (on_attributes_changed toggle true translators changed_attributes) =
    translators ++ [(l, new_translator toggle e)].
Proof.
  intros Hget Hlang Hsrc Hnew. unfold on_attributes_changed.
  rewrite Hget, (supported_is_named l Hlang), Hnew.
  assert (E : text_eqb l source_language = false).
  { destruct (text_eqb l source_language) eqn:E; [|reflexivity].
    apply text_eqb_eq in E. contradiction. }
  rewrite E. unfold dict_mem in Hlang.
  destruct (dict_get l languages) as [language_obj|] eqn:El; [|discriminate].
  destruct (languages_enum l language_obj El) as [e [He Hv]].
  rewrite He. cbn [Translator_init fst].
  exists e. split; [exact Hv|]. now apply dict_set_new.
Qed.

(** X13 (a new supported language is registered).  When a participant
    asks for a supported language that is neither the source language nor
    already registered, and a translator can be constructed, the registry
    gains exactly one entry, at its end: a new translator under the
    requested code, translating into the language of that code; the
    entries it had are untouched. *)
Theorem new_language_registered (toggle : bool)
    (translators : dict Translator) (changed_attributes : dict text)
    (l : text) :
  dict_get (str "captions_language") changed_attributes = Some l ->
  dict_mem l languages = true ->
  l <> source_language ->
  dict_mem l translators = false ->
  exists e : LanguageCode,
    value e = l /\
    fst (on_attributes_changed toggle true translators changed_attributes) =
    translators ++ [(l, new_translator toggle e)].
Proof. exact (register_new_language toggle translators changed_attributes l). Qed.

Lemma new_language_registered_witness :
  exists e : LanguageCode,
    value e = str "fr" /\
    fst (on_attributes_changed false true (initial_translators false)
           [(str "captions_language", str "fr")]) =
    initial_translators false ++ [(str "fr", new_translator false e)].
Proof.
  apply (new_language_registered false (initial_translators false)
           [(str "captions_language", str "fr")] (str "fr")).
  - reflexivity.
  - reflexivity.
  - discriminate.
  - reflexivity.
Defined.

Lemma on_attributes_changed_cases (toggle openai_ok : bool)
    (translators : dict Translator) (changed_attributes : dict text) :
  fst (on_attributes_changed toggle openai_ok translators
         changed_attributes) = translators \/
  exists l e,
    dict_get (str "captions_language") changed_attributes = Some l /\
    openai_ok = true /\
    dict_mem l translators = false /\
    l <> source_language /\
    dict_mem l languages = true /\
    value e = l /\
    fst (on_attributes_changed toggle openai_ok translators
           changed_attributes) =
    translators ++ [(l, new_translator toggle e)].
Proof.
  unfold on_attributes_changed.
  destruct (dict_get (str "captions_language") changed_attributes)
    as [l|] eqn:Hget; [|now left].
  destruct (negb (nonempty l)); [now left|].
  destruct (text_eqb l source_language) eqn:Es; [now left|].
  destruct (dict_mem l translators) eqn:Em; [now left|].
  destruct (dict_get l languages) as [language_obj|] eqn:El; [|now left].
  destruct (languages_enum l language_obj El) as [e [He Hv]].
  rewrite He. destruct openai_ok; [|now left].
  right. exists l, e. cbn [Translator_init fst].
  repeat split; auto.
  - intros ->. unfold source_language in Es.
    rewrite text_eqb_refl in Es. discriminate.
  - unfold dict_mem. now rewrite El.
  - now apply dict_set_new.
Qed.

(** X14 (the registry only grows).  Whatever the signal, the handler
    leaves the registry as it is or appends one entry to it: no translator
    is ever removed, replaced or moved. *)
Theorem registry_only_grows (toggle openai_ok : bool)
    (translators : dict Translator) (changed_attributes : dict text) :
  exists added : dict Translator,
    length added <= 1 /\
    fst (on_attributes_changed toggle openai_ok translators
           changed_attributes) = translators ++ added.
Proof.
  destruct (on_attributes_changed_cases toggle openai_ok translators
              changed_attributes) as [H | [l [e [_ [_ [_ [_ [_ [_ H]]]]]]]]].
  - exists []. rewrite app_nil_r. split; [cbn; lia | exact H].
  - exists [(l, new_translator toggle e)]. split; [cbn; lia | exact H].
Qed.

(** Once a signal has been handled with a constructor that works, a
    second handling changes nothing. *)
Lemma second_request_changes_nothing (toggle openai_ok : bool)
    (translators : dict Translator) (changed_attributes : dict text) :
  let once :=
    fst (on_attributes_changed toggle true translators changed_attributes) in
  fst (on_attributes_changed toggle openai_ok once changed_attributes) = once.
Proof.
  cbv zeta.
  destruct (on_attributes_changed_cases toggle true translators
              changed_attributes)
    as [H |[l [e [Hget [_ [Hnew [Hsrc [Hlang [Hv H]]]]]]]]]; rewrite H.
  - destruct (on_attributes_changed_cases toggle openai_ok translators
                changed_attributes)
      as [H' |[l [e [Hget [_ [Hnew [Hsrc [Hlang [Hv H']]]]]]]]];
      [exact H'|].
    destruct (register_new_language toggle translators changed_attributes
                l Hget Hlang Hsrc Hnew) as [e' [_ H2]].
    rewrite H in H2.
    apply (f_equal (@length _)) in H2. rewrite length_app in H2.
    cbn in H2. lia.
  - unfold on_attributes_changed. rewrite Hget.
    rewrite (supported_is_named l Hlang).
    destruct (text_eqb l source_language); [reflexivity|].
    assert (Hm : dict_mem l (translators ++ [(l, new_translator toggle e)])
                 = true).
    { apply dict_mem_keys. unfold dict_keys. rewrite map_app.
      apply in_or_app. right. now left. }
    now rewrite Hm.
Qed.

Lemma failed_request_changes_nothing (toggle : bool)
    (translators : dict Translator) (changed_attributes : dict text) :
  fst (on_attributes_changed toggle false translators changed_attributes) =
  translators.
Proof.
  destruct (on_attributes_changed_cases toggle false translators
              changed_attributes) as [H | [l [e [_ [H _]]]]];
    [exact H | discriminate H].
Qed.

(** X15 (asking twice is asking once).  Handling the same signal twice
    leaves the registry as one handling leaves it, the one handling being
    made with a constructor that works if it worked the first or the
    second time.  So when a translator could be constructed the first
    time, the second handling changes nothing, whether or not one could be
    constructed then; when none could be constructed the first time, the
    second handling does what a first one does.  Either way a language is
    never registered twice and an existing translator is never replaced by
    a new one. *)
Theorem registry_request_idempotent (toggle first_ok second_ok : bool)
    (translators : dict Translator) (changed_attributes : dict text) :
  fst (on_attributes_changed toggle second_ok
         (fst (on_attributes_changed toggle first_ok translators
                 changed_attributes))
         changed_attributes) =
  fst (on_attributes_changed toggle (first_ok || second_ok) translators
         changed_attributes).
Proof.
  destruct first_ok; cbn [orb].
  - apply second_request_changes_nothing.
  - now rewrite failed_request_changes_nothing.
Qed.

(** A first handling that fails and a second that succeeds: the language
    is registered by the second one. *)
Example request_again_after_failure :
  let changed := [(str "captions_language", str "fr")] in
  let reg := initial_translators false in
  dict_keys (fst (on_attributes_changed false false reg changed)) =
    [str "nl"] /\
  dict_keys
    (fst (on_attributes_changed false true
            (fst (on_attributes_changed false false reg changed)) changed)) =
    [str "nl"; str "fr"].
Proof. split; reflexivity. Qed.

(** What is logged when a new language is registered: the line of the
    constructor, then the four lines of the handler. *)
Example new_language_log :
  let changed := [(str "captions_language", str "fr")] in
  snd (on_attributes_changed false true (initial_translators false) changed) =
  [(INFO, AttributesChanged changed);
   (INFO, TranslatorInitialized (str "fr") false);
   (INFO, AddedTranslator (str "French"));
   (INFO, TotalTranslators [str "nl"; str "fr"]);
   (INFO, TranslatorsDictId);
   (INFO, TranslatorVerified (str "fr"))].
Proof. reflexivity. Qed.

(** X16 (a failing constructor changes nothing).  When a translator
    cannot be constructed, the handler leaves the registry as it is for
    every signal: the exception is caught, nothing half-built is
    inserted. *)
Theorem constructor_failure_keeps_registry (toggle : bool)
    (translators : dict Translator) (changed_attributes : dict text) :
  fst (on_attributes_changed toggle false translators changed_attributes) =
  translators.
Proof.
  destruct (on_attributes_changed_cases toggle false translators
              changed_attributes) as [H | [l [e [_ [H _]]]]];
    [exact H | discriminate H].
Qed.

(** X17 (no error without a failing constructor).  When translators can
    be constructed the handler logs no error line, whatever the signal and
    the registry: the enum member of a supported language is always found,
    and the check that the new translator is in the registry always
    passes. *)
Theorem handler_logs_no_error (toggle : bool)
    (translators : dict Translator) (changed_attributes : dict text) :
  Forall (fun r : LogRecord => fst r <> ERROR)
    (snd (on_attributes_changed toggle true translators changed_attributes)).
Proof.
  unfold on_attributes_changed.
  destruct (dict_get (str "captions_language") changed_attributes)
    as [l|] eqn:Hget; [|repeat constructor; discriminate].
  destruct (negb (nonempty l)); [repeat constructor; discriminate|].
  destruct (text_eqb l source_language);
    [repeat constructor; discriminate|].
  destruct (dict_mem l translators) eqn:Em;
    [repeat constructor; discriminate|].
  destruct (dict_get l languages) as [language_obj|] eqn:El;
    [|repeat constructor; discriminate].
  destruct (languages_enum l language_obj El) as [e [He Hv]].
  rewrite He. cbn [Translator_init snd].
  assert (Hm : dict_mem l (dict_set l (new_translator toggle e) translators)
               = true).
  { unfold dict_mem. now rewrite dict_get_set, text_eqb_refl. }
  rewrite Hm. repeat constructor; discriminate.
Qed.

(* ================================================================== *)
(** * More on the session: the accumulation buffer *)
(* ================================================================== *)






Lemma accumulated_cancel_pending (s : Session) :
  accumulated_text (cancel_pending s) = accumulated_text s.
Proof. unfold cancel_pending. now destruct (pending_translation_task s). Qed.

Lemma accumulated_clear_pending (s : Session) :
  accumulated_text (clear_pending s) = accumulated_text s.
Proof.
  unfold clear_pending.
  destruct (pending_translation_task s); [|reflexivity].
  apply accumulated_cancel_pending.
Qed.

Lemma accumulated_schedule_remaining (s : Session) :
  accumulated_text (schedule_remaining s) = accumulated_text s.
Proof.
  unfold schedule_remaining.
  destruct (nonempty (strip (accumulated_text s)));
    [apply accumulated_cancel_pending | apply accumulated_clear_pending].
Qed.


Lemma accumulated_translate_complete (w : World) (complete : list text)
    (remaining : text) (s : Session) :
  snd (translate_complete w complete remaining s) = Returned /\
  accumulated_text (fst (translate_complete w complete remaining s)) =
  if nonempty complete then remaining else accumulated_text s.
Proof.
  unfold translate_complete, call_translate_sentences.
  destruct (nonempty complete); [|split; reflexivity].
  rewrite translate_sentences_returns. split; reflexivity.
Qed.

(** The accumulated text after an accepted final transcript, when there
    are translators: the remainder of the extraction when sentences were
    found, the joined text otherwise. *)
Lemma forward_final_accumulated (w : World) (x : text) (s : Session) :
  let joined :=
    if nonempty (accumulated_text s)
    then strip (accumulated_text s) ++ space ++ strip x
    else strip x in
  accumulated_text (forward_final w x s) =
  if nonempty (strip x)
     && negb (text_eqb (strip x) (last_final_transcript s))
     && nonempty (translators s)
  then if nonempty (fst (_extract_complete_sentences joined))
       then snd (_extract_complete_sentences joined)
       else joined
  else accumulated_text s.
Proof.
  intros joined. unfold forward_final.
  destruct (nonempty (strip x)
            && negb (text_eqb (strip x) (last_final_transcript s)));
    [|reflexivity].
  cbn [andb translators with_effect with_last_final_transcript].
  destruct (nonempty (translators s)); [|reflexivity].
  set (s2 := accumulate (strip x)
               (with_effect (PublishFinal (strip x))
                  (with_last_final_transcript (strip x) s))).
  assert (H2 : accumulated_text s2 = joined).
  { unfold s2, accumulate, joined.
    cbn [accumulated_text with_effect with_last_final_transcript].
    now destruct (nonempty (accumulated_text s)). }
  clearbody joined. rewrite <- H2.
  destruct (_extract_complete_sentences (accumulated_text s2))
    as [complete remaining].
  cbn [fst snd].
  destruct (accumulated_translate_complete w complete remaining s2)
    as [Hc Ha].
  destruct (translate_complete w complete remaining s2) as [s3 completion].
  cbn [fst snd] in Hc, Ha. subst completion.
  now rewrite accumulated_schedule_remaining.
Qed.




(* ================================================================== *)
(** * More on the session: what the handlers do *)
(* ================================================================== *)

Lemma effects_cancel_pending (s : Session) :
  effects (cancel_pending s) = effects s /\
  translators (cancel_pending s) = translators s /\
  llm_calls (cancel_pending s) = llm_calls s.
Proof.
  unfold cancel_pending.
  destruct (pending_translation_task s); repeat split.
Qed.

Lemma effects_clear_pending (s : Session) :
  effects (clear_pending s) = effects s /\
  translators (clear_pending s) = translators s /\
  llm_calls (clear_pending s) = llm_calls s /\
  pending_translation_task (clear_pending s) = None.
Proof.
  unfold clear_pending.
  destruct (pending_translation_task s) eqn:E; [|repeat split; exact E].
  destruct (effects_cancel_pending s) as [A [B C]].
  repeat split; assumption.
Qed.

Lemma effects_schedule_remaining (s : Session) :
  effects (schedule_remaining s) = effects s /\
  translators (schedule_remaining s) = translators s.
Proof.
  unfold schedule_remaining.
  destruct (nonempty (strip (accumulated_text s))).
  - destruct (effects_cancel_pending s) as [A [B _]]. now split.
  - destruct (effects_clear_pending s) as [A [B _]]. now split.
Qed.

Lemma effects_translate_complete (w : World) (complete : list text)
    (remaining : text) (s : Session) :
  let d := _translate_sentences w (llm_calls s) (translators s) complete in
  effects (fst (translate_complete w complete remaining s)) =
    effects s ++
    (if nonempty complete
     then [TranslateSentences ForwardTranscription complete (d_calls d)]
     else []) /\
  translators (fst (translate_complete w complete remaining s)) =
    (if nonempty complete then d_translators d else translators s).
Proof.
  cbv zeta. unfold translate_complete, call_translate_sentences.
  destruct (nonempty complete); [|now rewrite app_nil_r].
  rewrite translate_sentences_returns.
  destruct (effects_clear_pending s) as [A [B [C _]]].
  cbn [fst effects translators with_accumulated_text with_effect
         with_translators].
  now rewrite A, B, C.
Qed.

Lemma forward_final_effects (w : World) (x : text) (s : Session) :
  let complete := fst (_extract_complete_sentences (joined_text x s)) in
  let d := _translate_sentences w (llm_calls s) (translators s) complete in
  effects (forward_final w x s) =
  effects s ++
  (if accepted x s then
     PublishFinal (strip x) ::
     (if nonempty (translators s) && nonempty complete
      then [TranslateSentences ForwardTranscription complete (d_calls d)]
      else [])
   else []).
Proof.
  intros complete d. unfold forward_final, accepted.
  destruct (nonempty (strip x)
            && negb (text_eqb (strip x) (last_final_transcript s)));
    [|now rewrite app_nil_r].
  cbn [translators with_effect with_last_final_transcript].
  destruct (nonempty (translators s)); [|reflexivity].
  set (s2 := accumulate (strip x)
               (with_effect (PublishFinal (strip x))
                  (with_last_final_transcript (strip x) s))).
  assert (H2 : accumulated_text s2 = joined_text x s /\
               effects s2 = effects s ++ [PublishFinal (strip x)] /\
               translators s2 = translators s /\
               llm_calls s2 = llm_calls s).
  { unfold s2, accumulate, joined_text.
    cbn [accumulated_text with_effect with_last_final_transcript].
    destruct (nonempty (accumulated_text s)); repeat split. }
  destruct H2 as [Ha [He [Ht Hn]]].
  subst complete d. rewrite <- Ha, <- Ht, <- Hn.
  destruct (_extract_complete_sentences (accumulated_text s2))
    as [complete remaining].
  cbn [fst andb].
  destruct (accumulated_translate_complete w complete remaining s2)
    as [Hc _].
  destruct (effects_translate_complete w complete remaining s2) as [Hf _].
  destruct (translate_complete w complete remaining s2) as [s3 completion].
  cbn [fst snd] in Hc, Hf. subst completion.
  destruct (effects_schedule_remaining s3) as [Hs _].
  rewrite Hs, Hf, He, <- app_assoc. reflexivity.
Qed.

(** X19 (what a final transcript does).  A final transcript that is
    empty once stripped, or equal to the last accepted one, has no effect.
    An accepted one is published once, as the first thing; then, if the
    buffer joined with it holds a terminal mark, the sentences extracted
    from the joined text are dispatched in one batch — and nothing else
    is published or dispatched. *)
Theorem final_transcript_effects (w : World) (x : text) (s : Session) :
  let complete := fst (_extract_complete_sentences (joined_text x s)) in
  let d := _translate_sentences w (llm_calls s) (translators s) complete in
  effects (forward_final w x s) =
  effects s ++
  (if accepted x s then
     PublishFinal (strip x) ::
     (if nonempty (translators s) && existsb is_terminal (joined_text x s)
      then [TranslateSentences ForwardTranscription complete (d_calls d)]
      else [])
   else []).
Proof.
  cbv zeta. rewrite <- extract_nonempty_iff_mark.
  apply forward_final_effects.
Qed.

(** X20 (what a final transcript leaves in the buffer).  After an
    accepted final transcript the accumulated text is the remainder of the
    extraction from the joined text when sentences were found, and the
    joined text itself otherwise; a final transcript that is not accepted
    leaves the buffer as it is. *)
Theorem final_transcript_buffer (w : World) (x : text) (s : Session) :
  accumulated_text (forward_final w x s) =
  if accepted x s && nonempty (translators s)
  then if existsb is_terminal (joined_text x s)
       then snd (_extract_complete_sentences (joined_text x s))
       else joined_text x s
  else accumulated_text s.
Proof.
  rewrite <- extract_nonempty_iff_mark.
  exact (forward_final_accumulated w x s).
Qed.

Lemma filter_none {A : Type} (f : A -> bool) (l : list A) :
  existsb f l = false -> filter f l = [].
Proof.
  induction l as [|a l IH]; [reflexivity|].
  simpl. destruct (f a); [discriminate | exact IH].
Qed.

Lemma step_dispatches_forward (toggle : bool) (w : World) (s : Session)
    (ev : Event) (id : task_id) :
  (forall id', ev <> TaskResumes id') ->
  filter (dispatched_by id) (effects (step toggle w s ev)) =
  filter (dispatched_by id) (effects s).
Proof.
  destruct ev as [t | t | changed ok | id']; intros H; cbn [step].
  - unfold forward_interim.
    destruct (nonempty (strip t)); [|reflexivity].
    cbn [effects with_effect]. rewrite filter_app. cbn. apply app_nil_r.
  - rewrite forward_final_effects, filter_app.
    destruct (accepted t s); [|cbn; apply app_nil_r].
    destruct (nonempty (translators s)
              && nonempty (fst (_extract_complete_sentences (joined_text t s))));
      cbn; apply app_nil_r.
  - destruct (on_attributes_changed toggle ok (translators s) changed)
      as [tr logs].
    destruct (fold_log_effects logs (with_translators tr (llm_calls s) s))
      as [_ [_ [_ [_ [_ [_ G]]]]]].
    rewrite G, filter_app. cbn [effects with_translators].
    rewrite (filter_none (dispatched_by id) (List.map Log logs));
      [apply app_nil_r|].
    clear. induction logs; simpl; auto.
  - now elim (H id').
Qed.

(** What a run of task [id] adds to the effects: no dispatch, or one
    dispatch of its own text, and that only when it was still waiting for
    its delay. *)
Lemma resume_effects (w : World) (id : task_id) (s : Session) :
  (forall id', filter (dispatched_by id')
                 (effects (delayed_translation_resume w id s)) =
               filter (dispatched_by id') (effects s)) \/
  (waiting_at (tasks s) id = true /\
   exists sentences calls,
     effects (delayed_translation_resume w id s) =
     effects s ++ [TranslateSentences (DelayedTranslation id) sentences calls]).
Proof.
  unfold delayed_translation_resume.
  destruct (nth_error (tasks s) id) as [t|] eqn:En; [|now left].
  pose proof (waiting_at_nth _ _ _ En) as Hw.
  destruct (task_state t) as [| |[|]|[|]| |]; try (now left).
  - destruct (match pending_translation_task s with
              | Some p => negb (task_cancelled (tasks s) p)
              | None => false
              end); [|now left].
    destruct (nonempty (strip (task_text t))); [|now left].
    right. split; [exact Hw|].
    unfold call_translate_sentences. rewrite translate_sentences_returns.
    cbn [effects with_tasks with_pending with_effect with_translators].
    eauto.
  - left. intros id'. cbn [effects with_tasks with_effect].
    rewrite filter_app. cbn. apply app_nil_r.
Qed.

Lemma step_dispatch_count (toggle : bool) (w : World) (s : Session)
    (ev : Event) :
  tasks_consistent s /\ dispatchers_done s /\
  (forall id, dispatch_count id s <= 1) ->
  forall id, dispatch_count id (step toggle w s ev) <= 1.
Proof.
  intros [Hc [Hd Hn]] id. unfold dispatch_count in *.
  destruct ev as [t | t | changed ok | id'];
    try (rewrite step_dispatches_forward by discriminate; apply Hn).
  cbn [step].
  destruct (resume_effects w id' s) as [E | [Hw [sentences [calls E]]]];
    rewrite E; [apply Hn|].
  rewrite filter_app, length_app. cbn [filter dispatched_by].
  destruct (Nat.eqb id id') eqn:Eid; cbn [length].
  - apply Nat.eqb_eq in Eid. subst id'.
    destruct (existsb (dispatched_by id) (effects s)) eqn:Ex.
    + apply Hd in Ex. destruct Ex as [_ Ex]. congruence.
    + rewrite (filter_none _ _ Ex). cbn. lia.
  - specialize (Hn id). lia.
Qed.

(** X21 (a delayed translation dispatches at most once).  In every run
    of the session, each delayed-translation task calls
    [_translate_sentences] at most once, however often the event loop runs
    it. *)
Theorem flush_dispatches_at_most_once (toggle : bool) (w : World)
    (evs : list Event) (id : task_id) :
  dispatch_count id (run toggle w (entrypoint toggle) evs) <= 1.
Proof.
  assert (H0 : tasks_consistent (entrypoint toggle) /\
               dispatchers_done (entrypoint toggle) /\
               (forall id, dispatch_count id (entrypoint toggle) <= 1)).
  { destruct (entrypoint_invariant toggle) as [A B].
    split; [exact A | split; [exact B|]]. intros id'. cbn. lia. }
  revert H0. generalize (entrypoint toggle).
  induction evs as [|ev evs IH]; intros s H; [apply H|].
  apply IH.
  destruct (step_invariant toggle w s ev (conj (proj1 H) (proj1 (proj2 H))))
    as [A B].
  split; [exact A|]. split; [exact B|].
  now apply step_dispatch_count.
Qed.

(** X22 (at most one delayed translation waits).  In every run of the
    session at most one delayed-translation task has still to run its
    body, and it is the one [pending_translation_task] names: all others
    have been cancelled or are done. *)
Theorem at_most_one_flush_waits (toggle : bool) (w : World)
    (evs : list Event) (id : task_id) :
  let s := run toggle w (entrypoint toggle) evs in
  waiting_at (tasks s) id = true ->
  pending_translation_task s = Some id.
Proof.
  intros s H.
  destruct (run_invariant toggle w evs _ (entrypoint_invariant toggle))
    as [Hc _].
  now apply Hc, waiting_live_at.
Qed.

Lemma at_most_one_flush_waits_witness :
  pending_translation_task
    (run false sample_world (entrypoint false)
       [FinalTranscript (str "Hello"); FinalTranscript (str "there")]) =
  Some 1.
Proof.
  apply (at_most_one_flush_waits false sample_world
           [FinalTranscript (str "Hello"); FinalTranscript (str "there")] 1).
  reflexivity.
Defined.

(* ================================================================== *)
(** * More on the session: the pending delayed translation *)
(* ================================================================== *)

Lemma nth_error_update_task (id : task_id) (f : TaskState -> TaskState)
    (ts : list Task) (id' : task_id) :
  nth_error (update_task id f ts) id' =
  if Nat.eqb id id'
  then option_map
         (fun t => {| task_text := task_text t;
                      task_state := f (task_state t) |})
         (nth_error ts id')
  else nth_error ts id'.
Proof.
  revert id id'.
  induction ts as [|t ts IH]; intros [|id] [|id']; simpl; try reflexivity.
  - now destruct (Nat.eqb id id').
  - apply IH.
Qed.

Lemma nth_error_set_state_self (id : task_id) (st : TaskState)
    (ts : list Task) (t : Task) :
  nth_error ts id = Some t ->
  nth_error (set_state id st ts) id =
  Some {| task_text := task_text t; task_state := st |}.
Proof.
  intros H. unfold set_state.
  now rewrite nth_error_update_task, Nat.eqb_refl, H.
Qed.

Lemma snapshot_set_state (id : task_id) (st : TaskState) (s : Session) :
  pending_snapshot s ->
  pending_snapshot (with_tasks (set_state id st (tasks s)) s).
Proof.
  intros H id' Hp. cbn [pending_translation_task with_tasks] in Hp.
  destruct (H id' Hp) as [t [En [Ht Hnb]]].
  cbn [tasks accumulated_text with_tasks]. unfold set_state.
  rewrite nth_error_update_task, En.
  destruct (Nat.eqb id id'); cbn; eauto.
Qed.

Lemma schedule_remaining_pending (s : Session) :
  let s' := schedule_remaining s in
  pending_translation_task s' = None \/
  exists ts,
    tasks s' = ts ++ [ {| task_text := accumulated_text s';
                          task_state := Scheduled |} ] /\
    pending_translation_task s' = Some (length ts) /\
    nonempty (strip (accumulated_text s')) = true.
Proof.
  cbv zeta. unfold schedule_remaining.
  destruct (nonempty (strip (accumulated_text s))) eqn:E.
  - right. exists (tasks (cancel_pending s)). unfold create_task.
    cbn [tasks pending_translation_task accumulated_text with_pending
           with_tasks].
    now rewrite accumulated_cancel_pending, E.
  - left. apply effects_clear_pending.
Qed.

Lemma snapshot_after_schedule (s : Session) :
  pending_snapshot (schedule_remaining s).
Proof.
  destruct (schedule_remaining_pending s) as [H | [ts [Ht [Hp Hnb]]]];
    intros id Hid.
  - congruence.
  - rewrite Hp in Hid. injection Hid as <-.
    rewrite Ht, nth_error_app2, Nat.sub_diag by lia. cbn. eauto.
Qed.

Lemma forward_final_snapshot (w : World) (x : text) (s : Session) :
  pending_snapshot s -> pending_snapshot (forward_final w x s).
Proof.
  intros H. unfold forward_final.
  destruct (nonempty (strip x)
            && negb (text_eqb (strip x) (last_final_transcript s)));
    [|exact H].
  cbn [translators with_effect with_last_final_transcript].
  destruct (nonempty (translators s)); [|exact H].
  set (s2 := accumulate (strip x) _).
  destruct (_extract_complete_sentences (accumulated_text s2))
    as [complete remaining].
  destruct (accumulated_translate_complete w complete remaining s2)
    as [Hc _].
  destruct (translate_complete w complete remaining s2) as [s3 completion].
  cbn [snd] in Hc. subst completion.
  apply snapshot_after_schedule.
Qed.

Lemma resume_snapshot (w : World) (id : task_id) (s : Session) :
  pending_snapshot s -> pending_snapshot (delayed_translation_resume w id s).
Proof.
  intros H. unfold delayed_translation_resume.
  destruct (nth_error (tasks s) id) as [t|]; [|exact H].
  assert (Hnone : forall s1 : Session,
             pending_translation_task s1 = None -> pending_snapshot s1)
    by (intros s1 E id' Hid; congruence).
  destruct (task_state t) as [| |[|]|[|]| |];
    try exact H; try (now apply snapshot_set_state);
    try (now apply Hnone).
  - destruct (match pending_translation_task s with
              | Some p => negb (task_cancelled (tasks s) p)
              | None => false
              end); [|now apply snapshot_set_state].
    unfold call_translate_sentences.
    destruct (nonempty (strip (task_text t))); [|now apply Hnone].
    rewrite translate_sentences_returns.
    exact (snapshot_set_state id (Dispatching false) _ H).
  - exact (snapshot_set_state id Finished _ H).
Qed.

Lemma step_snapshot (toggle : bool) (w : World) (s : Session) (ev : Event) :
  pending_snapshot s -> pending_snapshot (step toggle w s ev).
Proof.
  intros H. destruct ev as [t | t | changed ok | id]; cbn [step].
  - unfold forward_interim. now destruct (nonempty (strip t)).
  - now apply forward_final_snapshot.
  - destruct (on_attributes_changed toggle ok (translators s) changed)
      as [tr logs].
    destruct (fold_log_effects logs (with_translators tr (llm_calls s) s))
      as [_ [B [_ [D [E _]]]]].
    intros id. rewrite D, E, B. apply H.
  - now apply resume_snapshot.
Qed.

Lemma run_snapshot (toggle : bool) (w : World) (evs : list Event) :
  pending_snapshot (run toggle w (entrypoint toggle) evs).
Proof.
  assert (H0 : pending_snapshot (entrypoint toggle))
    by (intros id H; discriminate H).
  revert H0. generalize (entrypoint toggle).
  induction evs as [|ev evs IH]; intros s H; [exact H|].
  apply IH, step_snapshot, H.
Qed.

Lemma run_pending_task (toggle : bool) (w : World) (evs : list Event)
    (id : task_id) :
  let s := run toggle w (entrypoint toggle) evs in
  pending_translation_task s = Some id ->
  exists t,
    nth_error (tasks s) id = Some t /\
    task_text t = accumulated_text s /\
    nonempty (strip (accumulated_text s)) = true /\
    live (task_state t) = true.
Proof.
  intros s Hp. subst s.
  destruct (run_snapshot toggle w evs id Hp) as [t [En [Ht Hnb]]].
  destruct (run_invariant toggle w evs _ (entrypoint_invariant toggle))
    as [Hc _].
  apply Hc in Hp. rewrite (live_at_nth _ _ _ En) in Hp.
  eauto.
Qed.

(** X23 (the pending delayed translation holds the buffer).  In every
    run of the session, the task [pending_translation_task] names exists
    and was created with exactly the text the buffer holds now, which is
    not blank: no pending delayed translation carries a stale snapshot.
    The task has not been asked to cancel and has not returned: it waits
    for its delay, or it has passed its wake-up check and awaits its
    dispatch. *)
Theorem pending_flush_holds_buffer (toggle : bool) (w : World)
    (evs : list Event) (id : task_id) :
  let s := run toggle w (entrypoint toggle) evs in
  pending_translation_task s = Some id ->
  exists t,
    nth_error (tasks s) id = Some t /\
    task_text t = accumulated_text s /\
    nonempty (strip (accumulated_text s)) = true /\
    (task_state t = Scheduled \/ task_state t = Sleeping \/
     task_state t = Dispatching false).
Proof.
  intros s Hp.
  destruct (run_pending_task toggle w evs id Hp) as [t [En [Ht [Hnb Hl]]]].
  exists t. repeat split; try assumption.
  destruct (task_state t) as [| |[|]|[|]| |]; try discriminate Hl; auto.
Qed.

Lemma pending_flush_holds_buffer_witness :
  let s := run false sample_world (entrypoint false)
             [FinalTranscript (str "One. Two"); TaskResumes 0;
              TaskResumes 0] in
  exists t,
    nth_error (tasks s) 0 = Some t /\
    task_text t = accumulated_text s /\
    nonempty (strip (accumulated_text s)) = true /\
    (task_state t = Scheduled \/ task_state t = Sleeping \/
     task_state t = Dispatching false).
Proof.
  apply (pending_flush_holds_buffer false sample_world
           [FinalTranscript (str "One. Two"); TaskResumes 0;
            TaskResumes 0] 0).
  reflexivity.
Defined.

(** The pending delayed translation of that run is in its dispatch: it is
    pending and does not wait for its delay any more. *)
Example pending_flush_in_dispatch :
  let s := run false sample_world (entrypoint false)
             [FinalTranscript (str "One. Two"); TaskResumes 0;
              TaskResumes 0] in
  pending_translation_task s = Some 0 /\
  state_at (tasks s) 0 = Some (Dispatching false) /\
  waiting_at (tasks s) 0 = false.
Proof. repeat split. Qed.

Lemma run_dutch (toggle : bool) (w : World) (evs : list Event) :
  dutch_invariant (run toggle w (entrypoint toggle) evs).
Proof.
  assert (H0 : dutch_invariant (entrypoint toggle)).
  { split; [now left | constructor]. }
  revert H0. generalize (entrypoint toggle).
  induction evs as [|ev evs IH]; intros s H; [exact H|].
  apply IH, dutch_step, H.
Qed.

(** A sleeping task that is the pending one and whose text is not blank
    dispatches its text and suspends in the dispatch. *)
Lemma resume_fires (w : World) (id : task_id) (s : Session) (t : Task) :
  nth_error (tasks s) id = Some t ->
  task_state t = Sleeping ->
  pending_translation_task s = Some id ->
  nonempty (strip (task_text t)) = true ->
  let d := _translate_sentences w (llm_calls s) (translators s)
             [task_text t] in
  delayed_translation_resume w id s =
  with_tasks (set_state id (Dispatching false) (tasks s))
    (with_effect
       (TranslateSentences (DelayedTranslation id) [task_text t]
          (d_calls d))
       (with_translators (d_translators d) (d_next d) s)).
Proof.
  intros En Est Hp Hnb. cbv zeta.
  unfold delayed_translation_resume. rewrite En, Est, Hp.
  unfold task_cancelled. rewrite En, Est. cbn [cancelled negb].
  rewrite Hnb. unfold call_translate_sentences.
  now rewrite translate_sentences_returns.
Qed.

(** A task whose dispatch has returned clears [pending_translation_task]
    and returns. *)
Lemma resume_returns (w : World) (id : task_id) (s : Session) (t : Task) :
  nth_error (tasks s) id = Some t ->
  task_state t = Dispatching false ->
  delayed_translation_resume w id s =
  with_tasks (set_state id Finished (tasks s)) (with_pending None s).
Proof.
  intros En Est. unfold delayed_translation_resume. now rewrite En, Est.
Qed.

(** A task that has returned stays as it is. *)
Lemma resume_finished (w : World) (id : task_id) (s : Session) (t : Task) :
  nth_error (tasks s) id = Some t ->
  task_state t = Finished ->
  delayed_translation_resume w id s = s.
Proof.
  intros En Est. unfold delayed_translation_resume. now rewrite En, Est.
Qed.

(** A pending task that sleeps, run twice: it dispatches its text, and
    when the dispatch has returned it clears [pending_translation_task]. *)
Lemma sleeping_flush_fires (w : World) (id : task_id) (s : Session)
    (t : Task) :
  nth_error (tasks s) id = Some t ->
  task_state t = Sleeping ->
  pending_translation_task s = Some id ->
  nonempty (strip (task_text t)) = true ->
  let d := _translate_sentences w (llm_calls s) (translators s)
             [task_text t] in
  let s' := delayed_translation_resume w id
              (delayed_translation_resume w id s) in
  pending_translation_task s' = None /\
  accumulated_text s' = accumulated_text s /\
  effects s' =
    effects s ++
    [TranslateSentences (DelayedTranslation id) [task_text t] (d_calls d)] /\
  exists t', nth_error (tasks s') id = Some t' /\ task_state t' = Finished.
Proof.
  intros En Est Hp Hnb. cbv zeta.
  rewrite (resume_fires w id s t En Est Hp Hnb).
  set (s1 := with_tasks _ _).
  assert (En1 : nth_error (tasks s1) id =
                Some {| task_text := task_text t;
                        task_state := Dispatching false |}).
  { unfold s1. cbn [tasks with_tasks with_effect with_translators].
    now apply nth_error_set_state_self. }
  rewrite (resume_returns w id s1 _ En1 eq_refl).
  cbn [pending_translation_task accumulated_text effects tasks
         with_tasks with_pending].
  repeat split.
  eexists. split; [now apply (nth_error_set_state_self _ _ _ _ En1)|].
  reflexivity.
Qed.

Lemma single_sentence_targets (w : World) (n : nat)
    (translators : dict Translator) (sentence : text) :
  nonempty translators = true ->
  nonempty (strip sentence) = true ->
  call_targets (d_calls (_translate_sentences w n translators [sentence])) =
  targets_of translators sentence.
Proof.
  intros Hne Hnb.
  destruct (translate_sentences_registry w n translators [sentence])
    as [_ Hc].
  rewrite (Hc Hne). cbn [filter]. rewrite Hnb. cbn [flat_map].
  apply app_nil_r.
Qed.

(** X24 (a delayed translation left alone fires).  In every run of the
    session, when a delayed translation is pending and still waits for its
    delay, and the event loop runs it to its end with no other event in
    between (once to reach the sleep, once when the delay is over, once
    when its dispatch has returned), the task dispatches the text of the
    buffer as one sentence to every translator of the registry, and
    [pending_translation_task] becomes empty.  The buffer itself is left
    as it is: the text stays accumulated after it has been translated. *)
Theorem flush_left_alone_fires (toggle : bool) (w : World)
    (evs : list Event) (id : task_id) :
  let s := run toggle w (entrypoint toggle) evs in
  pending_translation_task s = Some id ->
  waiting_at (tasks s) id = true ->
  let s' := run toggle w s [TaskResumes id; TaskResumes id; TaskResumes id] in
  pending_translation_task s' = None /\
  accumulated_text s' = accumulated_text s /\
  exists calls,
    effects s' =
      effects s ++
      [TranslateSentences (DelayedTranslation id) [accumulated_text s]
         calls] /\
    call_targets calls = targets_of (translators s) (accumulated_text s).
Proof.
  intros s Hp Hw.
  destruct (run_pending_task toggle w evs id Hp) as [t [En [Ht [Hnb _]]]].
  fold s in En, Ht, Hnb.
  rewrite (waiting_at_nth _ _ _ En) in Hw.
  assert (Hne : nonempty (translators s) = true).
  { destruct (run_dutch toggle w evs) as [Hd _]. fold s in Hd.
    destruct (translators s); [destruct Hd | reflexivity]. }
  rewrite <- Ht in Hnb.
  cbn [run fold_left step].
  destruct (task_state t) eqn:Est; try discriminate Hw.
  - (* the task has not started yet *)
    assert (E1 : delayed_translation_resume w id s =
                 with_tasks (set_state id Sleeping (tasks s)) s).
    { unfold delayed_translation_resume. now rewrite En, Est. }
    rewrite E1.
    set (s0 := with_tasks (set_state id Sleeping (tasks s)) s).
    pose proof (nth_error_set_state_self id Sleeping (tasks s) t En) as En0.
    destruct (sleeping_flush_fires w id s0 _ En0 eq_refl Hp Hnb)
      as [A [B [C _]]].
    rewrite A, B, C.
    cbn [task_text accumulated_text effects with_tasks translators
           llm_calls s0].
    rewrite <- Ht. repeat split. eexists. split; [reflexivity|].
    now apply single_sentence_targets.
  - (* the task sleeps already *)
    destruct (sleeping_flush_fires w id s t En Est Hp Hnb)
      as [A [B [C [t' [En' Est']]]]].
    rewrite (resume_finished w id _ t' En' Est'), A, B, C.
    rewrite <- Ht. repeat split. eexists. split; [reflexivity|].
    now apply single_sentence_targets.
Qed.

Lemma flush_left_alone_fires_witness :
  let s := run false sample_world (entrypoint false)
             [FinalTranscript (str "Hello")] in
  let s' := run false sample_world s
              [TaskResumes 0; TaskResumes 0; TaskResumes 0] in
  pending_translation_task s' = None /\
  accumulated_text s' = accumulated_text s /\
  exists calls,
    effects s' =
      effects s ++
      [TranslateSentences (DelayedTranslation 0) [accumulated_text s]
         calls] /\
    call_targets calls = targets_of (translators s) (accumulated_text s).
Proof.
  apply (flush_left_alone_fires false sample_world
           [FinalTranscript (str "Hello")] 0).
  - reflexivity.
  - reflexivity.
Defined.

(* ================================================================== *)
(** * More on the session: the registry *)
(* ================================================================== *)

Lemma dict_keys_langs (translators : dict Translator) :
  dict_keys translators = List.map fst (registry_langs translators).
Proof. unfold dict_keys, registry_langs. now rewrite map_map. Qed.

Lemma registry_ok_langs (tr1 tr2 : dict Translator) :
  registry_langs tr2 = registry_langs tr1 ->
  registry_ok tr1 -> registry_ok tr2.
Proof.
  unfold registry_ok. rewrite !dict_keys_langs. now intros ->.
Qed.

Lemma NoDup_snoc {A : Type} (l : list A) (a : A) :
  NoDup l -> ~ In a l -> NoDup (l ++ [a]).
Proof.
  induction 1 as [|b l Hb Hl IH]; intros Ha.
  - repeat constructor. intros [].
  - cbn. constructor.
    + intros Hin. apply in_app_or in Hin. destruct Hin as [Hin | [-> | []]].
      * contradiction.
      * apply Ha. now left.
    + apply IH. intros Hin. apply Ha. now right.
Qed.

Lemma registry_ok_attributes (toggle openai_ok : bool)
    (translators : dict Translator) (changed : dict text) :
  registry_ok translators ->
  registry_ok
    (fst (on_attributes_changed toggle openai_ok translators changed)).
Proof.
  intros [Hnd Hall].
  destruct (on_attributes_changed_cases toggle openai_ok translators changed)
    as [H | [l [e [_ [_ [Hnew [Hsrc [Hlang [Hv H]]]]]]]]]; rewrite H.
  - now split.
  - split.
    + assert (Hk : dict_keys (translators ++ [(l, new_translator toggle e)])
                   = dict_keys translators ++ [l])
        by (unfold dict_keys; now rewrite map_app).
      rewrite Hk. apply NoDup_snoc; [exact Hnd|].
      intros Hin. apply (proj2 (dict_mem_keys l translators)) in Hin.
      congruence.
    + unfold registry_langs. rewrite map_app. apply Forall_app.
      split; [exact Hall|]. constructor; [|constructor].
      repeat split; assumption.
Qed.

Lemma registry_langs_forward_final (w : World) (x : text) (s : Session) :
  registry_langs (translators (forward_final w x s)) =
  registry_langs (translators s).
Proof.
  unfold forward_final.
  destruct (nonempty (strip x)
            && negb (text_eqb (strip x) (last_final_transcript s)));
    [|reflexivity].
  cbn [translators with_effect with_last_final_transcript].
  destruct (nonempty (translators s)); [|reflexivity].
  set (s2 := accumulate (strip x) _).
  assert (H2 : translators s2 = translators s).
  { unfold s2, accumulate.
    cbn [accumulated_text with_effect with_last_final_transcript].
    now destruct (nonempty (accumulated_text s)). }
  destruct (_extract_complete_sentences (accumulated_text s2))
    as [complete remaining].
  destruct (accumulated_translate_complete w complete remaining s2)
    as [Hc _].
  destruct (effects_translate_complete w complete remaining s2) as [_ Ht].
  destruct (translate_complete w complete remaining s2) as [s3 completion].
  cbn [fst snd] in Hc, Ht. subst completion.
  destruct (effects_schedule_remaining s3) as [_ Hs].
  rewrite Hs, Ht, <- H2.
  destruct (nonempty complete); [|reflexivity].
  apply translate_sentences_registry.
Qed.

Lemma registry_langs_resume (w : World) (id : task_id) (s : Session) :
  registry_langs (translators (delayed_translation_resume w id s)) =
  registry_langs (translators s).
Proof.
  unfold delayed_translation_resume, call_translate_sentences.
  destruct (nth_error (tasks s) id) as [t|]; [|reflexivity].
  destruct (task_state t) as [| |[|]|[|]| |]; try reflexivity.
  destruct (match pending_translation_task s with
            | Some p => negb (task_cancelled (tasks s) p)
            | None => false
            end); [|reflexivity].
  destruct (nonempty (strip (task_text t))); [|reflexivity].
  rewrite translate_sentences_returns.
  cbn [translators with_tasks with_pending with_effect with_translators].
  apply translate_sentences_registry.
Qed.

Lemma step_registry_ok (toggle : bool) (w : World) (s : Session)
    (ev : Event) :
  registry_ok (translators s) ->
  registry_ok (translators (step toggle w s ev)).
Proof.
  intros H. destruct ev as [t | t | changed ok | id]; cbn [step].
  - unfold forward_interim. now destruct (nonempty (strip t)).
  - revert H. apply registry_ok_langs, registry_langs_forward_final.
  - pose proof (registry_ok_attributes toggle ok (translators s) changed H)
      as H1.
    destruct (on_attributes_changed toggle ok (translators s) changed)
      as [tr logs].
    destruct (fold_log_effects logs (with_translators tr (llm_calls s) s))
      as [A _].
    now rewrite A.
  - revert H. apply registry_ok_langs, registry_langs_resume.
Qed.

Lemma entry_values (rl : list (text * LanguageCode)) :
  Forall entry_ok rl ->
  List.map (fun kt => value (snd kt)) rl = List.map fst rl.
Proof.
  induction 1 as [|ke rl [Hv _] Hrl IH]; [reflexivity|].
  cbn. now rewrite Hv, IH.
Qed.

(** X25 (the registry stays sound).  In every run of the session the
    keys of the registry are distinct, and each key is a supported
    language other than the source language and is the code of the
    language its translator translates into; so the translators of a
    session translate into distinct languages, and none of them into
    Arabic. *)
Theorem session_registry_sound (toggle : bool) (w : World)
    (evs : list Event) :
  let registry := translators (run toggle w (entrypoint toggle) evs) in
  registry_ok registry /\
  registry_values registry = dict_keys registry /\
  NoDup (registry_values registry).
Proof.
  cbv zeta.
  assert (H : registry_ok (translators (run toggle w (entrypoint toggle) evs))).
  { assert (H0 : registry_ok (translators (entrypoint toggle))).
    { split.
      - repeat constructor. intros [].
      - repeat constructor. discriminate. }
    revert H0. generalize (entrypoint toggle).
    induction evs as [|ev evs IH]; intros s H; [exact H|].
    apply IH, step_registry_ok, H. }
  assert (E : registry_values
                (translators (run toggle w (entrypoint toggle) evs)) =
              dict_keys (translators (run toggle w (entrypoint toggle) evs))).
  { unfold registry_values. rewrite dict_keys_langs.
    apply entry_values, H. }
  split; [exact H|]. split; [exact E|]. rewrite E. apply H.
Qed.

(* ================================================================== *)
(** * More on reading the LLM stream and on duplicates *)
(* ================================================================== *)

(** X26 (nothing is read after the completion signal).  Reading a
    stream that starts with some chunks: if one of them is a delta without
    content, the translation is the content before it and whatever
    follows — more content, or an exception — is never looked at;
    otherwise the content of the chunks is kept and reading goes on with
    the rest of the stream. *)
Theorem stream_read_stops_at_signal (chunks : list ChatChunk)
    (tail : Stream) (translated_message : text) :
  collect_stream translated_message (stream_append chunks tail) =
  if existsb completion_signal chunks
  then Some (translated_message
             ++ concat (content_tokens (until_completion chunks)))
  else collect_stream
         (translated_message ++ concat (content_tokens chunks)) tail.
Proof.
  revert translated_message.
  induction chunks as [|chunk chunks IH]; intros acc.
  - simpl. now rewrite app_nil_r.
  - cbn [stream_append collect_stream existsb until_completion].
    destruct (delta chunk) as [d|] eqn:Ed;
      [destruct (delta_content d) as [c|] eqn:Ec|].
    + assert (Hs : completion_signal chunk = false)
        by (unfold completion_signal; now rewrite Ed, Ec).
      assert (Hc : forall l, content_tokens (chunk :: l)
                             = c :: content_tokens l)
        by (intros l; unfold content_tokens; cbn [flat_map];
            now rewrite Ed, Ec).
      rewrite Hs, IH, !Hc. cbn [orb concat]. now rewrite !app_assoc.
    + assert (Hs : completion_signal chunk = true)
        by (unfold completion_signal; now rewrite Ed, Ec).
      rewrite Hs. cbn. now rewrite app_nil_r.
    + assert (Hs : completion_signal chunk = false)
        by (unfold completion_signal; now rewrite Ed).
      assert (Hc : forall l, content_tokens (chunk :: l) = content_tokens l)
        by (intros l; unfold content_tokens; cbn [flat_map];
            now rewrite Ed).
      now rewrite Hs, IH, !Hc.
Qed.

(** X27 (only the immediately preceding final is a duplicate).  A final
    transcript is compared with the last accepted one only: after [x] and
    then a different transcript [y], both not blank, [x] is accepted
    again — it will be published and accumulated a second time. *)
Theorem repeated_final_accepted_after_another (toggle : bool) (w : World)
    (s : Session) (x y : text) :
  strip x <> [] -> strip y <> [] -> strip x <> strip y ->
  accepted x
    (run toggle w s [FinalTranscript x; FinalTranscript y]) = true.
Proof.
  intros Hx Hy Hxy. cbn [run fold_left step].
  destruct (forward_final_last w x s) as [H | H]; [contradiction|].
  set (s1 := forward_final w x s) in *.
  assert (H2 : last_final_transcript (forward_final w y s1) = strip y).
  { destruct (forward_final_last w y s1) as [H' | H']; [contradiction|].
    exact H'. }
  unfold accepted. rewrite H2.
  destruct (strip x) as [|c r] eqn:Ex; [now elim Hx|].
  cbn [nonempty andb].
  destruct (text_eqb (c :: r) (strip y)) eqn:E; [|reflexivity].
  apply text_eqb_eq in E. contradiction.
Qed.

Lemma repeated_final_accepted_after_another_witness :
  accepted (str "Amen")
    (run false sample_world (entrypoint false)
       [FinalTranscript (str "Amen"); FinalTranscript (str "and")]) = true.
Proof.
  apply (repeated_final_accepted_after_another false sample_world
           (entrypoint false) (str "Amen") (str "and")); discriminate.
Defined.

(* ================================================================== *)
(** * More on the session: delayed translations that are not pending *)
(* ================================================================== *)

(** A task that is not on its way, when it runs, touches nothing but its
    own state: it is done already, or it gets [CancelledError]. *)
Lemma resume_not_live (w : World) (id : task_id) (s : Session) :
  live_at (tasks s) id = false ->
  let s' := delayed_translation_resume w id s in
  pending_translation_task s' = pending_translation_task s /\
  translators s' = translators s /\
  accumulated_text s' = accumulated_text s /\
  (effects s' = effects s \/
   effects s' = effects s ++ [DispatchInterrupted id]).
Proof.
  intros Hl. cbv zeta. unfold delayed_translation_resume.
  destruct (nth_error (tasks s) id) as [t|] eqn:En; [|now auto].
  rewrite (live_at_nth _ _ _ En) in Hl.
  destruct (task_state t) as [| |[|]|[|]| |]; try discriminate Hl;
    cbn [pending_translation_task translators accumulated_text effects
           with_tasks with_effect]; auto.
Qed.

(** X28 (only the pending delayed translation acts).  In every run of
    the session, when the event loop runs a delayed-translation task that
    [pending_translation_task] does not name, the task dispatches nothing
    and leaves [pending_translation_task], the registry and the buffer as
    they are: a task that was superseded, even in the middle of its
    dispatch, takes the [except] branch and does not clear the newer
    pending task. *)
Theorem superseded_flush_leaves_pending (toggle : bool) (w : World)
    (evs : list Event) (id : task_id) :
  let s := run toggle w (entrypoint toggle) evs in
  pending_translation_task s <> Some id ->
  let s' := step toggle w s (TaskResumes id) in
  pending_translation_task s' = pending_translation_task s /\
  translators s' = translators s /\
  accumulated_text s' = accumulated_text s /\
  (effects s' = effects s \/
   effects s' = effects s ++ [DispatchInterrupted id]).
Proof.
  intros s Hp. cbn [step]. apply resume_not_live.
  destruct (run_invariant toggle w evs _ (entrypoint_invariant toggle))
    as [Hc _]. fold s in Hc.
  destruct (live_at (tasks s) id) eqn:E; [|reflexivity].
  apply Hc in E. contradiction.
Qed.

Lemma superseded_flush_leaves_pending_witness :
  let s := run false sample_world (entrypoint false)
             [FinalTranscript (str "Hello"); TaskResumes 0; TaskResumes 0;
              FinalTranscript (str "there")] in
  let s' := step false sample_world s (TaskResumes 0) in
  pending_translation_task s' = pending_translation_task s /\
  translators s' = translators s /\
  accumulated_text s' = accumulated_text s /\
  (effects s' = effects s \/
   effects s' = effects s ++ [DispatchInterrupted 0]).
Proof.
  apply (superseded_flush_leaves_pending false sample_world
           [FinalTranscript (str "Hello"); TaskResumes 0; TaskResumes 0;
            FinalTranscript (str "there")] 0).
  discriminate.
Defined.

(** In that run the first task is superseded in the middle of its
    dispatch by a newer one, which stays pending when the first gets
    its cancellation. *)
Example newer_flush_survives_interrupted_one :
  let s := run false sample_world (entrypoint false)
             [FinalTranscript (str "Hello"); TaskResumes 0; TaskResumes 0;
              FinalTranscript (str "there"); TaskResumes 0] in
  pending_translation_task s = Some 1 /\
  state_at (tasks s) 0 = Some Finished /\
  state_at (tasks s) 1 = Some Scheduled /\
  accumulated_text s = str "Hello there".
Proof. repeat split. Qed.

(* ================================================================== *)
(** * The registry of a session and unsupported languages *)
(* ================================================================== *)

Lemma run_registry_ok (toggle : bool) (w : World) (evs : list Event) :
  registry_ok (translators (run toggle w (entrypoint toggle) evs)).
Proof.
  assert (H0 : registry_ok (translators (entrypoint toggle))).
  { split.
    - repeat constructor. intros [].
    - repeat constructor. discriminate. }
  revert H0. generalize (entrypoint toggle).
  induction evs as [|ev evs IH]; intros s H; [exact H|].
  apply IH, step_registry_ok, H.
Qed.

Lemma registry_ok_supported (translators : dict Translator) :
  registry_ok translators -> supported_keys translators.
Proof.
  intros [_ H] k Hk.
  apply dict_mem_keys in Hk. rewrite dict_keys_langs in Hk.
  apply in_map_iff in Hk. destruct Hk as [ke [<- Hin]].
  rewrite Forall_forall in H. now apply (H ke Hin).
Qed.

(** What the handler does with a code that is not in the table, for a
    registry whose keys are supported languages. *)
Lemma on_attributes_changed_unsupported (toggle openai_ok : bool)
    (reg : dict Translator) (changed_attributes : dict text) (l : text) :
  supported_keys reg ->
  dict_get (str "captions_language") changed_attributes = Some l ->
  dict_mem l languages = false ->
  on_attributes_changed toggle openai_ok reg changed_attributes =
  (reg,
   (INFO, AttributesChanged changed_attributes) ::
   (if nonempty l
    then [(WARNING, UnsupportedLanguage l);
          (INFO, SupportedLanguages (dict_keys languages))]
    else [(DEBUG, NoCaptionLanguageChange)])).
Proof.
  intros Hreg Hget Hlang. unfold on_attributes_changed. rewrite Hget.
  destruct (nonempty l) eqn:Hl; cbn [negb]; [|reflexivity].
  assert (Hsrc : text_eqb l source_language = false).
  { destruct (text_eqb l source_language) eqn:E; [|reflexivity].
    apply text_eqb_eq in E. rewrite E in Hlang. discriminate. }
  assert (Hm : dict_mem l reg = false).
  { destruct (dict_mem l reg) eqn:E; [|reflexivity].
    apply Hreg in E. congruence. }
  rewrite Hsrc, Hm.
  unfold dict_mem in Hlang.
  destruct (dict_get l languages); [discriminate | reflexivity].
Qed.

(** ** C8 *)

(** C8 (registry rejection of unsupported languages), amended.  At any
    point of any session, whatever transcripts, language requests and
    delayed translations came before, take a language-request signal whose
    code is not in the table of supported languages.
    - When the code is not empty, the handler leaves the registry as it
      is (no translator is constructed, no entry inserted) and returns
      after logging the unsupported language as a warning, followed by the
      list of supported ones.
    - When the code is empty, the handler takes the signal for no change
      of language: it leaves the registry as it is and logs a debug line
      only.
    In both cases the session goes on with the same registry, and the
    lines the handler logged are all the event adds to what the session
    did. *)
Theorem unsupported_language_rejected (toggle : bool) (w : World)
    (evs : list Event) (openai_ok : bool) (changed_attributes : dict text)
    (l : text) :
  dict_get (str "captions_language") changed_attributes = Some l ->
  dict_mem l languages = false ->
  let s := run toggle w (entrypoint toggle) evs in
  let s' := step toggle w s
              (AttributesChangedEvent changed_attributes openai_ok) in
  let logged :=
    (INFO, AttributesChanged changed_attributes) ::
    (if nonempty l
     then [(WARNING, UnsupportedLanguage l);
           (INFO, SupportedLanguages (dict_keys languages))]
     else [(DEBUG, NoCaptionLanguageChange)]) in
  on_attributes_changed toggle openai_ok (translators s) changed_attributes =
    (translators s, logged) /\
  translators s' = translators s /\
  effects s' = effects s ++ List.map Log logged.
Proof.
  intros Hget Hlang s s' logged.
  assert (H : on_attributes_changed toggle openai_ok (translators s)
                changed_attributes = (translators s, logged)).
  { apply on_attributes_changed_unsupported; [|exact Hget | exact Hlang].
    apply registry_ok_supported, run_registry_ok. }
  split; [exact H|].
  unfold s'. cbn [step]. rewrite H.
  destruct (fold_log_effects logged
              (with_translators (translators s) (llm_calls s) s))
    as [A [_ [_ [_ [_ [_ G]]]]]].
  rewrite A, G. split; reflexivity.
Qed.

Lemma unsupported_language_rejected_witness :
  let changed := [(str "captions_language", str "xx")] in
  let s := run false sample_world (entrypoint false)
             [AttributesChangedEvent [(str "captions_language", str "fr")]
                true;
              FinalTranscript (str "Hello.")] in
  let s' := step false sample_world s (AttributesChangedEvent changed true) in
  let logged :=
    [(INFO, AttributesChanged changed);
     (WARNING, UnsupportedLanguage (str "xx"));
     (INFO, SupportedLanguages (dict_keys languages))] in
  on_attributes_changed false true (translators s) changed =
    (translators s, logged) /\
  translators s' = translators s /\
  effects s' = effects s ++ List.map Log logged.
Proof.
  apply (unsupported_language_rejected false sample_world
           [AttributesChangedEvent [(str "captions_language", str "fr")]
              true;
            FinalTranscript (str "Hello.")]
           true [(str "captions_language", str "xx")] (str "xx")).
  - reflexivity.
  - reflexivity.
Defined.

(** The empty code in a session: the registry stays and one debug line
    follows the line that reports the signal. *)
Example empty_code_is_no_change :
  let changed := [(str "captions_language", [])] in
  let s := run false sample_world (entrypoint false) [] in
  on_attributes_changed false true (translators s) changed =
  (translators s,
   [(INFO, AttributesChanged changed); (DEBUG, NoCaptionLanguageChange)]).
Proof. reflexivity. Qed.

(* ================================================================== *)
(** * The extractor: reconstruction *)
(* ================================================================== *)

Lemma blank_app (a b : text) :
  blank a = true -> blank b = true -> blank (a ++ b) = true.
Proof.
  unfold blank. intros Ha Hb. rewrite forallb_app. now rewrite Ha, Hb.
Qed.

Lemma blank_rev (a : text) : blank a = true -> blank (rev a) = true.
Proof.
  unfold blank. rewrite !forallb_forall. intros H c Hc.
  apply H. now apply in_rev.
Qed.

(** [lstrip] takes whitespace off, and nothing else. *)
Lemma lstrip_blank_prefix (s : text) :
  exists pre, s = pre ++ lstrip s /\ blank pre = true.
Proof.
  induction s as [|c s [pre [IH Hb]]]; [now exists []|].
  simpl. destruct (is_whitespace c) eqn:E.
  - exists (c :: pre). split; [simpl; now rewrite <- IH|].
    unfold blank in *. simpl. now rewrite E.
  - now exists [].
Qed.

Lemma rstrip_blank_suffix (s : text) :
  exists post, s = rstrip s ++ post /\ blank post = true.
Proof.
  unfold rstrip. destruct (lstrip_blank_prefix (rev s)) as [pre [H Hb]].
  exists (rev pre). split; [|now apply blank_rev].
  rewrite <- rev_app_distr, <- H. now rewrite rev_involutive.
Qed.

Lemma strip_blank_ends (s : text) :
  exists pre post,
    s = pre ++ strip s ++ post /\ blank pre = true /\ blank post = true.
Proof.
  destruct (lstrip_blank_prefix s) as [pre [H1 Hpre]].
  destruct (rstrip_blank_suffix (lstrip s)) as [post [H2 Hpost]].
  exists pre, post. unfold strip.
  split; [|split; assumption]. now rewrite <- H2.
Qed.

Lemma extract_loop_rejoin (parts : list text) :
  split_parts parts ->
  exists (gaps : list text) (before after : text),
    length gaps = length (fst (extract_loop parts)) /\
    forallb blank gaps = true /\
    blank before = true /\ blank after = true /\
    concat parts =
    rejoin gaps (fst (extract_loop parts))
      (before ++ snd (extract_loop parts) ++ after).
Proof.
  induction 1 as [c Hc | c run parts Hc Hne Hrun Hparts IH].
  - destruct (strip_blank_ends c) as [pre [post [E [Hpre Hpost]]]].
    exists [], pre, post. cbn [extract_loop fst snd length rejoin concat].
    rewrite app_nil_r. repeat split; assumption.
  - destruct IH as [gaps [before [after [Hl [Hg [Hb [Ha E]]]]]]].
    destruct (lstrip_blank_prefix c) as [pre [Ec Hpre]].
    rewrite (extract_loop_pair c run parts (run_matches run Hne Hrun)).
    cbn [fst snd].
    exists (pre :: gaps), before, after.
    split; [cbn [length]; now rewrite Hl|].
    split; [cbn [forallb]; now rewrite Hpre, Hg|].
    split; [exact Hb|]. split; [exact Ha|].
    cbn [rejoin concat]. rewrite <- E.
    rewrite (strip_content_run c run Hne Hrun).
    rewrite Ec at 1. now rewrite <- !app_assoc.
Qed.

(** ** C6 *)

(** C6 (extractor reconstruction).  For every input text, the input is
    the extracted sentences in order, then the remainder, with whitespace
    between them, before the first and after the last, and nothing else:
    there are gaps of whitespace only, one before each sentence, one
    before the remainder and one after it, such that the sentences and the
    remainder joined with these gaps are the input text, character for
    character.  So the extraction loses, adds and reorders no character
    that is not whitespace, keeps the whitespace inside each sentence and
    inside the remainder as it is, and drops whitespace only at the
    joins.  In particular the sentences followed by the remainder are the
    input up to whitespace. *)
Theorem extract_reconstructs_input (t : text) :
  let sentences := fst (_extract_complete_sentences t) in
  let remainder := snd (_extract_complete_sentences t) in
  (exists (gaps : list text) (before after : text),
     length gaps = length sentences /\
     forallb blank gaps = true /\
     blank before = true /\ blank after = true /\
     t = rejoin gaps sentences (before ++ remainder ++ after)) /\
  squeeze (concat sentences ++ remainder) = squeeze t.
Proof.
  cbv zeta. split; [|apply extract_squeeze].
  rewrite extract_is_loop.
  destruct (extract_loop_rejoin (re_split t) (re_split_parts t))
    as [gaps [before [after [Hl [Hg [Hb [Ha E]]]]]]].
  exists gaps, before, after.
  rewrite re_split_concat in E. repeat split; assumption.
Qed.

(** The joins of a text with two sentences and an unfinished tail: the
    whitespace inside the sentences stays, the whitespace around them is
    what the gaps hold. *)
Example rejoin_two_sentences :
  let t := str "  Hello big  world.  How are you? fine  " in
  _extract_complete_sentences t =
    ([str "Hello big  world."; str "How are you?"], str "fine") /\
  t = rejoin [str "  "; str "  "]
        [str "Hello big  world."; str "How are you?"]
        (str " " ++ str "fine" ++ str "  ").
Proof. split; reflexivity. Qed.
